(** * The dice contract (contracts/dice/dice.hpp): a shallow embedding

    The contract keeps four multi-index tables (offers, games, the global
    game counter and accounts) and exposes six actions.  Every action is a
    function from the tables to either an abort or the new tables; the
    host commits the new tables only when the action returns normally. *)

From Stdlib Require Import ZArith List Bool Lia.
From Stdlib.Strings Require Import String Byte.
Import ListNotations.
Open Scope Z_scope.

Set Implicit Arguments.

(** ** Machine integers *)

(** [uintN_t] arithmetic is arithmetic modulo [2^N]. *)
Definition wrap (w x : Z) : Z := x mod 2 ^ w.

(** [int64_t] arithmetic as the compiled contract performs it: two's
    complement, modulo [2^64]. *)
Definition wrap_int64 (x : Z) : Z := (x + 2 ^ 63) mod 2 ^ 64 - 2 ^ 63.

Definition account_name := Z.   (* uint64_t *)
Definition time := Z.           (* uint32_t *)

(** [asset]: only the [amount] (an [int64_t]) is used by the contract; it
    handles a single currency, and the symbol is left out. *)
Record asset := { amount : Z }.

(** ** checksum256: 32 bytes, read by the contract as four 64-bit words *)

Definition octet : Type :=
  (byte * byte * byte * byte * byte * byte * byte * byte)%type.

Record checksum256 := { q0 : octet; q1 : octet; q2 : octet; q3 : octet }.

Definition zero_octet : octet := (x00, x00, x00, x00, x00, x00, x00, x00)%byte.

(** [memset(&c, 0, sizeof(checksum256))] *)
Definition zero256 : checksum256 :=
  {| q0 := zero_octet; q1 := zero_octet; q2 := zero_octet; q3 := zero_octet |}.

Definition octet_bytes (o : octet) : list byte :=
  let '(b0, b1, b2, b3, b4, b5, b6, b7) := o in [b0; b1; b2; b3; b4; b5; b6; b7].

(** The bytes of a checksum in memory order: [c.hash[0] .. c.hash[31]]. *)
Definition checksum_bytes (c : checksum256) : list byte :=
  octet_bytes (q0 c) ++ octet_bytes (q1 c) ++ octet_bytes (q2 c) ++ octet_bytes (q3 c).

Definition byte_val (b : byte) : Z := Z.of_N (Byte.to_N b).

(** [c.hash[i]] as an unsigned 8-bit value. *)
Definition hash (c : checksum256) (i : nat) : Z :=
  byte_val (nth i (checksum_bytes c) x00%byte).

(** Little-endian value of a byte string. *)
Fixpoint le_value (bs : list byte) : Z :=
  match bs with
  | [] => 0
  | b :: bs' => byte_val b + 256 * le_value bs'
  end.

(** [reinterpret_cast<const uint64_t*>(&c)[i]] *)
Definition p64 (c : checksum256) (i : nat) : Z :=
  le_value (octet_bytes (nth i [q0 c; q1 c; q2 c; q3 c] zero_octet)).

Definition key256 : Type := (Z * Z * Z * Z)%type.

Definition key256_eqb (a b : key256) : bool :=
  let '(a0, a1, a2, a3) := a in
  let '(b0, b1, b2, b3) := b in
  (a0 =? b0) && (a1 =? b1) && (a2 =? b2) && (a3 =? b3).

(** [offer::get_commitment] *)
Definition get_commitment (commitment : checksum256) : key256 :=
  (p64 commitment 0, p64 commitment 1, p64 commitment 2, p64 commitment 3).

Fixpoint memcmp_eq (a b : list byte) : bool :=
  match a, b with
  | [], [] => true
  | x :: a', y :: b' => Byte.eqb x y && memcmp_eq a' b'
  | _, _ => false
  end.

(** [dice::is_equal]: [memcmp] over the 32 bytes is zero. *)
Definition is_equal (a b : checksum256) : bool :=
  memcmp_eq (checksum_bytes a) (checksum_bytes b).

(** [dice::is_zero] *)
Definition is_zero (a : checksum256) : bool :=
  (p64 a 0 =? 0) && (p64 a 1 =? 0) && (p64 a 2 =? 0) && (p64 a 3 =? 0).

(** ** Aborts *)

Inductive error : Type :=
| assert_failure (msg : string)      (* eosio_assert(false, msg) *)
| missing_auth (who : account_name)  (* require_auth *)
| hash_mismatch                      (* assert_sha256 *)
| token_underflow                    (* checked token subtraction *)
| transfer_failed                    (* inline_transfer rejected *)
| duplicate_key                      (* emplace on an existing primary key *)
| end_iterator (site : string).      (* an end iterator is dereferenced *)

Definition result (A : Type) : Type := (error + A)%type.

Definition ok {A} (a : A) : result A := inr a.
Definition abort {A} (e : error) : result A := inl e.

Definition bind {A B} (m : result A) (k : A -> result B) : result B :=
  match m with
  | inl e => inl e
  | inr a => k a
  end.

Notation "x <- m ;; k" := (bind m (fun x => k))
  (at level 61, m at next level, right associativity).
Notation "m ;;; k" := (bind m (fun _ => k))
  (at level 61, right associativity).

(** Modelled from the spec: the host's [eosio_assert]; a failed assertion
    aborts the call with its message. *)
Definition eosio_assert (c : bool) (msg : string) : result unit :=
  if c then ok tt else abort (assert_failure msg).

(** Dereferencing an iterator: [None] is the end iterator. *)
Definition deref {A} (site : string) (itr : option A) : result A :=
  match itr with
  | Some a => ok a
  | None => abort (end_iterator site)
  end.

(** ** The ledger store: multi-index tables

    A table is the list of its rows; rows are told apart by their primary
    key.  Lookups never depend on the order of the list: the primary and
    secondary indices are recovered by taking the least row for the
    index's order. *)

Class Row (T : Type) := primary_key : T -> Z.

Section Table.
Context {T : Type} {RowT : Row T}.

Definition has_key (k : Z) (r : T) : bool := primary_key r =? k.

  (** Modelled from the spec: the ledger store's find-by-key. *)
Definition find (k : Z) (t : list T) : option T := List.find (has_key k) t.

  (** Modelled from the spec: the ledger store's insert; primary keys are
      unique, so inserting an existing key aborts the call. *)
Definition emplace (r : T) (t : list T) : result (list T) :=
    match find (primary_key r) t with
    | Some _ => abort duplicate_key
    | None => ok (t ++ [r])
    end.

Definition replace_row (k : Z) (new : T) (t : list T) : list T :=
    map (fun r => if has_key k r then new else r) t.

  (** Modelled from the spec: the ledger store's in-place modify.  The
      iterator designates a row by its key; the updater runs on the row as
      it is stored now, and may itself abort. *)
Definition modify (site : string) (itr : option T) (updater : T -> result T)
      (t : list T) : result (list T) :=
    i <- deref site itr ;;
    cur <- deref site (find (primary_key i) t) ;;
    new <- updater cur ;;
    ok (replace_row (primary_key i) new t).

  (** Modelled from the spec: the ledger store's erase. *)
Definition erase (k : Z) (t : list T) : list T :=
    filter (fun r => negb (has_key k r)) t.

  (** The least row of [t] for the strict order [lt]. *)
Fixpoint least (lt : T -> T -> bool) (t : list T) : option T :=
    match t with
    | [] => None
    | r :: t' =>
        match least lt t' with
        | Some m => if lt m r then Some m else Some r
        | None => Some r
        end
    end.

Definition pk_lt (a b : T) : bool := primary_key a <? primary_key b.

  (** Modelled from the spec: [begin()] of the primary index, the row
      with the smallest key; [None] is the end iterator. *)
Definition begin_ (t : list T) : option T := least pk_lt t.

  (** Modelled from the spec: insert-with-generated-id; identifiers are
      assigned sequentially, one past the largest key in the table. *)
Definition available_primary_key (t : list T) : Z :=
    match least (fun a b => pk_lt b a) t with
    | Some m => primary_key m + 1
    | None => 0
    end.

  (** Order of a secondary index with 64-bit keys: by key, then by
      primary key. *)
Definition index_lt (sk : T -> Z) (a b : T) : bool :=
    (sk a <? sk b) || ((sk a =? sk b) && pk_lt a b).

  (** Modelled from the spec: find-by-secondary-index (lower bound): the
      first row, in index order, whose key is at least [x]. *)
Definition lower_bound (sk : T -> Z) (x : Z) (t : list T) : option T :=
    least (index_lt sk) (filter (fun r => x <=? sk r) t).

  (** Modelled from the spec: find-by-secondary-index on a 256-bit key:
      the row with that key and the smallest primary key. *)
Definition find_key256 (sk : T -> key256) (k : key256) (t : list T) : option T :=
    least pk_lt (filter (fun r => key256_eqb (sk r) k) t).
End Table.

(** ** Tokens *)

(** Modelled from the spec: the conversion of an [asset] to the currency's
    token type yields its amount. *)
Definition token_type (a : asset) : Z := amount a.

(** Modelled from the spec: debiting never lets a balance go negative; the
    violation aborts the call. *)
Definition token_sub (a b : Z) : result asset :=
  if a <? b then abort token_underflow else ok {| amount := a - b |}.

(** Modelled from the spec: crediting adds the amount to the balance. *)
Definition token_add (a b : Z) : result asset := ok {| amount := a + b |}.

(** ** Rows of the four tables *)

Record offer := {
  offer_id : Z;                      (* uint64_t *)
  offer_owner : account_name;
  offer_bet : asset;
  offer_commitment : checksum256;
  offer_gameid : Z                   (* uint64_t *)
}.

#[export] Instance offer_row : Row offer := offer_id.

Definition by_bet (o : offer) : Z := wrap 64 (amount (offer_bet o)).
Definition by_commitment (o : offer) : key256 := get_commitment (offer_commitment o).

Record player := {
  player_commitment : checksum256;
  player_reveal : checksum256
}.

Record game := {
  game_id : Z;                       (* uint64_t *)
  game_bet : asset;
  game_deadline : time;
  game_player1 : player;
  game_player2 : player
}.

#[export] Instance game_row : Row game := game_id.

Record global_dice := {
  global_id : Z;
  global_nextgameid : Z              (* uint64_t *)
}.

#[export] Instance global_dice_row : Row global_dice := global_id.

Record account := {
  account_owner : account_name;
  account_eos_balance : asset;
  account_open_offers : Z;           (* uint32_t *)
  account_open_games : Z             (* uint32_t *)
}.

#[export] Instance account_row : Row account := account_owner.

(** [account::is_empty] *)
Definition is_empty (a : account) : bool :=
  Z.lor (Z.lor (amount (account_eos_balance a)) (account_open_offers a))
        (account_open_games a) =? 0.

Record state := {
  offers : list offer;
  games : list game;
  global_dices : list global_dice;
  accounts : list account
}.

Definition initial_state : state :=
  {| offers := []; games := []; global_dices := []; accounts := [] |}.

(** ** Actions and the context of a call *)

Record offerbet := {
  offerbet_bet : asset;
  offerbet_player : account_name;
  offerbet_commitment : checksum256
}.

Record canceloffer := { canceloffer_commitment : checksum256 }.

Record reveal := {
  reveal_commitment : checksum256;
  reveal_source : checksum256
}.

Record claimexpired := { claimexpired_gameid : Z }.

Record deposit := { deposit_from : account_name; deposit_amount : asset }.

Record withdraw := { withdraw_to : account_name; withdraw_amount : asset }.

Inductive action : Type :=
| act_offerbet (a : offerbet)
| act_canceloffer (a : canceloffer)
| act_reveal (a : reveal)
| act_claimexpired (a : claimexpired)
| act_deposit (a : deposit)
| act_withdraw (a : withdraw).

(** Modelled from the spec: what the host answers during one call, the
    clock, which accounts authorised the call, and whether the token
    contract accepts a transfer. *)
Record context := {
  now : time;
  authorized : account_name -> bool;
  transfer_accepted : account_name -> account_name -> Z -> bool
}.

Definition FIVE_MINUTES : Z := 5 * 60.

Definition is_some {A} (o : option A) : bool :=
  match o with Some _ => true | None => false end.

Definition player_bytes (p : player) : list byte :=
  checksum_bytes (player_commitment p) ++ checksum_bytes (player_reveal p).

Definition set_reveal (p : player) (r : checksum256) : player :=
  {| player_commitment := player_commitment p; player_reveal := r |}.

(** ** The updaters handed to [modify]

    Each one is a lambda of the source, named after what it does to the
    row. *)

(** [acnt.eos_balance.amount += 2*g.bet.amount; acnt.open_games--;] *)
Definition credit_winner (g : game) (acnt : account) : account :=
  {| account_owner := account_owner acnt;
     account_eos_balance :=
       {| amount := wrap_int64 (amount (account_eos_balance acnt)
                                + wrap_int64 (2 * amount (game_bet g))) |};
     account_open_offers := account_open_offers acnt;
     account_open_games := wrap 32 (account_open_games acnt - 1) |}.

(** [acnt.open_games--;] *)
Definition close_game (acnt : account) : account :=
  {| account_owner := account_owner acnt;
     account_eos_balance := account_eos_balance acnt;
     account_open_offers := account_open_offers acnt;
     account_open_games := wrap 32 (account_open_games acnt - 1) |}.

(** [acnt.eos_balance = token_type(acnt.eos_balance) - amount;
    acnt.open_offers++;] *)
Definition debit_open_offer (amt : Z) (acnt : account) : result account :=
  bal <- token_sub (token_type (account_eos_balance acnt)) amt ;;
  ok {| account_owner := account_owner acnt;
        account_eos_balance := bal;
        account_open_offers := wrap 32 (account_open_offers acnt + 1);
        account_open_games := account_open_games acnt |}.

(** [acnt.eos_balance = token_type(acnt.eos_balance) - amount;
    acnt.open_games++;] *)
Definition debit_open_game (amt : Z) (acnt : account) : result account :=
  bal <- token_sub (token_type (account_eos_balance acnt)) amt ;;
  ok {| account_owner := account_owner acnt;
        account_eos_balance := bal;
        account_open_offers := account_open_offers acnt;
        account_open_games := wrap 32 (account_open_games acnt + 1) |}.

(** [acnt.open_offers--; acnt.open_games++;] *)
Definition offer_to_game (acnt : account) : account :=
  {| account_owner := account_owner acnt;
     account_eos_balance := account_eos_balance acnt;
     account_open_offers := wrap 32 (account_open_offers acnt - 1);
     account_open_games := wrap 32 (account_open_games acnt + 1) |}.

(** [gdice.nextgameid++;] *)
Definition next_game (gdice : global_dice) : global_dice :=
  {| global_id := global_id gdice;
     global_nextgameid := wrap 64 (global_nextgameid gdice + 1) |}.

(** [offer.bet.amount = 0; offer.gameid = game_itr->id;] *)
Definition enter_game (gid : Z) (o : offer) : offer :=
  {| offer_id := offer_id o;
     offer_owner := offer_owner o;
     offer_bet := {| amount := 0 |};
     offer_commitment := offer_commitment o;
     offer_gameid := gid |}.

(** [acnt.open_offers--; acnt.eos_balance.amount += offer_itr->bet.amount;] *)
Definition refund (o : offer) (acnt : account) : account :=
  {| account_owner := account_owner acnt;
     account_eos_balance :=
       {| amount := wrap_int64 (amount (account_eos_balance acnt)
                                + amount (offer_bet o)) |};
     account_open_offers := wrap 32 (account_open_offers acnt - 1);
     account_open_games := account_open_games acnt |}.

(** [if( is_equal(curr_reveal.commitment, game.player1.commitment) )
       game.player1.reveal = reveal_info.source;
    else
       game.player2.reveal = reveal_info.source;
    game.deadline = now() + FIVE_MINUTES;] *)
Definition record_reveal (ctx : context) (curr_reveal : player)
    (source : checksum256) (g : game) : game :=
  let first := is_equal (player_commitment curr_reveal)
                        (player_commitment (game_player1 g)) in
  {| game_id := game_id g;
     game_bet := game_bet g;
     game_deadline := wrap 32 (now ctx + FIVE_MINUTES);
     game_player1 :=
       if first then set_reveal (game_player1 g) source else game_player1 g;
     game_player2 :=
       if first then game_player2 g else set_reveal (game_player2 g) source |}.

(** [acnt.eos_balance = token_type(acnt.eos_balance) + amount;] *)
Definition credit (amt : Z) (acnt : account) : result account :=
  bal <- token_add (token_type (account_eos_balance acnt)) amt ;;
  ok {| account_owner := account_owner acnt;
        account_eos_balance := bal;
        account_open_offers := account_open_offers acnt;
        account_open_games := account_open_games acnt |}.

(** [acnt.eos_balance = token_type(acnt.eos_balance) - amount;] *)
Definition debit (amt : Z) (acnt : account) : result account :=
  bal <- token_sub (token_type (account_eos_balance acnt)) amt ;;
  ok {| account_owner := account_owner acnt;
        account_eos_balance := bal;
        account_open_offers := account_open_offers acnt;
        account_open_games := account_open_games acnt |}.

(** ** The contract *)

Section Dice.
(** The account the contract is deployed on, and the hash primitive. *)
Variable DiceAccount : account_name.
Variable sha256 : list byte -> checksum256.

(** Modelled from the spec: the host's [require_auth]. *)
Definition require_auth (ctx : context) (who : account_name) : result unit :=
  if authorized ctx who then ok tt else abort (missing_auth who).

(** Modelled from the spec: the inline [transfer] sent to the token
    contract; when it is rejected the call aborts. *)
Definition inline_transfer (ctx : context) (from to : account_name) (q : Z)
  : result unit :=
  if transfer_accepted ctx from to q then ok tt else abort transfer_failed.

(** Modelled from the spec: the host's [assert_sha256]. *)
Definition assert_sha256 (data : list byte) (h : checksum256) : result unit :=
  if is_equal (sha256 data) h then ok tt else abort hash_mismatch.

Definition has_offer (commitment : checksum256) (s : state) : bool :=
  is_some (find_key256 by_commitment (get_commitment commitment) (offers s)).

Definition pay_and_clean (g : game) (winner_offer loser_offer : offer) (s : state)
  : result state :=
  (* Update winner account balance and game count *)
  let winner_account := find (offer_owner winner_offer) (accounts s) in
  accounts1 <- modify "winner_account" winner_account
                 (fun acnt => ok (credit_winner g acnt)) (accounts s) ;;
  (* Update loser account game count *)
  let loser_account := find (offer_owner loser_offer) accounts1 in
  accounts2 <- modify "loser_account" loser_account
                 (fun acnt => ok (close_game acnt)) accounts1 ;;
  (* loser_account->is_empty() reads the row as it is stored now *)
  loser <- deref "loser_account" (find (offer_owner loser_offer) accounts2) ;;
  let accounts3 :=
    if is_empty loser then erase (primary_key loser) accounts2 else accounts2 in
  ok {| offers := erase (primary_key loser_offer)
                    (erase (primary_key winner_offer) (offers s));
        games := erase (primary_key g) (games s);
        global_dices := global_dices s;
        accounts := accounts3 |}.

(** The search for a matching bet in [on(const offerbet&)]: the lower
    bound of the new offer's amount in the bet index, taken after the
    new offer is stored, is the match unless it is the end iterator, its
    amount differs or it has the same owner. *)
Definition match_offer (new_row : offer) (offers1 : list offer) : option offer :=
  match lower_bound by_bet (wrap 64 (amount (offer_bet new_row))) offers1 with
  | None => None
  | Some matched =>
      if negb (amount (offer_bet matched) =? amount (offer_bet new_row))
         || (offer_owner matched =? offer_owner new_row)
      then None
      else Some matched
  end.

Definition on_offerbet (ctx : context) (new_offer : offerbet) (s : state)
  : result state :=
  let amt := token_type (offerbet_bet new_offer) in
  eosio_assert (0 <? amt) "invalid bet" ;;;
  eosio_assert (negb (has_offer (offerbet_commitment new_offer) s))
    "offer with this commitment already exist" ;;;
  require_auth ctx (offerbet_player new_offer) ;;;
  let cur_player_itr := find (offerbet_player new_offer) (accounts s) in
  eosio_assert (is_some cur_player_itr) "unknown account" ;;;
  (* Store new offer *)
  let new_row :=
    {| offer_id := available_primary_key (offers s);
       offer_owner := offerbet_player new_offer;
       offer_bet := offerbet_bet new_offer;
       offer_commitment := offerbet_commitment new_offer;
       offer_gameid := 0 |} in
  offers1 <- emplace new_row (offers s) ;;
  let new_offer_itr := Some new_row in
  (* Try to find a matching bet *)
  let matched_offer_itr := match_offer new_row offers1 in
  match matched_offer_itr with
  | None =>
    (* No matching bet found, update player's account *)
    accounts1 <- modify "cur_player_itr" cur_player_itr (debit_open_offer amt)
                   (accounts s) ;;
    ok {| offers := offers1; games := games s;
          global_dices := global_dices s; accounts := accounts1 |}
  | Some matched =>
    (* Create global game counter if not exists *)
    let fresh := {| global_id := 0; global_nextgameid := 0 |} in
    let gdice_itr := begin_ (global_dices s) in
    global_dices1 <- match gdice_itr with
                     | None => emplace fresh (global_dices s)
                     | Some _ => ok (global_dices s)
                     end ;;
    let gdice_itr := match gdice_itr with
                     | None => Some fresh
                     | Some _ => gdice_itr
                     end in
    (* Increment global game counter *)
    global_dices2 <- modify "gdice_itr" gdice_itr (fun gdice => ok (next_game gdice))
                       global_dices1 ;;
    (* gdice_itr->nextgameid reads the row as it is stored now *)
    gkey <- deref "gdice_itr" gdice_itr ;;
    gdice <- deref "gdice_itr" (find (primary_key gkey) global_dices2) ;;
    (* Create a new game *)
    let new_game :=
      {| game_id := global_nextgameid gdice;
         game_bet := offer_bet new_row;
         game_deadline := 0;
         game_player1 := {| player_commitment := offer_commitment matched;
                            player_reveal := zero256 |};
         game_player2 := {| player_commitment := offer_commitment new_row;
                            player_reveal := zero256 |} |} in
    games1 <- emplace new_game (games s) ;;
    (* Update player's offers *)
    offers2 <- modify "matched_offer_itr" matched_offer_itr
                 (fun o => ok (enter_game (game_id new_game) o)) offers1 ;;
    offers3 <- modify "new_offer_itr" new_offer_itr
                 (fun o => ok (enter_game (game_id new_game) o)) offers2 ;;
    (* Update player's accounts *)
    accounts1 <- modify "accounts.find(matched_offer_itr->owner)"
                   (find (offer_owner matched) (accounts s))
                   (fun acnt => ok (offer_to_game acnt)) (accounts s) ;;
    accounts2 <- modify "cur_player_itr" cur_player_itr (debit_open_game amt)
                   accounts1 ;;
    ok {| offers := offers3; games := games1;
          global_dices := global_dices2; accounts := accounts2 |}
  end.

Definition on_canceloffer (ctx : context) (c : canceloffer) (s : state)
  : result state :=
  let offer_itr :=
    find_key256 by_commitment (get_commitment (canceloffer_commitment c)) (offers s) in
  eosio_assert (is_some offer_itr) "offer does not exists" ;;;
  o <- deref "offer_itr" offer_itr ;;
  eosio_assert (offer_gameid o =? 0) "unable to cancel offer" ;;;
  require_auth ctx (offer_owner o) ;;;
  let acnt_itr := find (offer_owner o) (accounts s) in
  accounts1 <- modify "acnt_itr" acnt_itr (fun acnt => ok (refund o acnt))
                 (accounts s) ;;
  ok {| offers := erase (primary_key o) (offers s); games := games s;
        global_dices := global_dices s; accounts := accounts1 |}.

(** The digest taken in [on(const reveal&)]: [sha256] over
    [2 * sizeof(player)] bytes starting at [game_itr->player1], that is,
    the two player slots of the stored game, back to back. *)
Definition outcome_digest (g : game) : checksum256 :=
  sha256 (player_bytes (game_player1 g) ++ player_bytes (game_player2 g)).

Definition on_reveal (ctx : context) (reveal_info : reveal) (s : state)
  : result state :=
  assert_sha256 (checksum_bytes (reveal_source reveal_info))
    (reveal_commitment reveal_info) ;;;
  let curr_revealer_offer :=
    find_key256 by_commitment (get_commitment (reveal_commitment reveal_info))
      (offers s) in
  eosio_assert (is_some curr_revealer_offer) "offer not found" ;;;
  curr_offer <- deref "curr_revealer_offer" curr_revealer_offer ;;
  eosio_assert (0 <? offer_gameid curr_offer) "unable to reveal" ;;;
  let game_itr := find (offer_gameid curr_offer) (games s) in
  g <- deref "game_itr" game_itr ;;
  let '(curr_reveal, prev_reveal) :=
    if negb (is_equal (player_commitment (game_player1 g))
                      (reveal_commitment reveal_info))
    then (game_player2 g, game_player1 g)        (* std::swap *)
    else (game_player1 g, game_player2 g) in
  eosio_assert (is_zero (player_reveal curr_reveal)) "player already revealed" ;;;
  if negb (is_zero (player_reveal prev_reveal)) then
    let result := outcome_digest g in
    let prev_revealer_offer :=
      find_key256 by_commitment (get_commitment (player_commitment prev_reveal))
        (offers s) in
    let winner := if hash result 1 <? hash result 0 then 0 else 1 in
    prev_offer <- deref "prev_revealer_offer" prev_revealer_offer ;;
    if negb (winner =? 0)
    then pay_and_clean g curr_offer prev_offer s
    else pay_and_clean g prev_offer curr_offer s
  else
    games1 <- modify "game_itr" game_itr
                (fun g' =>
                   ok (record_reveal ctx curr_reveal (reveal_source reveal_info) g'))
                (games s) ;;
    ok {| offers := offers s; games := games1;
          global_dices := global_dices s; accounts := accounts s |}.

Definition on_claimexpired (ctx : context) (claim : claimexpired) (s : state)
  : result state :=
  let game_itr := find (claimexpired_gameid claim) (games s) in
  eosio_assert (is_some game_itr) "game not found" ;;;
  g <- deref "game_itr" game_itr ;;
  eosio_assert (negb (game_deadline g =? 0) && (game_deadline g <? now ctx))
    "game not expired" ;;;
  let player1_offer :=
    find_key256 by_commitment
      (get_commitment (player_commitment (game_player1 g))) (offers s) in
  let player2_offer :=
    find_key256 by_commitment
      (get_commitment (player_commitment (game_player2 g))) (offers s) in
  if negb (is_zero (player_reveal (game_player1 g))) then
    eosio_assert (is_zero (player_reveal (game_player2 g))) "game error" ;;;
    o1 <- deref "player1_offer" player1_offer ;;
    o2 <- deref "player2_offer" player2_offer ;;
    pay_and_clean g o1 o2 s
  else
    eosio_assert (is_zero (player_reveal (game_player1 g))) "game error" ;;;
    o2 <- deref "player2_offer" player2_offer ;;
    o1 <- deref "player1_offer" player1_offer ;;
    pay_and_clean g o2 o1 s.

Definition on_deposit (ctx : context) (d : deposit) (s : state) : result state :=
  let fresh :=
    {| account_owner := deposit_from d;
       account_eos_balance := {| amount := 0 |};
       account_open_offers := 0;
       account_open_games := 0 |} in
  let itr := find (deposit_from d) (accounts s) in
  accounts1 <- match itr with
               | None => emplace fresh (accounts s)
               | Some _ => ok (accounts s)
               end ;;
  let itr := match itr with None => Some fresh | Some _ => itr end in
  let amt := token_type (deposit_amount d) in
  inline_transfer ctx (deposit_from d) DiceAccount amt ;;;
  accounts2 <- modify "itr" itr (credit amt) accounts1 ;;
  ok {| offers := offers s; games := games s;
        global_dices := global_dices s; accounts := accounts2 |}.

Definition on_withdraw (ctx : context) (w : withdraw) (s : state) : result state :=
  require_auth ctx (withdraw_to w) ;;;
  let itr := find (withdraw_to w) (accounts s) in
  eosio_assert (is_some itr) "unknown account" ;;;
  let amt := token_type (withdraw_amount w) in
  accounts1 <- modify "itr" itr (debit amt) (accounts s) ;;
  inline_transfer ctx DiceAccount (withdraw_to w) amt ;;;
  (* itr->is_empty() reads the row as it is stored now *)
  cur <- deref "itr" (find (withdraw_to w) accounts1) ;;
  let accounts2 :=
    if is_empty cur then erase (primary_key cur) accounts1 else accounts1 in
  ok {| offers := offers s; games := games s;
        global_dices := global_dices s; accounts := accounts2 |}.

  (** [dice::apply]: the dispatcher over the six actions. *)
Definition apply (ctx : context) (a : action) (s : state) : result state :=
    match a with
    | act_offerbet x => on_offerbet ctx x s
    | act_canceloffer x => on_canceloffer ctx x s
    | act_reveal x => on_reveal ctx x s
    | act_claimexpired x => on_claimexpired ctx x s
    | act_deposit x => on_deposit ctx x s
    | act_withdraw x => on_withdraw ctx x s
    end.

  (** Modelled from the spec: a call is atomic; when it aborts none of its
      writes is committed and the tables are as before the call. *)
Definition execute (ctx : context) (a : action) (s : state) : state :=
    match apply ctx a s with
    | inr s' => s'
    | inl _ => s
    end.

  (** States reachable from the empty tables in [n] successful calls. *)
Inductive reachable_in : nat -> state -> Prop :=
  | reach_init : reachable_in 0 initial_state
  | reach_step n s ctx a s' :
      reachable_in n s -> apply ctx a s = inr s' -> reachable_in (S n) s'.

Definition reachable (s : state) : Prop := exists n, reachable_in n s.

  (** The arguments of a call as the ABI delivers them: the amount of an
      [asset] is an [int64_t]. *)
Definition well_typed (a : action) : Prop :=
    match a with
    | act_offerbet x => - 2 ^ 63 <= amount (offerbet_bet x) < 2 ^ 63
    | act_deposit x => - 2 ^ 63 <= amount (deposit_amount x) < 2 ^ 63
    | act_withdraw x => - 2 ^ 63 <= amount (withdraw_amount x) < 2 ^ 63
    | _ => True
    end.

  (** States reachable by successful calls with such arguments. *)
Inductive reachable_typed : state -> Prop :=
  | typed_init : reachable_typed initial_state
  | typed_step s ctx a s' :
      reachable_typed s -> well_typed a -> apply ctx a s = inr s' ->
      reachable_typed s'.
End Dice.

(** ** SHA-256 (FIPS 180-4), the hash the host provides

    The contract is stated over an arbitrary hash function; the concrete
    runs below use this one. *)

Module SHA256.

Definition add32 (x y : Z) : Z := (x + y) mod 2 ^ 32.

Definition rotr (n x : Z) : Z :=
    Z.lor (Z.shiftr x n) (Z.shiftl x (32 - n) mod 2 ^ 32).

Definition Ch (x y z : Z) : Z :=
    Z.lxor (Z.land x y) (Z.land (Z.lxor x (2 ^ 32 - 1)) z).

Definition Maj (x y z : Z) : Z :=
    Z.lxor (Z.lxor (Z.land x y) (Z.land x z)) (Z.land y z).

Definition Sigma0 (x : Z) : Z := Z.lxor (Z.lxor (rotr 2 x) (rotr 13 x)) (rotr 22 x).
Definition Sigma1 (x : Z) : Z := Z.lxor (Z.lxor (rotr 6 x) (rotr 11 x)) (rotr 25 x).
Definition sigma0 (x : Z) : Z := Z.lxor (Z.lxor (rotr 7 x) (rotr 18 x)) (Z.shiftr x 3).
Definition sigma1 (x : Z) : Z := Z.lxor (Z.lxor (rotr 17 x) (rotr 19 x)) (Z.shiftr x 10).

(** The round constants: the first 32 bits of the fractional parts of the
    cube roots of the first 64 primes. *)
Definition K : list Z :=
  [1116352408; 1899447441; 3049323471; 3921009573; 961987163; 1508970993;
   2453635748; 2870763221; 3624381080; 310598401; 607225278; 1426881987;
   1925078388; 2162078206; 2614888103; 3248222580; 3835390401; 4022224774;
   264347078; 604807628; 770255983; 1249150122; 1555081692; 1996064986;
   2554220882; 2821834349; 2952996808; 3210313671; 3336571891; 3584528711;
   113926993; 338241895; 666307205; 773529912; 1294757372; 1396182291;
   1695183700; 1986661051; 2177026350; 2456956037; 2730485921; 2820302411;
   3259730800; 3345764771; 3516065817; 3600352804; 4094571909; 275423344;
   430227734; 506948616; 659060556; 883997877; 958139571; 1322822218;
   1537002063; 1747873779; 1955562222; 2024104815; 2227730452; 2361852424;
   2428436474; 2756734187; 3204031479; 3329325298].

(** The initial hash value: the first 32 bits of the fractional parts of
    the square roots of the first 8 primes. *)
Definition H0 : list Z :=
  [1779033703; 3144134277; 1013904242; 2773480762; 1359893119; 2600822924;
   528734635; 1541459225].

Definition byte_of_Z (z : Z) : byte :=
    match Byte.of_N (Z.to_N (z mod 256)) with
    | Some b => b
    | None => x00%byte
    end.

  (** Big-endian bytes of the low [8 * n] bits of [z]. *)
Fixpoint be_bytes (n : nat) (z : Z) : list byte :=
    match n with
    | O => []
    | S n' => byte_of_Z (Z.shiftr z (8 * Z.of_nat n')) :: be_bytes n' z
    end.

Definition be_value (bs : list byte) : Z :=
    fold_left (fun acc b => 256 * acc + byte_val b) bs 0.

  (** Padding: a one bit, zeros up to 56 modulo 64, the bit length. *)
Definition pad (msg : list byte) : list byte :=
    let len := Z.of_nat (List.length msg) in
    let zeros := Z.to_nat ((55 - len) mod 64) in
    msg ++ x80%byte :: repeat x00%byte zeros ++ be_bytes 8 (8 * len).

Fixpoint words (n : nat) (bs : list byte) : list Z :=
    match n with
    | O => []
    | S n' => be_value (firstn 4 bs) :: words n' (skipn 4 bs)
    end.

  (** The message schedule, most recent word first. *)
Fixpoint schedule (n : nat) (w : list Z) : list Z :=
    match n with
    | O => w
    | S n' =>
        let x := add32 (add32 (sigma1 (nth 1 w 0)) (nth 6 w 0))
                       (add32 (sigma0 (nth 14 w 0)) (nth 15 w 0)) in
        schedule n' (x :: w)
    end.

Definition round (v : list Z) (kw : Z * Z) : list Z :=
    match v with
    | [a; b; c; d; e; f; g; h] =>
        let t1 := add32 (add32 (add32 h (Sigma1 e)) (Ch e f g))
                        (add32 (fst kw) (snd kw)) in
        let t2 := add32 (Sigma0 a) (Maj a b c) in
        [add32 t1 t2; a; b; c; add32 d t1; e; f; g]
    | _ => v
    end.

Definition compress (h : list Z) (block : list byte) : list Z :=
    let w := rev (schedule 48 (rev (words 16 block))) in
    let v := fold_left round (combine K w) h in
    map (fun p => add32 (fst p) (snd p)) (combine h v).

Fixpoint blocks (n : nat) (h : list Z) (bs : list byte) : list Z :=
    match n with
    | O => h
    | S n' => blocks n' (compress h (firstn 64 bs)) (skipn 64 bs)
    end.

Definition octet_of (bs : list byte) : octet :=
    let b i := nth i bs x00%byte in
    (b 0%nat, b 1%nat, b 2%nat, b 3%nat, b 4%nat, b 5%nat, b 6%nat, b 7%nat).

Definition checksum_of_bytes (bs : list byte) : checksum256 :=
    {| q0 := octet_of bs;
       q1 := octet_of (skipn 8 bs);
       q2 := octet_of (skipn 16 bs);
       q3 := octet_of (skipn 24 bs) |}.

Definition sha256 (msg : list byte) : checksum256 :=
    let p := pad msg in
    let h := blocks (Nat.div (List.length p) 64) H0 p in
    checksum_of_bytes (flat_map (be_bytes 4) h).

End SHA256.

(** ** Concrete runs *)

Fixpoint run (DiceAccount : account_name) (sha256 : list byte -> checksum256)
    (calls : list (context * action)) (s : state) : result state :=
  match calls with
  | [] => ok s
  | (ctx, a) :: rest => s' <- apply DiceAccount sha256 ctx a s ;; run DiceAccount sha256 rest s'
  end.

Module Scenario.
Definition dice : account_name := 100.
Definition alice : account_name := 1.
Definition bob : account_name := 2.

Definition host (t : time) : context :=
    {| now := t; authorized := fun _ => true;
       transfer_accepted := fun _ _ _ => true |}.

Definition secret (b : byte) : checksum256 :=
    SHA256.checksum_of_bytes (repeat b 32).

Definition commit (src : checksum256) : checksum256 :=
    SHA256.sha256 (checksum_bytes src).

Definition secret_a : checksum256 := secret x01%byte.
Definition secret_b : checksum256 := secret x02%byte.

Definition place (who : account_name) (stake : Z) (src : checksum256) : action :=
    act_offerbet {| offerbet_bet := {| amount := stake |};
                    offerbet_player := who;
                    offerbet_commitment := commit src |}.

Definition open_up (src : checksum256) : action :=
    act_reveal {| reveal_commitment := commit src; reveal_source := src |}.

Definition fund (who : account_name) (q : Z) : action :=
    act_deposit {| deposit_from := who; deposit_amount := {| amount := q |} |}.

  (** Alice and Bob fund their accounts and place equal bets: game 1 has
      Alice (the earlier, matched offer) as player1 and Bob as player2. *)
Definition matched_calls (sa sb : checksum256) : list (context * action) :=
    [(host 10, fund alice 1000); (host 20, fund bob 1000);
     (host 30, place alice 100 sa); (host 40, place bob 100 sb)].
(** The tables once Alice's offer waits in the book. *)
Definition alice_offer : offer :=
  {| offer_id := 0; offer_owner := alice; offer_bet := {| amount := 100 |};
     offer_commitment := commit secret_a; offer_gameid := 0 |}.

Definition st_waiting : state :=
  {| offers := [alice_offer];
     games := [];
     global_dices := [];
     accounts :=
       [{| account_owner := alice; account_eos_balance := {| amount := 900 |};
           account_open_offers := 1; account_open_games := 0 |};
        {| account_owner := bob; account_eos_balance := {| amount := 1000 |};
           account_open_offers := 0; account_open_games := 0 |}] |}.

Definition bob_bet : offerbet :=
  {| offerbet_bet := {| amount := 100 |}; offerbet_player := bob;
     offerbet_commitment := commit secret_b |}.

(** Game 1 between Alice (player1) and Bob (player2), with the given
    reveals and deadline. *)
Definition game1 (r1 r2 : checksum256) (deadline : time) : game :=
  {| game_id := 1; game_bet := {| amount := 100 |}; game_deadline := deadline;
     game_player1 := {| player_commitment := commit secret_a; player_reveal := r1 |};
     game_player2 := {| player_commitment := commit secret_b; player_reveal := r2 |} |}.

Definition alice_in_game : offer :=
  {| offer_id := 0; offer_owner := alice; offer_bet := {| amount := 0 |};
     offer_commitment := commit secret_a; offer_gameid := 1 |}.

Definition bob_in_game : offer :=
  {| offer_id := 1; offer_owner := bob; offer_bet := {| amount := 0 |};
     offer_commitment := commit secret_b; offer_gameid := 1 |}.

Definition st_playing (g : game) : state :=
  {| offers := [alice_in_game; bob_in_game];
     games := [g];
     global_dices := [{| global_id := 0; global_nextgameid := 1 |}];
     accounts :=
       [{| account_owner := alice; account_eos_balance := {| amount := 900 |};
           account_open_offers := 0; account_open_games := 1 |};
        {| account_owner := bob; account_eos_balance := {| amount := 900 |};
           account_open_offers := 0; account_open_games := 1 |}] |}.

(** A book holding two open offers of the same stake by different owners. *)
Definition carol : account_name := 3.

Definition st_two_open : state :=
  {| offers :=
       [{| offer_id := 0; offer_owner := alice; offer_bet := {| amount := 100 |};
           offer_commitment := secret x01%byte; offer_gameid := 0 |};
        {| offer_id := 1; offer_owner := bob; offer_bet := {| amount := 100 |};
           offer_commitment := secret x02%byte; offer_gameid := 0 |}];
     games := [];
     global_dices := [];
     accounts :=
       [{| account_owner := alice; account_eos_balance := {| amount := 900 |};
           account_open_offers := 1; account_open_games := 0 |};
        {| account_owner := bob; account_eos_balance := {| amount := 900 |};
           account_open_offers := 1; account_open_games := 0 |}] |}.

Definition alice_again : offerbet :=
  {| offerbet_bet := {| amount := 100 |}; offerbet_player := alice;
     offerbet_commitment := secret x03%byte |}.

Definition balances (s : state) : list (account_name * Z) :=
  map (fun a => (account_owner a, amount (account_eos_balance a))) (accounts s).
End Scenario.

(** ** The matching rule as the specification words it

    "The smallest offer id whose stake equals the new offer's stake,
    excluding offers owned by the same account." *)
Definition spec_match_offer (new_row : offer) (book : list offer) : option offer :=
  least pk_lt
    (filter (fun r => (amount (offer_bet r) =? amount (offer_bet new_row))
                      && negb (offer_owner r =? offer_owner new_row)) book).

Definition unique_keys {T} {RowT : Row T} (t : list T) : Prop :=
  NoDup (map primary_key t).

(** ** The offers that wait for a match

    Stakes are non-negative [int64_t] amounts, and the offers of one
    positive stake all belong to one owner: an offer of another owner
    would have been matched when it was placed. *)
Definition stakes_typed (t : list offer) : Prop :=
  forall r, In r t -> 0 <= amount (offer_bet r) < 2 ^ 63.

Definition one_owner_per_stake (t : list offer) : Prop :=
  forall a b, In a t -> In b t -> 0 < amount (offer_bet a) ->
    amount (offer_bet a) = amount (offer_bet b) -> offer_owner a = offer_owner b.

(** ** A book flooded with the offers of one owner *)

Module Flood.
Definition hoarder : account_name := 7.
Definition rival : account_name := 8.

(** The little-endian bytes of the low [8 * n] bits of [z]. *)
Fixpoint le_bytes (n : nat) (z : Z) : list byte :=
  match n with
  | O => []
  | S n' => SHA256.byte_of_Z z :: le_bytes n' (z / 256)
  end.

(** A commitment per offer: the first one commits to a known secret, the
    others carry the offer's number in the first word. *)
Definition plain (j : nat) : checksum256 :=
  {| q0 := SHA256.octet_of (le_bytes 8 (Z.of_nat j));
     q1 := zero_octet; q2 := zero_octet; q3 := zero_octet |}.

Definition mark (j : nat) : checksum256 :=
  match j with
  | O => Scenario.commit Scenario.secret_a
  | S _ => plain j
  end.

Definition flood_offer (j : nat) : offer :=
  {| offer_id := Z.of_nat j; offer_owner := hoarder;
     offer_bet := {| amount := 1 |}; offer_commitment := mark j;
     offer_gameid := 0 |}.

Definition flood_bet (j : nat) : offerbet :=
  {| offerbet_bet := {| amount := 1 |}; offerbet_player := hoarder;
     offerbet_commitment := mark j |}.

Definition funds : Z := 2 ^ 32 + 5.

(** The tables after the hoarder has deposited [funds] and placed [i]
    offers of stake 1. *)
Definition flooded (i : nat) : state :=
  {| offers := map flood_offer (seq 0 i);
     games := [];
     global_dices := [];
     accounts :=
       [{| account_owner := hoarder;
           account_eos_balance := {| amount := funds - Z.of_nat i |};
           account_open_offers := wrap 32 (Z.of_nat i);
           account_open_games := 0 |}] |}.

(** [2^32] offers. *)
Definition full : nat := Z.to_nat (2 ^ 32).

(** The tables once the hoarder, whose counter has wrapped to zero, has
    withdrawn the rest of the balance. *)
Definition orphaned : state :=
  {| offers := map flood_offer (seq 0 full);
     games := [];
     global_dices := [];
     accounts := [] |}.

(** The rival then funds an account and bets against the orphaned offers. *)
Definition contested : state :=
  {| offers := map flood_offer (seq 0 full);
     games := [];
     global_dices := [];
     accounts :=
       [{| account_owner := rival;
           account_eos_balance := {| amount := 10 |};
           account_open_offers := 0;
           account_open_games := 0 |}] |}.

Definition rival_bet : offerbet :=
  {| offerbet_bet := {| amount := 1 |}; offerbet_player := rival;
     offerbet_commitment := mark (S full) |}.

(** *** The offers matched one by one

    Instead of withdrawing, the hoarder lets the rival match the [n]
    offers.  The rival deposits [purse] and bets stake 1 again and again;
    the [k]-th bet takes the id [n + k] and is matched with the
    hoarder's offer [k], in game [k + 1]. *)
Definition purse : Z := 2 ^ 32.

Definition counter_bet (n k : nat) : offerbet :=
  {| offerbet_bet := {| amount := 1 |}; offerbet_player := rival;
     offerbet_commitment := mark (n + k) |}.

(** The offer with id [j] once [k] of the [n] offers are matched. *)
Definition paired_offer (n k j : nat) : offer :=
  if (j <? n)%nat then
    if (j <? k)%nat then
      {| offer_id := Z.of_nat j; offer_owner := hoarder;
         offer_bet := {| amount := 0 |}; offer_commitment := mark j;
         offer_gameid := Z.of_nat j + 1 |}
    else flood_offer j
  else
    {| offer_id := Z.of_nat j; offer_owner := rival;
       offer_bet := {| amount := 0 |}; offer_commitment := mark j;
       offer_gameid := Z.of_nat (j - n) + 1 |}.

Definition paired_game (n j : nat) : game :=
  {| game_id := Z.of_nat j + 1;
     game_bet := {| amount := 1 |};
     game_deadline := 0;
     game_player1 := {| player_commitment := mark j; player_reveal := zero256 |};
     game_player2 := {| player_commitment := mark (n + j);
                        player_reveal := zero256 |} |}.

Definition counter (k : nat) : list global_dice :=
  match k with
  | O => []
  | S _ => [{| global_id := 0; global_nextgameid := Z.of_nat k |}]
  end.

Definition paired (n k : nat) : state :=
  {| offers := map (paired_offer n k) (seq 0 (n + k));
     games := map (paired_game n) (seq 0 k);
     global_dices := counter k;
     accounts :=
       [{| account_owner := hoarder;
           account_eos_balance := {| amount := funds - Z.of_nat n |};
           account_open_offers := wrap 32 (Z.of_nat n - Z.of_nat k);
           account_open_games := wrap 32 (Z.of_nat k) |};
        {| account_owner := rival;
           account_eos_balance := {| amount := purse - Z.of_nat k |};
           account_open_offers := 0;
           account_open_games := wrap 32 (Z.of_nat k) |}] |}.

(** With all [2^32] offers matched both [open_games] counters are back
    at zero.  The hoarder withdraws the rest of the balance, and the
    account record is erased with [2^32] games in progress. *)
Definition abandoned : state :=
  {| offers := map (paired_offer full full) (seq 0 (full + full));
     games := map (paired_game full) (seq 0 full);
     global_dices := counter full;
     accounts :=
       [{| account_owner := rival;
           account_eos_balance := {| amount := 0 |};
           account_open_offers := 0;
           account_open_games := 0 |}] |}.

(** The hoarder's first offer, in game 1. *)
Definition first_taken : offer :=
  {| offer_id := 0; offer_owner := hoarder; offer_bet := {| amount := 0 |};
     offer_commitment := mark 0; offer_gameid := 1 |}.

(** The first game of [abandoned] after the hoarder's secret is revealed
    at time [t]. *)
Definition exposed_game (t : time) : game :=
  {| game_id := 1;
     game_bet := {| amount := 1 |};
     game_deadline := wrap 32 (t + FIVE_MINUTES);
     game_player1 := {| player_commitment := mark 0;
                        player_reveal := Scenario.secret_a |};
     game_player2 := {| player_commitment := mark (full + 0);
                        player_reveal := zero256 |} |}.

Definition exposed (t : time) : state :=
  {| offers := map (paired_offer full full) (seq 0 (full + full));
     games := replace_row 1 (exposed_game t) (map (paired_game full) (seq 0 full));
     global_dices := counter full;
     accounts :=
       [{| account_owner := rival;
           account_eos_balance := {| amount := 0 |};
           account_open_offers := 0;
           account_open_games := 0 |}] |}.
End Flood.

(** ** Integrity of the tables *)

Definition owned_open (who : account_name) (o : offer) : bool :=
  (offer_owner o =? who) && (offer_gameid o =? 0).

Definition owned_in_game (who : account_name) (o : offer) : bool :=
  (offer_owner o =? who) && negb (offer_gameid o =? 0).

Definition count {T} (p : T -> bool) (t : list T) : Z :=
  Z.of_nat (List.length (filter p t)).

(** [c] is the commitment of one of the two player slots of [g]. *)
Definition slot_of (g : game) (c : checksum256) : Prop :=
  player_commitment (game_player1 g) = c \/ player_commitment (game_player2 g) = c.

(** The offer book: identifiers and commitments are unique. *)
Record book_ok (s : state) : Prop := {
  offers_unique : unique_keys (offers s);
  commitments_unique : NoDup (map offer_commitment (offers s))
}.

(** What ties the four tables together after at most [n] calls. *)
Record integrity (n : nat) (s : state) : Prop := {
  book : book_ok s;
  offer_has_game :
    forall o, In o (offers s) -> offer_gameid o <> 0 ->
      amount (offer_bet o) = 0
      /\ exists g, find (offer_gameid o) (games s) = Some g
                   /\ slot_of g (offer_commitment o);
  game_has_offers :
    forall g, In g (games s) ->
      game_id g <> 0
      /\ exists o1 o2,
           In o1 (offers s) /\ In o2 (offers s)
           /\ offer_commitment o1 = player_commitment (game_player1 g)
           /\ offer_commitment o2 = player_commitment (game_player2 g)
           /\ offer_gameid o1 = game_id g /\ offer_gameid o2 = game_id g
           /\ offer_owner o1 <> offer_owner o2;
  owner_has_account :
    forall o, In o (offers s) -> find (offer_owner o) (accounts s) <> None;
  counters_exact :
    forall who a, find who (accounts s) = Some a ->
      account_open_offers a = count (owned_open who) (offers s)
      /\ account_open_games a = count (owned_in_game who) (offers s);
  offers_bounded : (List.length (offers s) <= n)%nat;
  game_ids_bounded :
    forall gd, In gd (global_dices s) -> 0 <= global_nextgameid gd <= Z.of_nat n
}.

(** No dereference of an end iterator. *)
Definition no_fault {A} (r : result A) : Prop :=
  forall site, r <> inl (end_iterator site).

(** ** The money the contract holds

    The balances of the accounts, the stakes of the offers that wait, and
    for every game the two stakes it holds. *)

Definition total {T} (f : T -> Z) (t : list T) : Z :=
  fold_right (fun r acc => f r + acc) 0 t.

Definition holdings (s : state) : Z :=
  total (fun a => amount (account_eos_balance a)) (accounts s)
  + total (fun o => amount (offer_bet o)) (offers s)
  + total (fun g => 2 * amount (game_bet g)) (games s).

(** What a call moves into the contract. *)
Definition inflow (a : action) : Z :=
  match a with
  | act_deposit d => amount (deposit_amount d)
  | act_withdraw w => - amount (withdraw_amount w)
  | _ => 0
  end.

(** Account and game records are told apart by their keys. *)
Record ledger_ok (s : state) : Prop := {
  accounts_unique : unique_keys (accounts s);
  games_unique : unique_keys (games s)
}.

(** * Properties *)

#[local] Arguments Z.add : simpl never.
#[local] Arguments Z.sub : simpl never.
#[local] Arguments Z.mul : simpl never.
#[local] Arguments Z.pow : simpl never.
#[local] Arguments Z.modulo : simpl never.
#[local] Arguments Z.ltb : simpl never.
#[local] Arguments Z.leb : simpl never.
#[local] Arguments Z.eqb : simpl never.

(** ** Bytes and checksums *)

Lemma byte_val_range (b : byte) : 0 <= byte_val b < 256.
Proof.
  unfold byte_val. pose proof (Byte.to_N_bounded b). lia.
Qed.

Lemma byte_val_inj (a b : byte) : byte_val a = byte_val b -> a = b.
Proof.
  unfold byte_val. intros E. apply N2Z.inj in E.
  pose proof (Byte.of_to_N a) as Ha. rewrite E, Byte.of_to_N in Ha.
  congruence.
Qed.

Lemma memcmp_eq_spec (a b : list byte) : memcmp_eq a b = true <-> a = b.
Proof.
  revert b. induction a as [|x a IH]; intros [|y b]; simpl; split;
    try congruence; try discriminate.
  - intros [E1 E2]%andb_true_iff. apply Byte.byte_dec_bl in E1.
    apply IH in E2. congruence.
  - intros E. injection E as -> ->. apply andb_true_iff. split.
    + now apply Byte.byte_dec_lb.
    + now apply IH.
Qed.

Lemma octet_bytes_inj (a b : octet) : octet_bytes a = octet_bytes b -> a = b.
Proof.
  destruct a as [[[[[[[a0 a1] a2] a3] a4] a5] a6] a7].
  destruct b as [[[[[[[b0 b1] b2] b3] b4] b5] b6] b7].
  simpl. congruence.
Qed.

Lemma octet_bytes_length (a : octet) : List.length (octet_bytes a) = 8%nat.
Proof.
  now destruct a as [[[[[[[a0 a1] a2] a3] a4] a5] a6] a7].
Qed.

Lemma checksum_bytes_inj (a b : checksum256) :
  checksum_bytes a = checksum_bytes b -> a = b.
Proof.
  destruct a as [a0 a1 a2 a3], b as [b0 b1 b2 b3]. unfold checksum_bytes. simpl.
  repeat match goal with
         | o : octet |- _ => destruct o as [[[[[[[? ?] ?] ?] ?] ?] ?] ?]
         end.
  simpl. congruence.
Qed.

Lemma is_equal_spec (a b : checksum256) : is_equal a b = true <-> a = b.
Proof.
  unfold is_equal. rewrite memcmp_eq_spec. split.
  - apply checksum_bytes_inj.
  - now intros ->.
Qed.

Lemma is_equal_refl (a : checksum256) : is_equal a a = true.
Proof. now apply is_equal_spec. Qed.

Lemma le_value_inj (a b : list byte) :
  List.length a = List.length b -> le_value a = le_value b -> a = b.
Proof.
  revert b. induction a as [|x a IH]; intros [|y b]; simpl; try discriminate; auto.
  intros L E. injection L as L.
  pose proof (byte_val_range x). pose proof (byte_val_range y).
  assert (byte_val x = byte_val y) as Exy by lia.
  assert (le_value a = le_value b) as Eab by lia.
  apply byte_val_inj in Exy. apply IH in Eab; auto. congruence.
Qed.

Lemma le_value_octet_inj (a b : octet) :
  le_value (octet_bytes a) = le_value (octet_bytes b) -> a = b.
Proof.
  intros E. apply octet_bytes_inj, le_value_inj; auto.
  now rewrite !octet_bytes_length.
Qed.

Lemma get_commitment_inj (a b : checksum256) :
  get_commitment a = get_commitment b -> a = b.
Proof.
  destruct a as [a0 a1 a2 a3], b as [b0 b1 b2 b3].
  unfold get_commitment, p64. simpl. intros E. injection E as E0 E1 E2 E3.
  apply le_value_octet_inj in E0, E1, E2, E3. congruence.
Qed.

Lemma key256_eqb_spec (a b : key256) : key256_eqb a b = true <-> a = b.
Proof.
  destruct a as [[[a0 a1] a2] a3], b as [[[b0 b1] b2] b3]. unfold key256_eqb.
  rewrite !andb_true_iff, !Z.eqb_eq. split.
  - intros [[[-> ->] ->] ->]. reflexivity.
  - intros E. injection E as -> -> -> ->. auto.
Qed.

Lemma same_commitment_key (a b : checksum256) :
  key256_eqb (get_commitment a) (get_commitment b) = true <-> a = b.
Proof.
  rewrite key256_eqb_spec. split.
  - apply get_commitment_inj.
  - now intros ->.
Qed.

Lemma is_zero_spec (a : checksum256) : is_zero a = true <-> a = zero256.
Proof.
  unfold is_zero. rewrite !andb_true_iff, !Z.eqb_eq. split.
  - intros [[[E0 E1] E2] E3]. apply get_commitment_inj.
    unfold get_commitment. rewrite E0, E1, E2, E3. reflexivity.
  - intros ->. repeat split; reflexivity.
Qed.

(** ** The abort monad *)

Lemma bind_inr {A B} (m : result A) (k : A -> result B) (b : B) :
  bind m k = inr b -> exists a, m = inr a /\ k a = inr b.
Proof.
  destruct m as [e|a]; simpl; [discriminate|]. intros E. now exists a.
Qed.

Lemma eosio_assert_inr (c : bool) (msg : string) (u : unit) :
  eosio_assert c msg = inr u -> c = true.
Proof. destruct c; simpl; [auto|discriminate]. Qed.

Lemma deref_inr {A} (site : string) (itr : option A) (a : A) :
  deref site itr = inr a -> itr = Some a.
Proof. destruct itr; simpl; intros E; now inversion E. Qed.

(** ** Tables *)

Section TableFacts.
Context {T : Type} {RowT : Row T}.
Implicit Types (t : list T) (r : T) (k : Z).

Lemma has_key_true k r : has_key k r = true <-> primary_key r = k.
Proof. unfold has_key. apply Z.eqb_eq. Qed.

Lemma has_key_false k r : has_key k r = false <-> primary_key r <> k.
Proof. unfold has_key. apply Z.eqb_neq. Qed.

Lemma find_some k t r : find k t = Some r -> In r t /\ primary_key r = k.
Proof.
    unfold find. intros E. apply find_some in E. now rewrite has_key_true in E.
Qed.

Lemma find_none k t r : find k t = None -> In r t -> primary_key r <> k.
Proof.
    unfold find. intros E I. apply has_key_false. now apply (find_none _ _ E).
Qed.

Lemma find_none_iff k t : find k t = None <-> ~ In k (map primary_key t).
Proof.
    split.
    - intros E [r [Er I]]%in_map_iff. now apply (find_none _ E I).
    - intros N. destruct (find k t) as [r|] eqn:E; [|reflexivity].
      apply find_some in E as [I Er]. exfalso. apply N, in_map_iff. eauto.
Qed.

Lemma find_app k t1 t2 :
    find k (t1 ++ t2) = match find k t1 with Some r => Some r | None => find k t2 end.
Proof.
    unfold find. induction t1 as [|a t1 IH]; simpl; [reflexivity|].
    now destruct (has_key k a).
Qed.

Lemma find_replace_same k new t r :
    primary_key new = k -> find k t = Some r -> find k (replace_row k new t) = Some new.
Proof.
    intros Hn. unfold find, replace_row.
    induction t as [|a t IH]; simpl; [discriminate|].
    destruct (has_key k a) eqn:E.
    - intros _. simpl. apply has_key_true in Hn. now rewrite Hn.
    - intros F. simpl. rewrite E. auto.
Qed.

Lemma find_replace_other k k' new t :
    primary_key new = k -> k' <> k -> find k' (replace_row k new t) = find k' t.
Proof.
    intros Hn D. unfold find, replace_row.
    induction t as [|a t IH]; simpl; [reflexivity|].
    destruct (has_key k a) eqn:E.
    - apply has_key_true in E.
      assert (has_key k' new = false) as -> by (apply has_key_false; congruence).
      assert (has_key k' a = false) as -> by (apply has_key_false; congruence).
      exact IH.
    - destruct (has_key k' a); auto.
Qed.

Lemma find_erase_same k t : find k (erase k t) = None.
Proof.
    unfold find, erase. induction t as [|a t IH]; simpl; [reflexivity|].
    destruct (has_key k a) eqn:E; simpl; [exact IH|]. now rewrite E.
Qed.

Lemma find_erase_other k k' t : k' <> k -> find k' (erase k t) = find k' t.
Proof.
    intros D. unfold find, erase. induction t as [|a t IH]; simpl; [reflexivity|].
    destruct (has_key k a) eqn:E; simpl.
    - apply has_key_true in E.
      assert (has_key k' a = false) as -> by (apply has_key_false; congruence).
      exact IH.
    - destruct (has_key k' a); auto.
Qed.

Lemma modify_inr site itr (f : T -> result T) t t' :
    modify site itr f t = inr t' ->
    exists i cur new,
      itr = Some i /\ find (primary_key i) t = Some cur /\ f cur = inr new
      /\ t' = replace_row (primary_key i) new t.
Proof.
    unfold modify. intros E.
    apply bind_inr in E as (i & Ei & E). apply deref_inr in Ei.
    apply bind_inr in E as (cur & Ec & E). apply deref_inr in Ec.
    apply bind_inr in E as (new & En & E). inversion E. eauto 8.
Qed.

Lemma modify_found site i cur (f : T -> result T) t :
    find (primary_key i) t = Some cur ->
    modify site (Some i) f t
    = new <- f cur ;; ok (replace_row (primary_key i) new t).
Proof. unfold modify. simpl. now intros ->. Qed.

Lemma emplace_inr r t t' :
    emplace r t = inr t' -> find (primary_key r) t = None /\ t' = t ++ [r].
Proof.
    unfold emplace. destruct (find (primary_key r) t); [discriminate|].
    intros E. now inversion E.
Qed.
End TableFacts.

Section TableFacts2.
Context {T : Type} {RowT : Row T}.

Lemma modify_find site (k : Z) (cur : T) (f : T -> result T) (t : list T) :
    find k t = Some cur ->
    modify site (find k t) f t = new <- f cur ;; ok (replace_row k new t).
Proof.
    intros E. pose proof (find_some _ _ E) as [_ Ek].
    rewrite E. rewrite (@modify_found _ _ site cur cur); rewrite Ek; auto.
Qed.
End TableFacts2.

(** ** Machine arithmetic *)

Lemma wrap_int64_small (x : Z) : - 2 ^ 63 <= x < 2 ^ 63 -> wrap_int64 x = x.
Proof.
  intros R. unfold wrap_int64. rewrite Z.mod_small; lia.
Qed.

Lemma wrap_small (w x : Z) : 0 <= x < 2 ^ w -> wrap w x = x.
Proof. intros R. unfold wrap. now apply Z.mod_small. Qed.

Lemma is_empty_spec (a : account) :
  is_empty a = true <->
  amount (account_eos_balance a) = 0 /\ account_open_offers a = 0
  /\ account_open_games a = 0.
Proof.
  unfold is_empty. rewrite Z.eqb_eq, !Z.lor_eq_0_iff. tauto.
Qed.

(** ** Settlement *)

(** C6.  Settlement of a game ([pay_and_clean]) credits the winner's account
    with exactly twice the stake, leaves the loser's balance unchanged,
    decrements the [open_games] counter of both accounts by one (a 32-bit
    decrement), deletes the loser's account when it has become empty, and
    erases the game and both offers; every other row is untouched. *)
Theorem pay_and_clean_settles (g : game) (winner_offer loser_offer : offer)
    (s : state) (wa la : account) :
  find (offer_owner winner_offer) (accounts s) = Some wa ->
  find (offer_owner loser_offer) (accounts s) = Some la ->
  offer_owner winner_offer <> offer_owner loser_offer ->
  - 2 ^ 63 <= 2 * amount (game_bet g) < 2 ^ 63 ->
  - 2 ^ 63 <= amount (account_eos_balance wa) + 2 * amount (game_bet g) < 2 ^ 63 ->
  let wa' :=
    {| account_owner := account_owner wa;
       account_eos_balance :=
         {| amount := amount (account_eos_balance wa) + 2 * amount (game_bet g) |};
       account_open_offers := account_open_offers wa;
       account_open_games := wrap 32 (account_open_games wa - 1) |} in
  let la' :=
    {| account_owner := account_owner la;
       account_eos_balance := account_eos_balance la;
       account_open_offers := account_open_offers la;
       account_open_games := wrap 32 (account_open_games la - 1) |} in
  exists s',
    pay_and_clean g winner_offer loser_offer s = inr s'
    /\ find (offer_owner winner_offer) (accounts s') = Some wa'
    /\ find (offer_owner loser_offer) (accounts s')
       = (if is_empty la' then None else Some la')
    /\ (forall k, k <> offer_owner winner_offer -> k <> offer_owner loser_offer ->
        find k (accounts s') = find k (accounts s))
    /\ find (game_id g) (games s') = None
    /\ (forall k, k <> game_id g -> find k (games s') = find k (games s))
    /\ find (offer_id winner_offer) (offers s') = None
    /\ find (offer_id loser_offer) (offers s') = None
    /\ (forall k, k <> offer_id winner_offer -> k <> offer_id loser_offer ->
        find k (offers s') = find k (offers s))
    /\ global_dices s' = global_dices s.
Proof.
  intros Hw Hl D R2 Rb wa' la'.
  pose proof (find_some _ _ Hw) as [_ Kw].
  pose proof (find_some _ _ Hl) as [_ Kl].
  change (primary_key wa) with (account_owner wa) in Kw.
  change (primary_key la) with (account_owner la) in Kl.
  unfold pay_and_clean, credit_winner, close_game.
  rewrite (@modify_find _ _ _ _ _ _ _ Hw). cbn [bind ok].
  rewrite (wrap_int64_small R2), (wrap_int64_small Rb). fold wa'.
  assert (find (offer_owner loser_offer)
            (replace_row (offer_owner winner_offer) wa' (accounts s)) = Some la) as Hl1.
  { rewrite find_replace_other; auto. }
  rewrite (@modify_find _ _ _ _ _ _ _ Hl1). cbn [bind ok]. fold la'.
  assert (find (offer_owner loser_offer)
            (replace_row (offer_owner loser_offer) la'
               (replace_row (offer_owner winner_offer) wa' (accounts s))) = Some la')
    as Hl2.
  { eapply find_replace_same; eauto. }
  rewrite Hl2. cbn [deref bind ok].
  change (primary_key la') with (account_owner la). rewrite Kl.
  eexists. split; [reflexivity|]. cbn [accounts games offers global_dices].
  change (primary_key winner_offer) with (offer_id winner_offer).
  change (primary_key loser_offer) with (offer_id loser_offer).
  change (primary_key g) with (game_id g).
  repeat split.
  - destruct (is_empty la').
    + rewrite find_erase_other by auto. rewrite find_replace_other by auto.
      eapply find_replace_same; eauto.
    + rewrite find_replace_other by auto. eapply find_replace_same; eauto.
  - destruct (is_empty la'); [apply find_erase_same|exact Hl2].
  - intros k Dw Dl. destruct (is_empty la').
    + rewrite find_erase_other by auto. now rewrite !find_replace_other by auto.
    + now rewrite !find_replace_other by auto.
  - apply find_erase_same.
  - intros k Dk. now apply find_erase_other.
  - destruct (Z.eq_dec (offer_id winner_offer) (offer_id loser_offer)) as [E|N].
    + rewrite E. apply find_erase_same.
    + rewrite find_erase_other by auto. apply find_erase_same.
  - apply find_erase_same.
  - intros k Dw Dl. now rewrite !find_erase_other by auto.
Qed.

(** ** Indices: the least row of an order *)

Section LeastFacts.
Context {T : Type} {RowT : Row T}.
Implicit Types (t : list T).

Lemma least_in lt t m : least lt t = Some m -> In m t.
Proof.
    revert m. induction t as [|r t IH]; simpl; [discriminate|].
    intros m. destruct (least lt t) as [m'|].
    - destruct (lt m' r); intros E; inversion E; subst; auto.
    - intros E. inversion E. auto.
Qed.

Lemma least_none lt t : least lt t = None -> t = [].
Proof.
    destruct t as [|r t]; simpl; [reflexivity|].
    destruct (least lt t) as [m'|]; [destruct (lt m' r)|]; discriminate.
Qed.

Lemma least_some lt t r : In r t -> exists m, least lt t = Some m.
Proof.
    intros I. destruct (least lt t) as [m|] eqn:E; [eauto|].
    apply least_none in E. subst. contradiction.
Qed.

  (** For an order that is asymmetric and negatively transitive, nothing
      in the table is below the least row. *)
Lemma least_minimal (lt : T -> T -> bool) t m :
    (forall a b, lt a b = true -> lt b a = false) ->
    (forall a b c, lt a b = false -> lt b c = false -> lt a c = false) ->
    least lt t = Some m -> forall r, In r t -> lt r m = false.
Proof.
    intros Asym Ntr. revert m. induction t as [|x t IH]; simpl; [discriminate|].
    intros m E r I. destruct (least lt t) as [m'|] eqn:L.
    - destruct (lt m' x) eqn:C; inversion E; subst; clear E.
      + destruct I as [->|I]; [now apply Asym|now apply IH].
      + destruct I as [->|I].
        * destruct (lt r r) eqn:R; [|reflexivity]. apply Asym in R as R'. congruence.
        * apply Ntr with m'; [now apply IH|exact C].
    - inversion E; subst; clear E. apply least_none in L. subst.
      destruct I as [->|[]].
      destruct (lt r r) eqn:R; [|reflexivity]. apply Asym in R as R'. congruence.
Qed.

Lemma index_lt_asym (sk : T -> Z) a b :
    index_lt sk a b = true -> index_lt sk b a = false.
Proof.
    unfold index_lt, pk_lt. intros H.
    destruct (Z.ltb_spec (sk a) (sk b)), (Z.ltb_spec (sk b) (sk a)),
      (Z.eqb_spec (sk a) (sk b)), (Z.eqb_spec (sk b) (sk a)),
      (Z.ltb_spec (primary_key a) (primary_key b)),
      (Z.ltb_spec (primary_key b) (primary_key a));
      simpl in *; try reflexivity; try discriminate; lia.
Qed.

Lemma index_lt_ntrans (sk : T -> Z) a b c :
    index_lt sk a b = false -> index_lt sk b c = false -> index_lt sk a c = false.
Proof.
    unfold index_lt, pk_lt. intros H1 H2.
    destruct (Z.ltb_spec (sk a) (sk b)), (Z.ltb_spec (sk b) (sk c)),
      (Z.ltb_spec (sk a) (sk c)),
      (Z.eqb_spec (sk a) (sk b)), (Z.eqb_spec (sk b) (sk c)),
      (Z.eqb_spec (sk a) (sk c)),
      (Z.ltb_spec (primary_key a) (primary_key b)),
      (Z.ltb_spec (primary_key b) (primary_key c)),
      (Z.ltb_spec (primary_key a) (primary_key c));
      simpl in *; try reflexivity; try discriminate; lia.
Qed.

Lemma lower_bound_in (sk : T -> Z) x t m :
    lower_bound sk x t = Some m -> In m t /\ x <= sk m.
Proof.
    unfold lower_bound. intros E. apply least_in, filter_In in E.
    now rewrite Z.leb_le in E.
Qed.

  (** The lower bound is the first row, by key and then by primary key,
      among the rows whose key is at least [x]. *)
Lemma lower_bound_first (sk : T -> Z) x t m r :
    lower_bound sk x t = Some m -> In r t -> x <= sk r ->
    sk m < sk r \/ (sk m = sk r /\ primary_key m <= primary_key r).
Proof.
    unfold lower_bound. intros E I X.
    assert (index_lt sk r m = false) as N.
    { eapply least_minimal; eauto using index_lt_asym, index_lt_ntrans.
      apply filter_In. split; [exact I|now apply Z.leb_le]. }
    unfold index_lt, pk_lt in N.
    destruct (Z.ltb_spec (sk r) (sk m)), (Z.eqb_spec (sk r) (sk m)),
      (Z.ltb_spec (primary_key r) (primary_key m));
      simpl in *; try discriminate; lia.
Qed.

Lemma find_key256_some (sk : T -> key256) k t m :
    find_key256 sk k t = Some m -> In m t /\ sk m = k.
Proof.
    unfold find_key256. intros E. apply least_in, filter_In in E.
    now rewrite key256_eqb_spec in E.
Qed.

Lemma find_key256_none (sk : T -> key256) k t r :
    find_key256 sk k t = None -> In r t -> sk r <> k.
Proof.
    unfold find_key256. intros E I Ek. apply least_none in E.
    assert (In r (filter (fun r => key256_eqb (sk r) k) t)) as F.
    { apply filter_In. split; [exact I|now apply key256_eqb_spec]. }
    rewrite E in F. contradiction.
Qed.
End LeastFacts.

Section UniqueKeys.
Context {T : Type} {RowT : Row T}.

Lemma find_unique (t : list T) (r : T) :
    unique_keys t -> In r t -> find (primary_key r) t = Some r.
Proof.
    unfold unique_keys, find. induction t as [|a t IH]; simpl; [contradiction|].
    intros U I. inversion U as [|? ? Na Ut]; subst.
    destruct (has_key (primary_key r) a) eqn:E.
    - destruct I as [->|I]; [reflexivity|]. apply has_key_true in E.
      exfalso. apply Na. rewrite E. now apply in_map.
    - destruct I as [->|I]; [|now apply IH].
      apply has_key_false in E. congruence.
Qed.

Lemma unique_keys_app_fresh (t : list T) (r : T) :
    unique_keys t -> find (primary_key r) t = None -> unique_keys (t ++ [r]).
Proof.
    unfold unique_keys. intros U F. rewrite map_app. simpl.
    apply NoDup_app; [exact U|repeat constructor; intros []|].
    intros k Ik [<-|[]]. now apply find_none_iff in F.
Qed.
End UniqueKeys.

(** ** Matching *)

(** The lower bound taken for a new offer that is already stored: the
    offer of the same stake with the smallest id. *)
Lemma lower_bound_equal_stake (new_row : offer) (t : list offer) :
  In new_row t ->
  (forall r, In r t -> 0 <= amount (offer_bet r) < 2 ^ 64) ->
  exists c,
    lower_bound by_bet (wrap 64 (amount (offer_bet new_row))) t = Some c
    /\ In c t
    /\ amount (offer_bet c) = amount (offer_bet new_row)
    /\ (forall r, In r t -> amount (offer_bet r) = amount (offer_bet new_row) ->
        offer_id c <= offer_id r).
Proof.
  intros Inew Range.
  assert (forall r, In r t -> by_bet r = amount (offer_bet r)) as Key.
  { intros r I. unfold by_bet. apply wrap_small. auto. }
  change (wrap 64 (amount (offer_bet new_row))) with (by_bet new_row).
  destruct (lower_bound by_bet (by_bet new_row) t) as [c|] eqn:L.
  - pose proof (lower_bound_in _ _ _ L) as [Ic Xc].
    pose proof (lower_bound_first _ _ _ L Inew (Z.le_refl _)) as First.
    assert (amount (offer_bet c) = amount (offer_bet new_row)) as Ec.
    { rewrite <- (Key _ Ic), <- (Key _ Inew). lia. }
    exists c. repeat split; auto.
    intros r Ir Er.
    assert (by_bet new_row <= by_bet r) as Xr.
    { rewrite (Key _ Ir), (Key _ Inew). lia. }
    pose proof (lower_bound_first _ _ _ L Ir Xr) as [Lt|[_ Le]]; [|exact Le].
    rewrite (Key _ Ic), (Key _ Ir) in Lt. lia.
  - exfalso. unfold lower_bound in L. apply least_none in L.
    assert (In new_row (filter (fun r => by_bet new_row <=? by_bet r) t)) as F.
    { apply filter_In. split; [exact Inew|apply Z.leb_refl]. }
    rewrite L in F. contradiction.
Qed.

(** On any table, the search for a match looks at one offer
    only: the offer with the smallest id among the stored offers whose
    stake equals the new offer's stake, the new offer itself included.
    That offer is the match when its owner differs from the placing owner;
    otherwise nothing is matched, whatever other offers of that stake the
    book holds. *)
Theorem match_offer_lowest_id (new_row : offer) (book : list offer) :
  In new_row book ->
  (forall r, In r book -> 0 <= amount (offer_bet r) < 2 ^ 64) ->
  exists c,
    In c book
    /\ amount (offer_bet c) = amount (offer_bet new_row)
    /\ (forall r, In r book -> amount (offer_bet r) = amount (offer_bet new_row) ->
        offer_id c <= offer_id r)
    /\ match_offer new_row book
       = (if offer_owner c =? offer_owner new_row then None else Some c).
Proof.
  intros Inew Range.
  destruct (lower_bound_equal_stake new_row book Inew Range)
    as (c & L & Ic & Ec & Least).
  exists c. split; [exact Ic|]. split; [exact Ec|]. split; [exact Least|].
  unfold match_offer. rewrite L, Ec, Z.eqb_refl. reflexivity.
Qed.

Lemma is_some_true {A} (o : option A) : is_some o = true -> exists a, o = Some a.
Proof. destruct o; simpl; [eauto|discriminate]. Qed.

Lemma token_sub_inr (a b : Z) (r : asset) :
  token_sub a b = inr r -> b <= a /\ r = {| amount := a - b |}.
Proof.
  unfold token_sub. destruct (Z.ltb_spec a b); [discriminate|].
  intros E. inversion E. auto.
Qed.

Lemma match_offer_some (new_row m : offer) (book : list offer) :
  match_offer new_row book = Some m ->
  In m book /\ amount (offer_bet m) = amount (offer_bet new_row)
  /\ offer_owner m <> offer_owner new_row.
Proof.
  unfold match_offer.
  destruct (lower_bound by_bet _ book) as [c|] eqn:L; [|discriminate].
  destruct (Z.eqb_spec (amount (offer_bet c)) (amount (offer_bet new_row)));
    simpl; [|discriminate].
  destruct (Z.eqb_spec (offer_owner c) (offer_owner new_row)); [discriminate|].
  intros E. inversion E; subst. apply lower_bound_in in L as [I _]. auto.
Qed.

Section Offerbet.

  (** C5 (as the code has it).  When a newly placed offer is matched, the
      call debits the placing owner's balance by the stake and increments
      that owner's [open_games]; for the matched owner it decrements
      [open_offers] and increments [open_games] and leaves the balance as it
      is (that balance was debited when the matched offer was placed).  It
      appends a new game holding the stake, deadline 0, the matched offer's
      commitment in player1, the new offer's in player2 and zero reveals,
      and rewrites both offers to stake 0 and the new game's id. *)
Theorem offerbet_matched (ctx : context) (new_offer : offerbet) (s s' : state)
      (matched : offer) :
    let new_row :=
      {| offer_id := available_primary_key (offers s);
         offer_owner := offerbet_player new_offer;
         offer_bet := offerbet_bet new_offer;
         offer_commitment := offerbet_commitment new_offer;
         offer_gameid := 0 |} in
    unique_keys (offers s) ->
    on_offerbet ctx new_offer s = inr s' ->
    match_offer new_row (offers s ++ [new_row]) = Some matched ->
    exists (pa ma : account) (gid : Z),
      find (offerbet_player new_offer) (accounts s) = Some pa
      /\ find (offer_owner matched) (accounts s) = Some ma
      /\ find (offerbet_player new_offer) (accounts s')
         = Some {| account_owner := account_owner pa;
                   account_eos_balance :=
                     {| amount := amount (account_eos_balance pa)
                                  - amount (offerbet_bet new_offer) |};
                   account_open_offers := account_open_offers pa;
                   account_open_games := wrap 32 (account_open_games pa + 1) |}
      /\ find (offer_owner matched) (accounts s')
         = Some {| account_owner := account_owner ma;
                   account_eos_balance := account_eos_balance ma;
                   account_open_offers := wrap 32 (account_open_offers ma - 1);
                   account_open_games := wrap 32 (account_open_games ma + 1) |}
      /\ games s'
         = games s ++
           [{| game_id := gid;
               game_bet := offerbet_bet new_offer;
               game_deadline := 0;
               game_player1 := {| player_commitment := offer_commitment matched;
                                  player_reveal := zero256 |};
               game_player2 := {| player_commitment := offerbet_commitment new_offer;
                                  player_reveal := zero256 |} |}]
      /\ find (offer_id matched) (offers s')
         = Some {| offer_id := offer_id matched;
                   offer_owner := offer_owner matched;
                   offer_bet := {| amount := 0 |};
                   offer_commitment := offer_commitment matched;
                   offer_gameid := gid |}
      /\ find (offer_id new_row) (offers s')
         = Some {| offer_id := offer_id new_row;
                   offer_owner := offerbet_player new_offer;
                   offer_bet := {| amount := 0 |};
                   offer_commitment := offerbet_commitment new_offer;
                   offer_gameid := gid |}.
Proof.
    intros new_row U H M.
    unfold on_offerbet in H. cbv zeta in H. fold new_row in H.
    apply bind_inr in H as (? & _ & H).
    apply bind_inr in H as (? & _ & H).
    apply bind_inr in H as (? & _ & H).
    apply bind_inr in H as (? & A & H).
    apply eosio_assert_inr, is_some_true in A as [pa Hpa].
    apply bind_inr in H as (offers1 & E & H).
    apply emplace_inr in E as [Fresh ->].
    rewrite M in H.
    pose proof (match_offer_some _ _ M) as (Im & _ & Dm).
    change (offer_owner new_row) with (offerbet_player new_offer) in Dm.
    pose proof (unique_keys_app_fresh new_row U Fresh) as U1.
    assert (offer_id matched <> offer_id new_row) as Did.
    { apply in_app_or in Im as [I|[E|[]]].
      - intros E. eapply find_none in I; eauto.
      - exfalso. apply Dm. now rewrite <- E. }
    apply bind_inr in H as (gd1 & _ & H).
    apply bind_inr in H as (gd2 & _ & H).
    apply bind_inr in H as (gkey & _ & H).
    apply bind_inr in H as (gdice & _ & H).
    apply bind_inr in H as (games1 & Eg & H).
    apply emplace_inr in Eg as [_ ->].
    apply bind_inr in H as (offers2 & E2 & H).
    apply modify_inr in E2 as (i & cur & new & Ei & Ec & En & ->).
    inversion Ei; subst i; clear Ei.
    rewrite (find_unique _ U1 Im) in Ec. inversion Ec; subst cur; clear Ec.
    inversion En; subst new; clear En.
    apply bind_inr in H as (offers3 & E3 & H).
    apply modify_inr in E3 as (i & cur & new & Ei & Ec & En & ->).
    inversion Ei; subst i; clear Ei.
    assert (find (primary_key new_row) (offers s ++ [new_row]) = Some new_row) as Fn.
    { apply find_unique; auto. apply in_or_app. right. now left. }
    rewrite find_replace_other in Ec;
      [|reflexivity|intros E; apply Did; symmetry; exact E].
    rewrite Fn in Ec. inversion Ec; subst cur; clear Ec.
    inversion En; subst new; clear En.
    apply bind_inr in H as (accounts1 & E4 & H).
    apply modify_inr in E4 as (ma & cur & new & Ei & Ec & En & ->).
    pose proof (find_some _ _ Ei) as [_ Kma].
    rewrite Kma in Ec, H. rewrite Ei in Ec. inversion Ec; subst cur; clear Ec.
    inversion En; subst new; clear En.
    apply bind_inr in H as (accounts2 & E5 & H).
    rewrite Hpa in E5.
    apply modify_inr in E5 as (i & cur & new & Ep & Ec & En & ->).
    inversion Ep; subst i; clear Ep.
    pose proof (find_some _ _ Hpa) as [_ Kpa].
    rewrite Kpa in Ec, H.
    assert (offerbet_player new_offer <> offer_owner matched) as Dm' by congruence.
    rewrite find_replace_other in Ec; [|exact Kma|exact Dm'].
    rewrite Hpa in Ec. inversion Ec; subst cur; clear Ec.
    apply bind_inr in En as (bal & Eb & En).
    apply token_sub_inr in Eb as [_ ->]. inversion En; subst new; clear En.
    inversion H; subst s'; clear H. cbn [accounts games offers].
    exists pa, ma, (global_nextgameid gdice).
    change (primary_key matched) with (offer_id matched) in *.
    change (primary_key new_row) with (offer_id new_row) in *.
    assert (offer_id new_row <> offer_id matched) as Did' by congruence.
    repeat split; auto.
    - eapply find_replace_same; [exact Kpa|].
      rewrite find_replace_other; [exact Hpa|exact Kma|exact Dm'].
    - rewrite find_replace_other; [|exact Kpa|exact Dm].
      eapply find_replace_same; [exact Kma|exact Ei].
    - rewrite find_replace_other; [|reflexivity|exact Did].
      eapply find_replace_same; [reflexivity|]. now apply find_unique.
    - eapply find_replace_same; [reflexivity|].
      rewrite find_replace_other; [exact Fn|reflexivity|exact Did'].
Qed.
End Offerbet.

Section Atomicity.
Variable DiceAccount : account_name.
Variable sha256 : list byte -> checksum256.

Lemma offerbet_needs_balance (ctx : context) (new_offer : offerbet) (s s' : state)
    (a : account) :
  find (offerbet_player new_offer) (accounts s) = Some a ->
  on_offerbet ctx new_offer s = inr s' ->
  amount (offerbet_bet new_offer) <= amount (account_eos_balance a).
Proof.
  intros Ha H. unfold on_offerbet in H. cbv zeta in H.
  apply bind_inr in H as (? & _ & H).
  apply bind_inr in H as (? & _ & H).
  apply bind_inr in H as (? & _ & H).
  apply bind_inr in H as (? & _ & H).
  apply bind_inr in H as (offers1 & _ & H).
  pose proof (find_some _ _ Ha) as [_ Ka].
  destruct (match_offer _ offers1) as [matched|] eqn:M.
  - apply match_offer_some in M as (_ & _ & Dm). cbn [offer_owner] in Dm.
    apply bind_inr in H as (gd1 & _ & H).
    apply bind_inr in H as (gd2 & _ & H).
    apply bind_inr in H as (gkey & _ & H).
    apply bind_inr in H as (gdice & _ & H).
    apply bind_inr in H as (games1 & _ & H).
    apply bind_inr in H as (offers2 & _ & H).
    apply bind_inr in H as (offers3 & _ & H).
    apply bind_inr in H as (accounts1 & E4 & H).
    apply modify_inr in E4 as (ma & cur & new & Ei & Ec & En & ->).
    pose proof (find_some _ _ Ei) as [_ Kma].
    rewrite Kma, Ei in Ec. inversion Ec; subst cur; clear Ec.
    inversion En; subst new; clear En.
    apply bind_inr in H as (accounts2 & E5 & _).
    rewrite Ha in E5.
    apply modify_inr in E5 as (i & cur' & new & Ep & Ec' & En & _).
    inversion Ep; subst i; clear Ep.
    rewrite Ka, Kma in Ec'.
    rewrite find_replace_other in Ec'; [|exact Kma|congruence].
    rewrite Ha in Ec'. inversion Ec'; subst cur'; clear Ec'.
    apply bind_inr in En as (bal & Eb & _).
    now apply token_sub_inr in Eb as [Le _].
  - apply bind_inr in H as (accounts1 & E5 & _).
    rewrite Ha in E5.
    apply modify_inr in E5 as (i & cur' & new & Ep & Ec' & En & _).
    inversion Ep; subst i; clear Ep.
    rewrite Ka, Ha in Ec'. inversion Ec'; subst cur'; clear Ec'.
    apply bind_inr in En as (bal & Eb & _).
    now apply token_sub_inr in Eb as [Le _].
Qed.

(** C10.  For every account and every stake strictly greater than that
    account's balance, an [offerbet] call by that owner for that stake
    aborts, and the tables after the call are the tables before it: no
    offer is inserted, although the offer row is emplaced before the
    balance is debited. *)
Theorem offerbet_insufficient_balance (ctx : context) (new_offer : offerbet)
    (s : state) (a : account) :
  find (offerbet_player new_offer) (accounts s) = Some a ->
  amount (account_eos_balance a) < amount (offerbet_bet new_offer) ->
  (exists e, on_offerbet ctx new_offer s = inl e)
  /\ execute DiceAccount sha256 ctx (act_offerbet new_offer) s = s.
Proof.
  intros Ha Lt. unfold execute, apply.
  destruct (on_offerbet ctx new_offer s) as [e|s'] eqn:E.
  - split; [now exists e|reflexivity].
  - pose proof (offerbet_needs_balance _ _ _ Ha E). lia.
Qed.
End Atomicity.

(** ** Reveal *)

Section Reveal.
Variable sha256 : list byte -> checksum256.

(** C1 (as the code has it).  When a reveal finds the other slot already
    revealed, the digest is taken over the two slots of the stored game and
    the winner is chosen between the two revealers, not between the two
    slots: if byte 1 of the digest is less than byte 0 the player who
    revealed first wins, otherwise the player making this second reveal
    wins. *)
Theorem reveal_resolves_by_reveal_order (ctx : context) (reveal_info : reveal)
    (s : state) (curr_offer prev_offer : offer) (g : game) :
  let c := reveal_commitment reveal_info in
  let mine_is_1 := is_equal (player_commitment (game_player1 g)) c in
  let curr_reveal := if mine_is_1 then game_player1 g else game_player2 g in
  let prev_reveal := if mine_is_1 then game_player2 g else game_player1 g in
  let digest := outcome_digest sha256 g in
  sha256 (checksum_bytes (reveal_source reveal_info)) = c ->
  find_key256 by_commitment (get_commitment c) (offers s) = Some curr_offer ->
  0 < offer_gameid curr_offer ->
  find (offer_gameid curr_offer) (games s) = Some g ->
  is_zero (player_reveal curr_reveal) = true ->
  is_zero (player_reveal prev_reveal) = false ->
  find_key256 by_commitment (get_commitment (player_commitment prev_reveal))
    (offers s) = Some prev_offer ->
  on_reveal sha256 ctx reveal_info s
  = if hash digest 1 <? hash digest 0
    then pay_and_clean g prev_offer curr_offer s
    else pay_and_clean g curr_offer prev_offer s.
Proof.
  intros c mine_is_1 curr_reveal prev_reveal digest Hh Hc Hg Hf Zc Zp Hp.
  unfold on_reveal, assert_sha256. fold c. rewrite Hh, is_equal_refl.
  cbn [bind ok]. rewrite Hc. cbn [is_some eosio_assert bind ok deref].
  apply Z.ltb_lt in Hg. rewrite Hg. cbn [eosio_assert bind ok].
  rewrite Hf. cbn [deref bind ok].
  fold mine_is_1. subst curr_reveal prev_reveal.
  destruct mine_is_1; cbn [negb] in *;
    rewrite Zc, Zp; cbn [eosio_assert bind ok negb];
    rewrite Hp; cbn [deref bind ok]; fold digest;
    destruct (hash digest 1 <? hash digest 0); reflexivity.
Qed.
End Reveal.

(** ** Runs and reachability *)

Lemma run_reachable (DiceAccount : account_name) (sha256 : list byte -> checksum256)
    (calls : list (context * action)) (n : nat) (s s' : state) :
  reachable_in DiceAccount sha256 n s ->
  run DiceAccount sha256 calls s = inr s' ->
  reachable_in DiceAccount sha256 (n + List.length calls) s'.
Proof.
  revert n s. induction calls as [|[ctx a] calls IH]; intros n s R E.
  - inversion E; subst. now rewrite Nat.add_0_r.
  - cbn [run] in E. apply bind_inr in E as (s1 & E1 & E).
    cbn [List.length]. rewrite Nat.add_succ_r.
    apply (IH (S n) s1); [|exact E]. econstructor; eauto.
Qed.

Lemma run_reachable_from_start (DiceAccount : account_name)
    (sha256 : list byte -> checksum256) (calls : list (context * action))
    (s : state) :
  run DiceAccount sha256 calls initial_state = inr s ->
  reachable DiceAccount sha256 s.
Proof.
  intros E. exists (0 + List.length calls)%nat.
  eapply run_reachable; [constructor|exact E].
Qed.

(** ** More on tables: rows, keys and counts *)

Section TableFacts3.
Context {T : Type} {RowT : Row T}.
Implicit Types (t : list T) (r : T) (k : Z).

Lemma map_pk_replace_row k new t :
  primary_key new = k -> map primary_key (replace_row k new t) = map primary_key t.
Proof.
  intros Hn. unfold replace_row. rewrite map_map. apply map_ext_in.
  intros r _. destruct (has_key k r) eqn:E; [|reflexivity].
  apply has_key_true in E. congruence.
Qed.

Lemma unique_keys_replace_row k new t :
  primary_key new = k -> unique_keys t -> unique_keys (replace_row k new t).
Proof. unfold unique_keys. intros Hn U. now rewrite map_pk_replace_row. Qed.

Lemma same_key_same_row t r r' :
  unique_keys t -> In r t -> In r' t -> primary_key r = primary_key r' -> r = r'.
Proof.
  intros U I I' E. pose proof (find_unique _ U I) as F.
  pose proof (find_unique _ U I') as F'. rewrite E in F. congruence.
Qed.

Lemma map_replace_row {B} (f : T -> B) k new cur t :
  unique_keys t -> find k t = Some cur -> f new = f cur ->
  map f (replace_row k new t) = map f t.
Proof.
  intros U F E. unfold replace_row. rewrite map_map. apply map_ext_in.
  intros r I. destruct (has_key k r) eqn:H; [|reflexivity].
  apply has_key_true in H. apply find_some in F as [Ic Kc].
  rewrite E. f_equal. apply (same_key_same_row U); auto. congruence.
Qed.

Lemma in_replace_row k new t x :
  In x (replace_row k new t) -> x = new \/ (In x t /\ primary_key x <> k).
Proof.
  unfold replace_row. intros [r [E I]]%in_map_iff.
  destruct (has_key k r) eqn:H; [now left|]. subst x.
  right. split; [exact I|now apply has_key_false].
Qed.

Lemma in_replace_row_new k new cur t :
  find k t = Some cur -> In new (replace_row k new t).
Proof.
  intros [I K]%find_some. unfold replace_row. apply in_map_iff.
  exists cur. split; [|exact I]. apply has_key_true in K. now rewrite K.
Qed.

Lemma in_replace_row_other k new t x :
  In x t -> primary_key x <> k -> In x (replace_row k new t).
Proof.
  intros I D. unfold replace_row. apply in_map_iff.
  exists x. split; [|exact I]. apply has_key_false in D. now rewrite D.
Qed.

Lemma in_erase k t x : In x (erase k t) <-> In x t /\ primary_key x <> k.
Proof.
  unfold erase. rewrite filter_In, negb_true_iff, has_key_false. tauto.
Qed.

Lemma NoDup_map_filter {B} (f : T -> B) (p : T -> bool) t :
  NoDup (map f t) -> NoDup (map f (filter p t)).
Proof.
  induction t as [|a t IH]; simpl; [auto|].
  intros N. inversion N as [|? ? Na Nt]; subst.
  destruct (p a); simpl; [|auto]. constructor; [|auto].
  intros [r [E I]]%in_map_iff. apply filter_In in I as [I _].
  apply Na. rewrite <- E. now apply in_map.
Qed.

Lemma unique_keys_erase k t : unique_keys t -> unique_keys (erase k t).
Proof. apply NoDup_map_filter. Qed.

Lemma length_replace_row k new t :
  List.length (replace_row k new t) = List.length t.
Proof. unfold replace_row. apply length_map. Qed.

Lemma length_erase k t : (List.length (erase k t) <= List.length t)%nat.
Proof. unfold erase. apply filter_length_le. Qed.

Lemma find_not_none k t r : In r t -> primary_key r = k -> find k t <> None.
Proof. intros I K F. now apply (find_none _ _ F I). Qed.

(** *** Counting rows *)

Lemma count_range (p : T -> bool) t : 0 <= count p t <= Z.of_nat (List.length t).
Proof.
  unfold count. pose proof (filter_length_le p t). lia.
Qed.

Lemma count_app (p : T -> bool) t1 t2 : count p (t1 ++ t2) = count p t1 + count p t2.
Proof. unfold count. rewrite filter_app, length_app. lia. Qed.

Lemma count_cons (p : T -> bool) r t : count p (r :: t) = Z.b2z (p r) + count p t.
Proof.
  unfold count. simpl. destruct (p r); simpl Z.b2z; cbn [List.length]; lia.
Qed.

Lemma count_zero (p : T -> bool) t r : count p t = 0 -> In r t -> p r = false.
Proof.
  unfold count. intros Z I. destruct (p r) eqn:E; [|reflexivity].
  assert (In r (filter p t)) as F by (apply filter_In; auto).
  destruct (filter p t); [contradiction|]. simpl in Z. lia.
Qed.

Lemma count_erase (p : T -> bool) k cur t :
  unique_keys t -> find k t = Some cur ->
  count p (erase k t) = count p t - Z.b2z (p cur).
Proof.
  unfold unique_keys, find, erase.
  induction t as [|a t IH]; simpl; [discriminate|].
  intros U F. inversion U as [|? ? Na Ut]; subst.
  destruct (has_key k a) eqn:H; simpl.
  - inversion F; subst a; clear F. rewrite count_cons.
    assert (filter (fun r => negb (has_key k r)) t = t) as ->; [|lia].
    apply forallb_filter_id, forallb_forall. intros r I.
    apply negb_true_iff, has_key_false. apply has_key_true in H. intros E.
    apply Na. rewrite H, <- E. now apply in_map.
  - rewrite !count_cons. rewrite IH; auto. lia.
Qed.

Lemma count_erase_absent (p : T -> bool) k t :
  find k t = None -> count p (erase k t) = count p t.
Proof.
  intros F. unfold erase.
  assert (filter (fun r => negb (has_key k r)) t = t) as ->; [|reflexivity].
  apply forallb_filter_id, forallb_forall. intros r I.
  apply negb_true_iff, has_key_false. now apply (find_none _ _ F I).
Qed.

Lemma count_replace_row (p : T -> bool) k new cur t :
  unique_keys t -> find k t = Some cur ->
  count p (replace_row k new t) = count p t - Z.b2z (p cur) + Z.b2z (p new).
Proof.
  unfold unique_keys, find, replace_row.
  induction t as [|a t IH]; simpl; [discriminate|].
  intros U F. inversion U as [|? ? Na Ut]; subst.
  destruct (has_key k a) eqn:H.
  - inversion F; subst a; clear F. rewrite !count_cons.
    assert (map (fun r => if has_key k r then new else r) t = t) as ->; [|lia].
    rewrite <- (map_id t) at 2. apply map_ext_in. intros r I.
    destruct (has_key k r) eqn:Hr; [|reflexivity].
    apply has_key_true in H, Hr. exfalso. apply Na. rewrite H, <- Hr.
    now apply in_map.
  - rewrite !count_cons. rewrite IH; auto. lia.
Qed.
End TableFacts3.

(** ** What a successful call does to the tables *)

Lemma modify_find_inr {T} {RowT : Row T} site (k : Z) (f : T -> result T)
    (t t' : list T) :
  modify site (find k t) f t = inr t' ->
  exists cur new, find k t = Some cur /\ f cur = inr new /\ t' = replace_row k new t.
Proof.
  intros E. apply modify_inr in E as (i & cur & new & Ei & Ec & En & ->).
  pose proof (find_some _ _ Ei) as [_ K]. rewrite K in *.
  rewrite Ei in Ec. inversion Ec; subst. eauto.
Qed.

Lemma ok_inr {A} (a b : A) : ok a = inr b -> a = b.
Proof. intros E. now inversion E. Qed.

Lemma pay_and_clean_inr (g : game) (w l : offer) (s s' : state) :
  pay_and_clean g w l s = inr s' ->
  exists wa la,
    find (offer_owner w) (accounts s) = Some wa
    /\ find (offer_owner l)
         (replace_row (offer_owner w) (credit_winner g wa) (accounts s)) = Some la
    /\ s' = {| offers := erase (offer_id l) (erase (offer_id w) (offers s));
               games := erase (game_id g) (games s);
               global_dices := global_dices s;
               accounts :=
                 let accounts2 :=
                   replace_row (offer_owner l) (close_game la)
                     (replace_row (offer_owner w) (credit_winner g wa) (accounts s)) in
                 if is_empty (close_game la)
                 then erase (offer_owner l) accounts2 else accounts2 |}.
Proof.
  unfold pay_and_clean. intros H.
  apply bind_inr in H as (accounts1 & E1 & H).
  apply modify_find_inr in E1 as (wa & wa' & Fw & Ew & ->).
  apply ok_inr in Ew. subst wa'.
  apply bind_inr in H as (accounts2 & E2 & H).
  apply modify_find_inr in E2 as (la & la' & Fl & El & ->).
  apply ok_inr in El. subst la'.
  apply bind_inr in H as (loser & E3 & H). apply deref_inr in E3.
  pose proof (find_some _ _ Fl) as [_ Kl].
  erewrite find_replace_same in E3; [|exact Kl|exact Fl].
  inversion E3; subst loser; clear E3.
  apply ok_inr in H. subst s'.
  exists wa, la. repeat split; auto.
  change (primary_key (close_game la)) with (primary_key la). now rewrite Kl.
Qed.

Lemma on_canceloffer_inr (ctx : context) (c : canceloffer) (s s' : state) :
  on_canceloffer ctx c s = inr s' ->
  exists o acnt,
    find_key256 by_commitment (get_commitment (canceloffer_commitment c)) (offers s)
    = Some o
    /\ offer_gameid o = 0
    /\ find (offer_owner o) (accounts s) = Some acnt
    /\ s' = {| offers := erase (offer_id o) (offers s);
               games := games s;
               global_dices := global_dices s;
               accounts := replace_row (offer_owner o) (refund o acnt) (accounts s) |}.
Proof.
  unfold on_canceloffer. intros H.
  apply bind_inr in H as (? & _ & H).
  apply bind_inr in H as (o & Eo & H). apply deref_inr in Eo.
  apply bind_inr in H as (? & Eg & H). apply eosio_assert_inr, Z.eqb_eq in Eg.
  apply bind_inr in H as (? & _ & H).
  apply bind_inr in H as (accounts1 & E1 & H).
  apply modify_find_inr in E1 as (acnt & acnt' & Fa & Ea & ->).
  apply ok_inr in Ea. subst acnt'. apply ok_inr in H. subst s'.
  exists o, acnt. auto.
Qed.

Lemma on_deposit_inr (D : account_name) (ctx : context) (d : deposit) (s s' : state) :
  on_deposit D ctx d s = inr s' ->
  exists cur new,
    (find (deposit_from d) (accounts s) = Some cur
     \/ (find (deposit_from d) (accounts s) = None
         /\ account_open_offers cur = 0 /\ account_open_games cur = 0))
    /\ account_owner new = deposit_from d
    /\ account_open_offers new = account_open_offers cur
    /\ account_open_games new = account_open_games cur
    /\ offers s' = offers s /\ games s' = games s
    /\ global_dices s' = global_dices s
    /\ (forall k, k <> deposit_from d -> find k (accounts s') = find k (accounts s))
    /\ find (deposit_from d) (accounts s') = Some new.
Proof.
  unfold on_deposit. intros H.
  set (fresh := {| account_owner := deposit_from d;
                   account_eos_balance := {| amount := 0 |};
                   account_open_offers := 0;
                   account_open_games := 0 |}) in *.
  apply bind_inr in H as (accounts1 & E1 & H).
  apply bind_inr in H as (? & _ & H).
  apply bind_inr in H as (accounts2 & E2 & H).
  apply ok_inr in H. subst s'. cbn [offers games global_dices accounts].
  assert (find (deposit_from d) (accounts s ++ [fresh])
          = match find (deposit_from d) (accounts s) with
            | Some r => Some r
            | None => Some fresh
            end) as Ffresh.
  { rewrite find_app. destruct (find (deposit_from d) (accounts s)); [reflexivity|].
    unfold find. cbn [List.find]. unfold has_key.
    change (primary_key fresh) with (deposit_from d). now rewrite Z.eqb_refl. }
  destruct (find (deposit_from d) (accounts s)) as [a|] eqn:F.
  - apply ok_inr in E1. subst accounts1.
    apply modify_inr in E2 as (i & cur & new & Ei & Ec & En & ->).
    inversion Ei; subst i; clear Ei.
    pose proof (find_some _ _ F) as [_ K]. rewrite K in *.
    rewrite F in Ec. inversion Ec; subst cur; clear Ec.
    unfold credit, token_add in En. cbn [bind ok] in En.
    apply ok_inr in En.
    assert (primary_key new = deposit_from d) as Kn by (now subst new).
    exists a, new. split; [left; reflexivity|].
    split; [exact Kn|]. split; [now subst new|]. split; [now subst new|].
    repeat split; auto.
    + intros k Dk. now apply find_replace_other.
    + eapply find_replace_same; eauto.
  - apply emplace_inr in E1 as [_ ->].
    apply modify_inr in E2 as (i & cur & new & Ei & Ec & En & ->).
    inversion Ei; subst i; clear Ei.
    change (primary_key fresh) with (deposit_from d) in *.
    rewrite Ffresh in Ec. inversion Ec; subst cur; clear Ec.
    unfold credit, token_add in En. cbn [bind ok] in En.
    apply ok_inr in En.
    assert (primary_key new = deposit_from d) as Kn by (now subst new).
    exists fresh, new. split; [right; split; [reflexivity|split; reflexivity]|].
    split; [exact Kn|]. split; [now subst new|]. split; [now subst new|].
    repeat split; auto.
    + intros k Dk. rewrite find_replace_other by auto.
      rewrite find_app. destruct (find k (accounts s)); [reflexivity|].
      unfold find. cbn [List.find]. unfold has_key.
      change (primary_key fresh) with (deposit_from d).
      destruct (Z.eqb_spec (deposit_from d) k); [congruence|reflexivity].
    + eapply find_replace_same; [exact Kn|exact Ffresh].
Qed.

Lemma on_withdraw_inr (D : account_name) (ctx : context) (w : withdraw) (s s' : state) :
  on_withdraw D ctx w s = inr s' ->
  exists cur new,
    find (withdraw_to w) (accounts s) = Some cur
    /\ account_owner new = withdraw_to w
    /\ account_open_offers new = account_open_offers cur
    /\ account_open_games new = account_open_games cur
    /\ offers s' = offers s /\ games s' = games s
    /\ global_dices s' = global_dices s
    /\ (forall k, k <> withdraw_to w -> find k (accounts s') = find k (accounts s))
    /\ find (withdraw_to w) (accounts s') = (if is_empty new then None else Some new).
Proof.
  unfold on_withdraw. intros H.
  apply bind_inr in H as (? & _ & H).
  apply bind_inr in H as (? & _ & H).
  apply bind_inr in H as (accounts1 & E1 & H).
  apply modify_find_inr in E1 as (cur & new & Fc & En & ->).
  apply bind_inr in H as (? & _ & H).
  apply bind_inr in H as (now_ & E2 & H). apply deref_inr in E2.
  apply ok_inr in H. subst s'. cbn [offers games global_dices accounts].
  unfold debit in En. apply bind_inr in En as (bal & _ & En). apply ok_inr in En.
  pose proof (find_some _ _ Fc) as [_ Kc].
  assert (primary_key new = withdraw_to w) as Kn by (now subst new).
  erewrite find_replace_same in E2; [|exact Kn|exact Fc].
  inversion E2; subst now_; clear E2. rewrite Kn.
  exists cur, new. split; [exact Fc|].
  split; [exact Kn|]. split; [now subst new|]. split; [now subst new|].
  repeat split; auto.
  - intros k Dk. destruct (is_empty new).
    + rewrite find_erase_other by auto. now apply find_replace_other.
    + now apply find_replace_other.
  - destruct (is_empty new).
    + apply find_erase_same.
    + eapply find_replace_same; eauto.
Qed.

Lemma on_claimexpired_inr (ctx : context) (claim : claimexpired) (s s' : state) :
  on_claimexpired ctx claim s = inr s' ->
  exists g o1 o2,
    find (claimexpired_gameid claim) (games s) = Some g
    /\ find_key256 by_commitment
         (get_commitment (player_commitment (game_player1 g))) (offers s) = Some o1
    /\ find_key256 by_commitment
         (get_commitment (player_commitment (game_player2 g))) (offers s) = Some o2
    /\ (pay_and_clean g o1 o2 s = inr s' \/ pay_and_clean g o2 o1 s = inr s').
Proof.
  unfold on_claimexpired. intros H.
  apply bind_inr in H as (? & _ & H).
  apply bind_inr in H as (g & Eg & H). apply deref_inr in Eg.
  apply bind_inr in H as (? & _ & H).
  destruct (negb (is_zero (player_reveal (game_player1 g)))).
  - apply bind_inr in H as (? & _ & H).
    apply bind_inr in H as (o1 & E1 & H). apply deref_inr in E1.
    apply bind_inr in H as (o2 & E2 & H). apply deref_inr in E2.
    exists g, o1, o2. auto.
  - apply bind_inr in H as (? & _ & H).
    apply bind_inr in H as (o2 & E2 & H). apply deref_inr in E2.
    apply bind_inr in H as (o1 & E1 & H). apply deref_inr in E1.
    exists g, o1, o2. auto.
Qed.

Lemma on_reveal_inr (sha256 : list byte -> checksum256) (ctx : context)
    (r : reveal) (s s' : state) :
  on_reveal sha256 ctx r s = inr s' ->
  exists curr_offer g,
    find_key256 by_commitment (get_commitment (reveal_commitment r)) (offers s)
    = Some curr_offer
    /\ 0 < offer_gameid curr_offer
    /\ find (offer_gameid curr_offer) (games s) = Some g
    /\ ((exists prev_offer,
           find_key256 by_commitment
             (get_commitment
                (player_commitment
                   (if is_equal (player_commitment (game_player1 g))
                                (reveal_commitment r)
                    then game_player2 g else game_player1 g)))
             (offers s) = Some prev_offer
           /\ (pay_and_clean g curr_offer prev_offer s = inr s'
               \/ pay_and_clean g prev_offer curr_offer s = inr s'))
        \/ (exists curr_reveal,
              s' = {| offers := offers s;
                      games := replace_row (game_id g)
                                 (record_reveal ctx curr_reveal (reveal_source r) g)
                                 (games s);
                      global_dices := global_dices s;
                      accounts := accounts s |})).
Proof.
  unfold on_reveal. intros H.
  apply bind_inr in H as (? & _ & H).
  apply bind_inr in H as (? & _ & H).
  apply bind_inr in H as (curr_offer & Ec & H). apply deref_inr in Ec.
  apply bind_inr in H as (? & Eg & H). apply eosio_assert_inr, Z.ltb_lt in Eg.
  apply bind_inr in H as (g & Fg & H). apply deref_inr in Fg.
  exists curr_offer, g. split; [exact Ec|]. split; [exact Eg|]. split; [exact Fg|].
  pose proof (find_some _ _ Fg) as [_ Kg].
  change (primary_key g) with (game_id g) in Kg.
  destruct (is_equal (player_commitment (game_player1 g)) (reveal_commitment r));
    cbn [negb] in H;
    apply bind_inr in H as (? & _ & H).
  - destruct (negb (is_zero (player_reveal (game_player2 g)))).
    + left. apply bind_inr in H as (prev_offer & Ep & H). apply deref_inr in Ep.
      exists prev_offer. split; [exact Ep|].
      destruct (negb _); auto.
    + right. apply bind_inr in H as (games1 & E1 & H).
      rewrite <- Kg in E1.
      apply modify_find_inr in E1 as (cur & new & Fc & En & ->).
      rewrite Kg in Fc. rewrite Fg in Fc. inversion Fc; subst cur; clear Fc.
      apply ok_inr in En. subst new. apply ok_inr in H. subst s'.
      eexists. reflexivity.
  - destruct (negb (is_zero (player_reveal (game_player1 g)))).
    + left. apply bind_inr in H as (prev_offer & Ep & H). apply deref_inr in Ep.
      exists prev_offer. split; [exact Ep|].
      destruct (negb _); auto.
    + right. apply bind_inr in H as (games1 & E1 & H).
      rewrite <- Kg in E1.
      apply modify_find_inr in E1 as (cur & new & Fc & En & ->).
      rewrite Kg in Fc. rewrite Fg in Fc. inversion Fc; subst cur; clear Fc.
      apply ok_inr in En. subst new. apply ok_inr in H. subst s'.
      eexists. reflexivity.
Qed.

Lemma begin_in {T} {RowT : Row T} (t : list T) (r : T) : begin_ t = Some r -> In r t.
Proof. apply least_in. Qed.

Lemma begin_none {T} {RowT : Row T} (t : list T) : begin_ t = None -> t = [].
Proof. apply least_none. Qed.

Lemma has_offer_false (c : checksum256) (s : state) (o : offer) :
  has_offer c s = false -> In o (offers s) -> offer_commitment o <> c.
Proof.
  unfold has_offer. intros H I E.
  destruct (find_key256 _ _ (offers s)) eqn:F; [discriminate|].
  apply (find_key256_none _ _ _ F I). unfold by_commitment. now rewrite E.
Qed.

Lemma on_offerbet_inr (ctx : context) (new_offer : offerbet) (s s' : state) :
  let new_row :=
    {| offer_id := available_primary_key (offers s);
       offer_owner := offerbet_player new_offer;
       offer_bet := offerbet_bet new_offer;
       offer_commitment := offerbet_commitment new_offer;
       offer_gameid := 0 |} in
  unique_keys (offers s) ->
  on_offerbet ctx new_offer s = inr s' ->
  0 < amount (offerbet_bet new_offer)
  /\ has_offer (offerbet_commitment new_offer) s = false
  /\ find (offer_id new_row) (offers s) = None
  /\ exists pa pa',
      find (offerbet_player new_offer) (accounts s) = Some pa
      /\ account_owner pa' = account_owner pa
      /\ ((match_offer new_row (offers s ++ [new_row]) = None
           /\ account_open_offers pa' = wrap 32 (account_open_offers pa + 1)
           /\ account_open_games pa' = account_open_games pa
           /\ s' = {| offers := offers s ++ [new_row];
                      games := games s;
                      global_dices := global_dices s;
                      accounts := replace_row (offerbet_player new_offer) pa'
                                    (accounts s) |})
          \/ (exists matched ma counter global_dices2,
                match_offer new_row (offers s ++ [new_row]) = Some matched
                /\ find (offer_owner matched) (accounts s) = Some ma
                /\ account_open_offers pa' = account_open_offers pa
                /\ account_open_games pa' = wrap 32 (account_open_games pa + 1)
                /\ (In counter (global_dices s)
                    \/ (global_dices s = [] /\ global_nextgameid counter = 0))
                /\ (forall gd, In gd global_dices2 ->
                      gd = next_game counter \/ In gd (global_dices s))
                /\ find (global_nextgameid (next_game counter)) (games s) = None
                /\ let gid := global_nextgameid (next_game counter) in
                   s' = {| offers :=
                             replace_row (offer_id new_row) (enter_game gid new_row)
                               (replace_row (offer_id matched) (enter_game gid matched)
                                  (offers s ++ [new_row]));
                           games :=
                             games s ++
                             [{| game_id := gid;
                                 game_bet := offerbet_bet new_offer;
                                 game_deadline := 0;
                                 game_player1 :=
                                   {| player_commitment := offer_commitment matched;
                                      player_reveal := zero256 |};
                                 game_player2 :=
                                   {| player_commitment :=
                                        offerbet_commitment new_offer;
                                      player_reveal := zero256 |} |}];
                           global_dices := global_dices2;
                           accounts :=
                             replace_row (offerbet_player new_offer) pa'
                               (replace_row (offer_owner matched) (offer_to_game ma)
                                  (accounts s)) |})).
Proof.
  intros new_row U H.
  unfold on_offerbet in H. cbv zeta in H. fold new_row in H.
  apply bind_inr in H as (? & Ea & H). apply eosio_assert_inr, Z.ltb_lt in Ea.
  apply bind_inr in H as (? & Eh & H). apply eosio_assert_inr, negb_true_iff in Eh.
  apply bind_inr in H as (? & _ & H).
  apply bind_inr in H as (? & A & H).
  apply eosio_assert_inr, is_some_true in A as [pa Hpa].
  apply bind_inr in H as (offers1 & E & H).
  apply emplace_inr in E as [Fresh ->].
  split; [exact Ea|]. split; [exact Eh|]. split; [exact Fresh|].
  pose proof (find_some _ _ Hpa) as [_ Kpa].
  change (primary_key pa) with (account_owner pa) in Kpa.
  destruct (match_offer new_row (offers s ++ [new_row])) as [matched|] eqn:M.
  - pose proof (match_offer_some _ _ M) as (Im & _ & Dm).
    change (offer_owner new_row) with (offerbet_player new_offer) in Dm.
    pose proof (unique_keys_app_fresh new_row U Fresh) as U1.
    assert (offer_id matched <> offer_id new_row) as Did.
    { apply in_app_or in Im as [I|[E|[]]].
      - intros E. eapply find_none in I; eauto.
      - exfalso. apply Dm. now rewrite <- E. }
    apply bind_inr in H as (gd1 & Eg1 & H).
    apply bind_inr in H as (gd2 & Eg2 & H).
    apply bind_inr in H as (gkey & Ek & H). apply deref_inr in Ek.
    apply bind_inr in H as (gdice & Ed & H). apply deref_inr in Ed.
    apply bind_inr in H as (games1 & Eg & H).
    apply emplace_inr in Eg as [Fg ->].
    change (primary_key _) with (global_nextgameid gdice) in Fg.
    apply bind_inr in H as (offers2 & E2 & H).
    apply modify_inr in E2 as (i & cur & new & Ei & Ec & En & ->).
    inversion Ei; subst i; clear Ei.
    rewrite (find_unique _ U1 Im) in Ec. inversion Ec; subst cur; clear Ec.
    apply ok_inr in En. subst new.
    apply bind_inr in H as (offers3 & E3 & H).
    apply modify_inr in E3 as (i & cur & new & Ei & Ec & En & ->).
    inversion Ei; subst i; clear Ei.
    assert (find (primary_key new_row) (offers s ++ [new_row]) = Some new_row) as Fn.
    { apply find_unique; auto. apply in_or_app. right. now left. }
    rewrite find_replace_other in Ec;
      [|reflexivity|intros E; apply Did; symmetry; exact E].
    rewrite Fn in Ec. inversion Ec; subst cur; clear Ec.
    apply ok_inr in En. subst new.
    apply bind_inr in H as (accounts1 & E4 & H).
    apply modify_find_inr in E4 as (ma & ma' & Fma & Em & ->).
    apply ok_inr in Em. subst ma'.
    pose proof (find_some _ _ Fma) as [_ Kma].
    apply bind_inr in H as (accounts2 & E5 & H).
    rewrite Hpa in E5.
    apply modify_inr in E5 as (i & cur & pa' & Ep & Ec & En & ->).
    inversion Ep; subst i; clear Ep.
    change (primary_key pa) with (account_owner pa) in *. rewrite Kpa in *.
    assert (offerbet_player new_offer <> offer_owner matched) as Dm' by congruence.
    rewrite find_replace_other in Ec; [|exact Kma|exact Dm'].
    rewrite Hpa in Ec. inversion Ec; subst cur; clear Ec.
    unfold debit_open_game in En.
    apply bind_inr in En as (bal & _ & En). apply ok_inr in En.
    apply ok_inr in H.
    exists pa, pa'. split; [exact Hpa|]. split; [now subst pa'|].
    right.
    (* the global counter *)
    assert (exists counter,
              (In counter (global_dices s)
               \/ (global_dices s = [] /\ global_nextgameid counter = 0))
              /\ gdice = next_game counter
              /\ forall gd, In gd gd2 -> gd = next_game counter \/ In gd (global_dices s))
      as (counter & Hc & -> & Hgd2).
    { destruct (begin_ (global_dices s)) as [g0|] eqn:B.
      - apply ok_inr in Eg1. subst gd1. inversion Ek; subst gkey; clear Ek.
        apply modify_inr in Eg2 as (i & cur & new & Ei & Ec & En' & ->).
        inversion Ei; subst i; clear Ei. apply ok_inr in En'. subst new.
        pose proof (find_some _ _ Ec) as [Ic Kc].
        erewrite find_replace_same in Ed; [|exact Kc|exact Ec].
        inversion Ed; subst gdice; clear Ed.
        exists cur. split; [now left|]. split; [reflexivity|].
        intros gd [->|[I _]]%in_replace_row; auto.
      - apply begin_none in B. apply emplace_inr in Eg1 as [_ ->].
        inversion Ek; subst gkey; clear Ek.
        apply modify_inr in Eg2 as (i & cur & new & Ei & Ec & En' & ->).
        inversion Ei; subst i; clear Ei. apply ok_inr in En'. subst new.
        pose proof (find_some _ _ Ec) as [Ic Kc].
        erewrite find_replace_same in Ed; [|exact Kc|exact Ec].
        inversion Ed; subst gdice; clear Ed.
        rewrite B in Ic. destruct Ic as [<-|[]].
        exists {| global_id := 0; global_nextgameid := 0 |}.
        split; [right; split; [exact B|reflexivity]|].
        split; [reflexivity|].
        intros gd [->|[I N]]%in_replace_row; auto.
        rewrite B in I. destruct I as [<-|[]]. exfalso. now apply N. }
    exists matched, ma, counter, gd2.
    split; [reflexivity|]. split; [exact Fma|].
    split; [now subst pa'|]. split; [now subst pa'|].
    split; [exact Hc|]. subst s'. split; [exact Hgd2|].
    split; [exact Fg|]. reflexivity.
  - apply bind_inr in H as (accounts1 & E5 & H).
    rewrite Hpa in E5.
    apply modify_inr in E5 as (i & cur & pa' & Ep & Ec & En & ->).
    inversion Ep; subst i; clear Ep.
    change (primary_key pa) with (account_owner pa) in *. rewrite Kpa in *.
    rewrite Hpa in Ec. inversion Ec; subst cur; clear Ec.
    unfold debit_open_offer in En.
    apply bind_inr in En as (bal & _ & En). apply ok_inr in En.
    apply ok_inr in H.
    exists pa, pa'. split; [exact Hpa|]. split; [now subst pa'|].
    left. split; [reflexivity|]. split; [now subst pa'|]. split; [now subst pa'|].
    now subst s'.
Qed.

(** ** The offer book keeps identifiers and commitments unique *)

Lemma enter_game_book (gid k : Z) (cur : offer) (l : list offer) :
  unique_keys l -> find k l = Some cur ->
  unique_keys (replace_row k (enter_game gid cur) l)
  /\ map offer_commitment (replace_row k (enter_game gid cur) l)
     = map offer_commitment l.
Proof.
  intros U F. pose proof (find_some _ _ F) as [_ K]. split.
  - apply unique_keys_replace_row; auto.
  - eapply map_replace_row; eauto.
Qed.

Lemma book_ok_erase (s s' : state) (k : Z) :
  book_ok s -> offers s' = erase k (offers s) -> book_ok s'.
Proof.
  intros [U N] E. split; rewrite E.
  - now apply unique_keys_erase.
  - now apply NoDup_map_filter.
Qed.

Lemma book_ok_same (s s' : state) : book_ok s -> offers s' = offers s -> book_ok s'.
Proof. intros [U N] E. split; now rewrite E. Qed.

Lemma book_ok_settle (g : game) (w l : offer) (s s' : state) :
  book_ok s -> pay_and_clean g w l s = inr s' -> book_ok s'.
Proof.
  intros [U N] H. apply pay_and_clean_inr in H as (wa & la & _ & _ & ->).
  split; cbn [offers].
  - now do 2 apply unique_keys_erase.
  - now do 2 apply NoDup_map_filter.
Qed.

Lemma book_ok_offerbet (ctx : context) (new_offer : offerbet) (s s' : state) :
  book_ok s -> on_offerbet ctx new_offer s = inr s' -> book_ok s'.
Proof.
  intros [U N] H.
  apply on_offerbet_inr in H as (_ & Hh & Fresh & pa & pa' & _ & _ & H); [|exact U].
  set (new_row := {| offer_id := available_primary_key (offers s);
                     offer_owner := offerbet_player new_offer;
                     offer_bet := offerbet_bet new_offer;
                     offer_commitment := offerbet_commitment new_offer;
                     offer_gameid := 0 |}) in *.
  assert (unique_keys (offers s ++ [new_row])) as U1.
  { now apply unique_keys_app_fresh. }
  assert (NoDup (map offer_commitment (offers s ++ [new_row]))) as N1.
  { rewrite map_app. apply NoDup_app; [exact N|repeat constructor; intros []|].
    intros c [o [Eo Io]]%in_map_iff [<-|[]].
    now apply (has_offer_false _ _ Hh Io). }
  destruct H as [(_ & _ & _ & ->)
                |(m & ma & counter & gd2 & M & _ & _ & _ & _ & _ & _ & ->)].
  - now split.
  - cbn [offers]. apply match_offer_some in M as (Im & _ & Dm).
    pose proof (find_unique _ U1 Im) as Fm.
    change (primary_key m) with (offer_id m) in Fm.
    destruct (@enter_game_book (global_nextgameid (next_game counter)) _ _ _ U1 Fm)
      as [U2 E2].
    assert (offer_id m <> offer_id new_row) as D.
    { apply in_app_or in Im as [I|[E|[]]].
      - intros E. eapply find_none in I; eauto.
      - exfalso. apply Dm. now rewrite <- E. }
    assert (find (offer_id new_row)
              (replace_row (offer_id m)
                 (enter_game (global_nextgameid (next_game counter)) m)
                 (offers s ++ [new_row])) = Some new_row) as Fn.
    { rewrite find_replace_other; [|reflexivity|congruence].
      apply (find_unique _ U1). apply in_or_app. right. now left. }
    destruct (@enter_game_book (global_nextgameid (next_game counter)) _ _ _ U2 Fn)
      as [U3 E3].
    split; [exact U3|]. cbn [offers]. rewrite E3, E2. exact N1.
Qed.

Lemma book_ok_step (D : account_name) (sha256 : list byte -> checksum256)
    (ctx : context) (a : action) (s s' : state) :
  book_ok s -> apply D sha256 ctx a s = inr s' -> book_ok s'.
Proof.
  intros B H. destruct a as [x|x|x|x|x|x]; cbn [apply] in H.
  - eapply book_ok_offerbet; [exact B|exact H].
  - apply on_canceloffer_inr in H as (o & acnt & _ & _ & _ & ->).
    eapply book_ok_erase; [exact B|reflexivity].
  - apply on_reveal_inr in H
      as (co & g & _ & _ & _ & [(po & _ & [H|H])|(cr & ->)]).
    + eapply book_ok_settle; eauto.
    + eapply book_ok_settle; eauto.
    + eapply book_ok_same; [exact B|reflexivity].
  - apply on_claimexpired_inr in H as (g & o1 & o2 & _ & _ & _ & [H|H]);
      eapply book_ok_settle; eauto.
  - apply on_deposit_inr in H as (cur & new & _ & _ & _ & _ & E & _).
    eapply book_ok_same; eauto.
  - apply on_withdraw_inr in H as (cur & new & _ & _ & _ & _ & E & _).
    eapply book_ok_same; eauto.
Qed.

Lemma book_ok_reachable (D : account_name) (sha256 : list byte -> checksum256)
    (n : nat) (s : state) :
  reachable_in D sha256 n s -> book_ok s.
Proof.
  induction 1 as [|n s ctx a s' R IH H].
  - split; constructor.
  - eapply book_ok_step; eauto.
Qed.

Lemma has_offer_true (c : checksum256) (s : state) :
  In c (map offer_commitment (offers s)) -> has_offer c s = true.
Proof.
  intros [o [E I]]%in_map_iff. unfold has_offer.
  destruct (find_key256 _ _ (offers s)) eqn:F; [reflexivity|].
  exfalso. apply (find_key256_none _ _ _ F I). unfold by_commitment. now rewrite E.
Qed.

(** C8.  In every reachable state no two offers share a commitment, and the
    commitment index, keyed by the four words of the commitment, is
    injective; [offerbet] rejects a commitment that an offer in the table
    already carries with "offer with this commitment already exist"
    (checked after the stake, which must be positive). *)
Theorem commitments_stay_unique (D : account_name)
    (sha256 : list byte -> checksum256) (s : state) :
  reachable D sha256 s ->
  NoDup (map offer_commitment (offers s))
  /\ NoDup (map by_commitment (offers s))
  /\ forall ctx new_offer,
       0 < amount (offerbet_bet new_offer) ->
       In (offerbet_commitment new_offer) (map offer_commitment (offers s)) ->
       on_offerbet ctx new_offer s
       = inl (assert_failure "offer with this commitment already exist").
Proof.
  intros [n R]. apply book_ok_reachable in R as [_ N]. split; [exact N|]. split.
  - unfold by_commitment. rewrite <- (map_map offer_commitment get_commitment).
    apply NoDup_map_NoDup_ForallPairs; [|exact N].
    intros a b _ _. apply get_commitment_inj.
  - intros ctx new_offer Pos I. unfold on_offerbet. cbv zeta.
    apply Z.ltb_lt in Pos. unfold token_type. rewrite Pos. cbn [eosio_assert bind ok].
    rewrite (has_offer_true _ _ I). reflexivity.
Qed.

(** ** Integrity is kept by every call *)

Lemma count_none {T} (p : T -> bool) (t : list T) :
  (forall r, In r t -> p r = false) -> count p t = 0.
Proof.
  intros H. unfold count. induction t as [|a t IH]; [reflexivity|].
  simpl. rewrite (H a) by now left. apply IH. intros r I. apply H. now right.
Qed.

Lemma count_pos {T} (p : T -> bool) (t : list T) (r : T) :
  In r t -> p r = true -> 1 <= count p t.
Proof.
  intros I P. pose proof (count_range p t).
  destruct (Z.eq_dec (count p t) 0) as [E|]; [|lia].
  pose proof (count_zero _ _ _ E I). congruence.
Qed.

Lemma owned_open_true (who : account_name) (o : offer) :
  owned_open who o = true <-> offer_owner o = who /\ offer_gameid o = 0.
Proof. unfold owned_open. now rewrite andb_true_iff, !Z.eqb_eq. Qed.

Lemma owned_in_game_true (who : account_name) (o : offer) :
  owned_in_game who o = true <-> offer_owner o = who /\ offer_gameid o <> 0.
Proof.
  unfold owned_in_game. now rewrite andb_true_iff, negb_true_iff, Z.eqb_eq, Z.eqb_neq.
Qed.

Lemma owned_open_false (who : account_name) (o : offer) :
  offer_owner o <> who \/ offer_gameid o <> 0 -> owned_open who o = false.
Proof.
  intros H. destruct (owned_open who o) eqn:E; [|reflexivity].
  apply owned_open_true in E. tauto.
Qed.

Lemma owned_in_game_false (who : account_name) (o : offer) :
  offer_owner o <> who \/ offer_gameid o = 0 -> owned_in_game who o = false.
Proof.
  intros H. destruct (owned_in_game who o) eqn:E; [|reflexivity].
  apply owned_in_game_true in E. tauto.
Qed.

(** An account whose two counters are exact and zero owns no offer. *)
Lemma no_offer_of (who : account_name) (l : list offer) (o : offer) :
  count (owned_open who) l = 0 -> count (owned_in_game who) l = 0 ->
  In o l -> offer_owner o <> who.
Proof.
  intros Zo Zg I E.
  pose proof (count_zero _ _ _ Zo I) as Po.
  pose proof (count_zero _ _ _ Zg I) as Pg.
  destruct (Z.eq_dec (offer_gameid o) 0) as [G|G].
  - assert (owned_open who o = true) by now apply owned_open_true. congruence.
  - assert (owned_in_game who o = true) by now apply owned_in_game_true. congruence.
Qed.

Lemma integrity_init : integrity 0 initial_state.
Proof.
  split; cbn [initial_state offers games global_dices accounts].
  - split; constructor.
  - intros o [].
  - intros g [].
  - intros o [].
  - intros who a F. discriminate.
  - apply Nat.le_refl.
  - intros gd [].
Qed.

Lemma integrity_mono (n m : nat) (s : state) :
  (n <= m)%nat -> integrity n s -> integrity m s.
Proof.
  intros L [B Hog Hgo Hacc Hcnt Hlen Hgid]. split; auto.
  - lia.
  - intros gd I. specialize (Hgid gd I). lia.
Qed.

Lemma integrity_deposit (D : account_name) (ctx : context) (d : deposit)
    (n : nat) (s s' : state) :
  integrity n s -> on_deposit D ctx d s = inr s' -> integrity n s'.
Proof.
  intros [B Hog Hgo Hacc Hcnt Hlen Hgid] H.
  apply on_deposit_inr in H
    as (cur & new & Hcur & Kn & Eo & Eg & Eof & Ega & Egl & Hother & Hnew).
  split; rewrite ?Eof, ?Ega, ?Egl; auto.
  - eapply book_ok_same; eauto.
  - intros o I. destruct (Z.eq_dec (offer_owner o) (deposit_from d)) as [E|N].
    + rewrite E, Hnew. discriminate.
    + rewrite Hother by exact N. now apply Hacc.
  - intros who a F. destruct (Z.eq_dec who (deposit_from d)) as [->|N].
    + rewrite Hnew in F. inversion F; subst a; clear F. rewrite Eo, Eg.
      destruct Hcur as [Hcur|(Hnone & Z1 & Z2)]; [now apply Hcnt|].
      rewrite Z1, Z2. split; symmetry; apply count_none; intros o I.
      * apply owned_open_false. left. intros E. apply (Hacc o I). now rewrite E.
      * apply owned_in_game_false. left. intros E. apply (Hacc o I). now rewrite E.
    + rewrite Hother in F by exact N. now apply Hcnt.
Qed.

Lemma integrity_withdraw (D : account_name) (ctx : context) (w : withdraw)
    (n : nat) (s s' : state) :
  integrity n s -> on_withdraw D ctx w s = inr s' -> integrity n s'.
Proof.
  intros [B Hog Hgo Hacc Hcnt Hlen Hgid] H.
  apply on_withdraw_inr in H
    as (cur & new & Hcur & Kn & Eo & Eg & Eof & Ega & Egl & Hother & Hnew).
  destruct (Hcnt _ _ Hcur) as [Co Cg].
  split; rewrite ?Eof, ?Ega, ?Egl; auto.
  - eapply book_ok_same; eauto.
  - intros o I. destruct (Z.eq_dec (offer_owner o) (withdraw_to w)) as [E|N].
    + rewrite E, Hnew. destruct (is_empty new) eqn:Em; [|discriminate].
      exfalso. apply is_empty_spec in Em as (_ & Zo & Zg).
      apply (@no_offer_of (withdraw_to w) (offers s) o); auto; congruence.
    + rewrite Hother by exact N. now apply Hacc.
  - intros who a F. destruct (Z.eq_dec who (withdraw_to w)) as [->|N].
    + rewrite Hnew in F. destruct (is_empty new); [discriminate|].
      inversion F; subst a; clear F. now rewrite Eo, Eg.
    + rewrite Hother in F by exact N. now apply Hcnt.
Qed.

Lemma find_replace_not_none {T} {RowT : Row T} (k k0 : Z) (new : T) (t : list T) :
  primary_key new = k0 -> find k t <> None -> find k (replace_row k0 new t) <> None.
Proof.
  intros Kn F. destruct (Z.eq_dec k k0) as [->|N].
  - destruct (find k0 t) as [cur|] eqn:E; [|congruence].
    erewrite find_replace_same; eauto. discriminate.
  - now rewrite find_replace_other.
Qed.

Lemma same_commitment_same_offer (l : list offer) (a b : offer) :
  NoDup (map offer_commitment l) -> In a l -> In b l ->
  offer_commitment a = offer_commitment b -> a = b.
Proof.
  induction l as [|x l IH]; simpl; [contradiction|].
  intros N Ia Ib E. inversion N as [|? ? Nx Nl]; subst.
  destruct Ia as [->|Ia], Ib as [->|Ib]; auto.
  - exfalso. apply Nx. rewrite E. now apply in_map.
  - exfalso. apply Nx. rewrite <- E. now apply in_map.
Qed.

Lemma find_key256_offer (c : checksum256) (l : list offer) (o : offer) :
  find_key256 by_commitment (get_commitment c) l = Some o ->
  In o l /\ offer_commitment o = c.
Proof.
  intros [I E]%find_key256_some. split; [exact I|].
  now apply get_commitment_inj.
Qed.

Lemma integrity_canceloffer (ctx : context) (c : canceloffer) (n : nat)
    (s s' : state) :
  Z.of_nat n < 2 ^ 32 ->
  integrity n s -> on_canceloffer ctx c s = inr s' -> integrity n s'.
Proof.
  intros Bound [B Hog Hgo Hacc Hcnt Hlen Hgid] H.
  apply on_canceloffer_inr in H as (o & acnt & Fo & G0 & Fa & ->).
  apply find_key256_offer in Fo as [Io _].
  pose proof B as [U N].
  pose proof (find_unique _ U Io) as Fid.
  change (primary_key o) with (offer_id o) in Fid.
  pose proof (find_some _ _ Fa) as [_ Ka].
  split; cbn [offers games global_dices accounts]; auto.
  - eapply book_ok_erase; [exact B|reflexivity].
  - intros o' [I' _]%in_erase. now apply Hog.
  - intros g Ig. destruct (Hgo g Ig) as (Nz & o1 & o2 & I1 & I2 & C1 & C2 & G1 & G2 & D).
    split; [exact Nz|]. exists o1, o2.
    repeat split; auto; apply in_erase; split; auto; intros E.
    + assert (o1 = o) by (eapply (@same_key_same_row _ _ (offers s)); eauto). congruence.
    + assert (o2 = o) by (eapply (@same_key_same_row _ _ (offers s)); eauto). congruence.
  - intros o' [I' _]%in_erase. apply find_replace_not_none; [exact Ka|now apply Hacc].
  - intros who a F.
    rewrite !(@count_erase _ _ _ _ _ _ U Fid).
    destruct (Z.eq_dec who (offer_owner o)) as [->|Nw].
    + erewrite find_replace_same in F; [|exact Ka|exact Fa].
      inversion F; subst a; clear F. destruct (Hcnt _ _ Fa) as [Co Cg].
      cbn [refund account_open_offers account_open_games].
      assert (owned_open (offer_owner o) o = true) as Po
          by now apply owned_open_true.
      assert (owned_in_game (offer_owner o) o = false) as Pg
          by (apply owned_in_game_false; now right).
      rewrite Po, Pg. cbn [Z.b2z].
      pose proof (count_pos _ _ _ Io Po).
      pose proof (count_range (owned_open (offer_owner o)) (offers s)).
      split; [|lia]. rewrite Co. apply wrap_small. lia.
    + rewrite find_replace_other in F; [|exact Ka|exact Nw].
      destruct (Hcnt _ _ F) as [Co Cg].
      rewrite owned_open_false, owned_in_game_false by (left; congruence).
      cbn [Z.b2z]. lia.
  - pose proof (length_erase (offer_id o) (offers s)). lia.
Qed.

Lemma record_reveal_slots (ctx : context) (p : player) (src : checksum256)
    (g : game) :
  game_id (record_reveal ctx p src g) = game_id g
  /\ player_commitment (game_player1 (record_reveal ctx p src g))
     = player_commitment (game_player1 g)
  /\ player_commitment (game_player2 (record_reveal ctx p src g))
     = player_commitment (game_player2 g).
Proof.
  unfold record_reveal. cbn [game_id game_player1 game_player2].
  destruct (is_equal _ _); auto.
Qed.

Lemma integrity_record_reveal (ctx : context) (p : player) (src : checksum256)
    (g : game) (n : nat) (s : state) :
  integrity n s -> find (game_id g) (games s) = Some g ->
  integrity n {| offers := offers s;
                 games := replace_row (game_id g) (record_reveal ctx p src g) (games s);
                 global_dices := global_dices s;
                 accounts := accounts s |}.
Proof.
  intros [B Hog Hgo Hacc Hcnt Hlen Hgid] Fg.
  destruct (record_reveal_slots ctx p src g) as (Ei & E1 & E2).
  pose proof (find_some _ _ Fg) as [Ig _].
  split; cbn [offers games global_dices accounts]; auto.
  - eapply book_ok_same; [exact B|reflexivity].
  - intros o I G. destruct (Hog o I G) as (A0 & g0 & F0 & S0).
    split; [exact A0|].
    destruct (Z.eq_dec (offer_gameid o) (game_id g)) as [E|N].
    + rewrite E in *. rewrite Fg in F0. inversion F0; subst g0; clear F0.
      exists (record_reveal ctx p src g). split.
      * eapply find_replace_same; [exact Ei|exact Fg].
      * unfold slot_of in *. now rewrite E1, E2.
    + exists g0. split; [|exact S0]. now rewrite find_replace_other.
  - intros x [->|[Ix _]]%in_replace_row; [|now apply Hgo].
    rewrite Ei, E1, E2. now apply Hgo.
Qed.

Lemma integrity_settle (n : nat) (s s' : state) (g : game) (w l : offer) :
  Z.of_nat n < 2 ^ 32 ->
  integrity n s ->
  find (game_id g) (games s) = Some g ->
  In w (offers s) -> In l (offers s) ->
  offer_commitment w <> offer_commitment l ->
  slot_of g (offer_commitment w) -> slot_of g (offer_commitment l) ->
  pay_and_clean g w l s = inr s' ->
  integrity n s'.
Proof.
  intros Bound [B Hog Hgo Hacc Hcnt Hlen Hgid] Fg Iw Il Dc Sw Sl H.
  apply pay_and_clean_inr in H as (wa & la & Fw & Fl & ->).
  pose proof B as [U N].
  pose proof (find_some _ _ Fg) as [Ig _].
  destruct (Hgo g Ig) as (Nz & o1 & o2 & I1 & I2 & C1 & C2 & G1 & G2 & Do).
  (* the two offers of the game are the winner's and the loser's *)
  assert (forall o, In o (offers s) -> slot_of g (offer_commitment o) ->
                    o = o1 \/ o = o2) as Slots.
  { intros o Io [E|E]; [left|right];
      eapply same_commitment_same_offer; eauto; congruence. }
  assert (offer_gameid w = game_id g /\ offer_gameid l = game_id g
          /\ offer_owner w <> offer_owner l
          /\ forall o, In o (offers s) -> slot_of g (offer_commitment o) ->
                       o = w \/ o = l) as (Gw & Gl & Dow & Only).
  { destruct (Slots w Iw Sw) as [-> | ->], (Slots l Il Sl) as [-> | ->];
      try congruence; repeat split; auto; try congruence.
    - intros o Io So. destruct (Slots o Io So); auto. }
  pose proof (find_some _ _ Fw) as [_ Kw].
  rewrite find_replace_other in Fl; [|exact Kw|congruence].
  pose proof (find_some _ _ Fl) as [_ Kl].
  (* the offer table *)
  pose proof (find_unique _ U Iw) as Fidw.
  change (primary_key w) with (offer_id w) in Fidw.
  assert (offer_id w <> offer_id l) as Did.
  { intros E. apply Dc. f_equal.
    eapply (@same_key_same_row _ _ (offers s)); eauto. }
  pose proof (unique_keys_erase (offer_id w) U) as Uw.
  assert (find (offer_id l) (erase (offer_id w) (offers s)) = Some l) as Fidl.
  { rewrite find_erase_other by congruence. now apply (find_unique _ U). }
  assert (forall p : offer -> bool,
            count p (erase (offer_id l) (erase (offer_id w) (offers s)))
            = count p (offers s) - Z.b2z (p w) - Z.b2z (p l)) as Cnt.
  { intros p. rewrite (@count_erase _ _ _ _ _ _ Uw Fidl).
    now rewrite (@count_erase _ _ _ _ _ _ U Fidw). }
  assert (forall o, In o (erase (offer_id l) (erase (offer_id w) (offers s))) ->
                    In o (offers s) /\ o <> w /\ o <> l) as Left.
  { intros o [[Io Nw]%in_erase Nl]%in_erase. split; [exact Io|].
    split; intros ->; [apply Nw|apply Nl]; reflexivity. }
  assert (forall o, In o (offers s) -> o <> w -> o <> l ->
                    In o (erase (offer_id l) (erase (offer_id w) (offers s))))
    as Stay.
  { intros o Io Nw Nl. apply in_erase. split; [apply in_erase; split; auto|];
      intros E; [apply Nw|apply Nl];
      eapply (@same_key_same_row _ _ (offers s)); eauto. }
  assert (offer_gameid w <> 0 /\ offer_gameid l <> 0) as [Gwn Gln] by (split; congruence).
  (* the account table *)
  set (accounts2 := replace_row (offer_owner l) (close_game la)
                      (replace_row (offer_owner w) (credit_winner g wa) (accounts s))).
  set (accounts3 := if is_empty (close_game la)
                    then erase (offer_owner l) accounts2 else accounts2).
  assert (find (offer_owner w) accounts3 = Some (credit_winner g wa)) as Aw.
  { assert (find (offer_owner w) accounts2 = Some (credit_winner g wa)) as A2.
    { unfold accounts2. rewrite find_replace_other; [|exact Kl|congruence].
      eapply find_replace_same; [exact Kw|exact Fw]. }
    unfold accounts3. destruct (is_empty _); [|exact A2].
    rewrite find_erase_other by congruence. exact A2. }
  assert (find (offer_owner l) accounts3
          = if is_empty (close_game la) then None else Some (close_game la)) as Al.
  { unfold accounts3. destruct (is_empty _); [apply find_erase_same|].
    unfold accounts2. eapply find_replace_same; [exact Kl|].
    rewrite find_replace_other; [exact Fl|exact Kw|congruence]. }
  assert (forall who, who <> offer_owner w -> who <> offer_owner l ->
                      find who accounts3 = find who (accounts s)) as Ao.
  { intros who N1 N2.
    assert (find who accounts2 = find who (accounts s)) as A2.
    { unfold accounts2. rewrite find_replace_other; [|exact Kl|exact N2].
      now rewrite find_replace_other; [|exact Kw|exact N1]. }
    unfold accounts3. destruct (is_empty _); [|exact A2].
    now rewrite find_erase_other by exact N2. }
  destruct (Hcnt _ _ Fw) as [Cwo Cwg]. destruct (Hcnt _ _ Fl) as [Clo Clg].
  assert (owned_in_game (offer_owner w) w = true) as Pww
      by now apply owned_in_game_true.
  assert (owned_in_game (offer_owner l) l = true) as Pll
      by now apply owned_in_game_true.
  assert (owned_in_game (offer_owner w) l = false) as Pwl
      by (apply owned_in_game_false; left; congruence).
  assert (owned_in_game (offer_owner l) w = false) as Plw
      by (apply owned_in_game_false; now left).
  pose proof (count_pos _ _ _ Iw Pww) as Posw.
  pose proof (count_pos _ _ _ Il Pll) as Posl.
  pose proof (count_range (owned_in_game (offer_owner w)) (offers s)) as Rw.
  pose proof (count_range (owned_in_game (offer_owner l)) (offers s)) as Rl.
  assert (account_open_games (close_game la)
          = count (owned_in_game (offer_owner l))
              (erase (offer_id l) (erase (offer_id w) (offers s)))) as Clg'.
  { rewrite Cnt, Plw, Pll. cbn [Z.b2z close_game account_open_games].
    rewrite Clg. rewrite wrap_small; lia. }
  assert (account_open_offers (close_game la)
          = count (owned_open (offer_owner l))
              (erase (offer_id l) (erase (offer_id w) (offers s)))) as Clo'.
  { rewrite Cnt, !owned_open_false by (now right).
    cbn [Z.b2z close_game account_open_offers]. lia. }
  split; cbn [offers games global_dices accounts]; fold accounts2; fold accounts3.
  - split; [now apply unique_keys_erase|now do 2 apply NoDup_map_filter].
  - intros o Io Go. apply Left in Io as (Io & Now & Nol).
    destruct (Hog o Io Go) as (A0 & g0 & F0 & S0). split; [exact A0|].
    exists g0. split; [|exact S0].
    rewrite find_erase_other; [exact F0|]. intros E. rewrite E in F0.
    rewrite Fg in F0. inversion F0; subst g0; clear F0.
    destruct (Only o Io S0); contradiction.
  - intros x [Ix Nx]%in_erase.
    destruct (Hgo x Ix) as (Nzx & a1 & a2 & J1 & J2 & D1 & D2 & H1 & H2 & Dx).
    split; [exact Nzx|]. exists a1, a2.
    change (primary_key x) with (game_id x) in Nx.
    repeat split; auto; apply Stay; auto; congruence.
  - intros o Io. apply Left in Io as Io'. destruct Io' as (Io' & Now & Nol).
    destruct (Z.eq_dec (offer_owner o) (offer_owner w)) as [Ew|Nw].
    { rewrite Ew, Aw. discriminate. }
    destruct (Z.eq_dec (offer_owner o) (offer_owner l)) as [El|Nl].
    { rewrite El, Al. destruct (is_empty (close_game la)) eqn:Em; [|discriminate].
      exfalso. apply is_empty_spec in Em as (_ & Zo & Zg).
      rewrite Clo' in Zo. rewrite Clg' in Zg.
      exact (@no_offer_of _ _ _ Zo Zg Io El). }
    rewrite Ao by assumption. now apply Hacc.
  - intros who a F. rewrite !Cnt.
    destruct (Z.eq_dec who (offer_owner w)) as [->|Nw].
    { rewrite Aw in F. inversion F; subst a; clear F.
      rewrite Pww, Pwl, !owned_open_false by (now right).
      cbn [Z.b2z credit_winner account_open_offers account_open_games].
      split; [lia|]. rewrite Cwg. rewrite wrap_small; lia. }
    destruct (Z.eq_dec who (offer_owner l)) as [->|Nl].
    { rewrite Al in F. destruct (is_empty (close_game la)); [discriminate|].
      inversion F; subst a; clear F. rewrite <- !Cnt. now split. }
    rewrite Ao in F by assumption. destruct (Hcnt _ _ F) as [Co Cg].
    rewrite !owned_open_false, !owned_in_game_false by (left; congruence).
    cbn [Z.b2z]. lia.
  - pose proof (length_erase (offer_id l) (erase (offer_id w) (offers s))).
    pose proof (length_erase (offer_id w) (offers s)). lia.
  - exact Hgid.
Qed.

Lemma count_one {T} (p : T -> bool) (r : T) : count p [r] = Z.b2z (p r).
Proof. rewrite count_cons. unfold count. simpl. lia. Qed.

Lemma integrity_offerbet (ctx : context) (new_offer : offerbet) (n : nat)
    (s s' : state) :
  Z.of_nat (S n) < 2 ^ 32 ->
  integrity n s -> on_offerbet ctx new_offer s = inr s' -> integrity (S n) s'.
Proof.
  intros Bound [B Hog Hgo Hacc Hcnt Hlen Hgid] H.
  pose proof (book_ok_offerbet _ _ B H) as B'.
  pose proof B as [U N].
  apply on_offerbet_inr in H as (Pos & _ & Fresh & pa & pa' & Fpa & Kpa' & H);
    [|exact U].
  set (new_row := {| offer_id := available_primary_key (offers s);
                     offer_owner := offerbet_player new_offer;
                     offer_bet := offerbet_bet new_offer;
                     offer_commitment := offerbet_commitment new_offer;
                     offer_gameid := 0 |}) in *.
  pose proof (find_some _ _ Fpa) as [_ Kpa].
  change (primary_key pa) with (account_owner pa) in Kpa.
  assert (primary_key pa' = offerbet_player new_offer) as Kp
      by (change (account_owner pa' = offerbet_player new_offer); congruence).
  destruct (Hcnt _ _ Fpa) as [Cpo Cpg].
  pose proof (count_range (owned_open (offerbet_player new_offer)) (offers s)) as Rpo.
  pose proof (count_range (owned_in_game (offerbet_player new_offer)) (offers s))
    as Rpg.
  assert (Z.of_nat (List.length (offers s)) + 1 < 2 ^ 32) as Small by lia.
  destruct H as [(_ & Eo & Eg & ->)
                |(m & ma & counter & gd2 & M & Fma & Eo & Eg & Hc & Hgd & Fgid & ->)].
  - (* no match: the offer waits in the book *)
    split; cbn [offers games global_dices accounts]; auto.
    + intros o [Io|[<-|[]]]%in_app_or G; [now apply Hog|]. now cbn in G.
    + intros g Ig.
      destruct (Hgo g Ig) as (Nz & o1 & o2 & I1 & I2 & Rest).
      split; [exact Nz|]. exists o1, o2.
      split; [apply in_or_app; now left|]. split; [apply in_or_app; now left|].
      exact Rest.
    + intros o [Io|[<-|[]]]%in_app_or.
      * apply find_replace_not_none; [exact Kp|now apply Hacc].
      * cbn [offer_owner new_row].
        erewrite find_replace_same; [discriminate|exact Kp|exact Fpa].
    + intros who a F. rewrite !count_app, !count_one.
      destruct (Z.eq_dec who (offerbet_player new_offer)) as [->|Nw].
      * erewrite find_replace_same in F; [|exact Kp|exact Fpa].
        inversion F; subst a; clear F.
        assert (owned_open (offerbet_player new_offer) new_row = true) as ->
            by (apply owned_open_true; split; reflexivity).
        rewrite owned_in_game_false by (now right). cbn [Z.b2z].
        rewrite Eo, Eg, Cpo, Cpg. split; [|lia]. apply wrap_small. lia.
      * rewrite find_replace_other in F; [|exact Kp|exact Nw].
        destruct (Hcnt _ _ F) as [Co Cg].
        rewrite owned_open_false, owned_in_game_false
          by (left; cbn [offer_owner new_row]; congruence).
        cbn [Z.b2z]. lia.
    + rewrite length_app. cbn [List.length]. lia.
    + intros gd I. specialize (Hgid gd I). lia.
  - (* match: a game is created *)
    pose proof (match_offer_some _ _ M) as (Im & Am & Dm).
    cbn [offer_owner offer_bet new_row] in Am, Dm.
    assert (In m (offers s)) as Im0.
    { apply in_app_or in Im as [I|[E|[]]]; [exact I|].
      exfalso. apply Dm. now rewrite <- E. }
    assert (offer_gameid m = 0) as Gm.
    { destruct (Z.eq_dec (offer_gameid m) 0) as [E|Ne]; [exact E|].
      destruct (Hog m Im0 Ne) as [A0 _]. unfold token_type in Pos. lia. }
    set (gid := global_nextgameid (next_game counter)) in *.
    assert (1 <= gid <= Z.of_nat (S n)) as Rgid.
    { unfold gid, next_game. cbn [global_nextgameid].
      assert (0 <= global_nextgameid counter <= Z.of_nat n) as R.
      { destruct Hc as [I|[_ ->]]; [now apply Hgid|lia]. }
      rewrite wrap_small; lia. }
    assert (gid <> 0) as Ngid by lia.
    pose proof (unique_keys_app_fresh new_row U Fresh) as U1.
    pose proof (find_unique _ U1 Im) as Fm.
    change (primary_key m) with (offer_id m) in Fm.
    assert (In new_row (offers s ++ [new_row])) as In1
        by (apply in_or_app; right; now left).
    pose proof (find_unique _ U1 In1) as Fn.
    change (primary_key new_row) with (offer_id new_row) in Fn, Fresh.
    assert (offer_id m <> offer_id new_row) as Did.
    { intros E. exact (find_none _ _ Fresh Im0 E). }
    pose proof (@unique_keys_replace_row _ _ (offer_id m) (enter_game gid m) _
                  eq_refl U1) as U2.
    assert (find (offer_id new_row)
              (replace_row (offer_id m) (enter_game gid m) (offers s ++ [new_row]))
            = Some new_row) as Fn2.
    { rewrite find_replace_other; [exact Fn|reflexivity|congruence]. }
    set (offers3 := replace_row (offer_id new_row) (enter_game gid new_row)
                      (replace_row (offer_id m) (enter_game gid m)
                         (offers s ++ [new_row]))) in *.
    assert (forall p : offer -> bool,
              count p offers3
              = count p (offers s) - Z.b2z (p m) + Z.b2z (p (enter_game gid m))
                + Z.b2z (p (enter_game gid new_row))) as Cnt.
    { intros p. unfold offers3.
      rewrite (@count_replace_row _ _ _ _ _ _ _ U2 Fn2).
      rewrite (@count_replace_row _ _ _ _ _ _ _ U1 Fm).
      rewrite count_app, count_one. lia. }
    assert (In (enter_game gid m) offers3) as Im3.
    { apply in_replace_row_other; [|exact Did].
      eapply in_replace_row_new; exact Fm. }
    assert (In (enter_game gid new_row) offers3) as In3.
    { eapply in_replace_row_new; exact Fn2. }
    assert (forall o, In o (offers s) -> o <> m -> In o offers3) as Stay.
    { intros o Io Nm. apply in_replace_row_other.
      - apply in_replace_row_other; [apply in_or_app; now left|].
        intros E. apply Nm. eapply (@same_key_same_row _ _ (offers s)); eauto.
      - intros E. exact (find_none _ _ Fresh Io E). }
    assert (forall o, In o offers3 ->
              o = enter_game gid new_row \/ o = enter_game gid m
              \/ (In o (offers s) /\ o <> m)) as Left.
    { intros o [->|[Io No]]%in_replace_row; [now left|]. right.
      apply in_replace_row in Io as [->|[Io Nmo]]; [now left|]. right.
      apply in_app_or in Io as [Io|[<-|[]]]; [|now contradiction No].
      split; [exact Io|]. intros ->. now apply Nmo. }
    set (new_game := {| game_id := gid;
                        game_bet := offerbet_bet new_offer;
                        game_deadline := 0;
                        game_player1 := {| player_commitment := offer_commitment m;
                                           player_reveal := zero256 |};
                        game_player2 :=
                          {| player_commitment := offerbet_commitment new_offer;
                             player_reveal := zero256 |} |}) in *.
    assert (find gid (games s ++ [new_game]) = Some new_game) as Fng.
    { rewrite find_app, Fgid. unfold find. cbn [List.find]. unfold has_key.
      change (primary_key new_game) with gid. now rewrite Z.eqb_refl. }
    pose proof (find_some _ _ Fma) as [_ Kma].
    set (accounts2 := replace_row (offerbet_player new_offer) pa'
                        (replace_row (offer_owner m) (offer_to_game ma) (accounts s))).
    assert (find (offerbet_player new_offer) accounts2 = Some pa') as Ap.
    { eapply find_replace_same; [exact Kp|].
      rewrite find_replace_other; [exact Fpa|exact Kma|congruence]. }
    assert (find (offer_owner m) accounts2 = Some (offer_to_game ma)) as Am2.
    { unfold accounts2. rewrite find_replace_other; [|exact Kp|exact Dm].
      eapply find_replace_same; [exact Kma|exact Fma]. }
    assert (forall who, who <> offerbet_player new_offer -> who <> offer_owner m ->
                        find who accounts2 = find who (accounts s)) as Ao.
    { intros who N1 N2. unfold accounts2.
      rewrite find_replace_other; [|exact Kp|exact N1].
      now rewrite find_replace_other; [|exact Kma|exact N2]. }
    assert (forall o, find (offer_owner o) (accounts s) <> None ->
                      find (offer_owner o) accounts2 <> None) as Keep.
    { intros o F. unfold accounts2.
      apply find_replace_not_none; [exact Kp|].
      apply find_replace_not_none; [exact Kma|exact F]. }
    destruct (Hcnt _ _ Fma) as [Cmo Cmg].
    pose proof (count_range (owned_open (offer_owner m)) (offers s)) as Rmo.
    pose proof (count_range (owned_in_game (offer_owner m)) (offers s)) as Rmg.
    assert (owned_open (offer_owner m) m = true) as Pmm
        by (apply owned_open_true; split; [reflexivity|exact Gm]).
    pose proof (count_pos _ _ _ Im0 Pmm) as Posm.
    split; cbn [offers games global_dices accounts];
      fold offers3; fold accounts2; auto.
    + intros o Io Go. destruct (Left o Io) as [->|[->|[Io0 Nm]]].
      * split; [reflexivity|]. exists new_game. split; [exact Fng|]. now right.
      * split; [reflexivity|]. exists new_game. split; [exact Fng|]. now left.
      * destruct (Hog o Io0 Go) as (A0 & g0 & F0 & S0). split; [exact A0|].
        exists g0. split; [|exact S0]. rewrite find_app. now rewrite F0.
    + intros g [Ig|[<-|[]]]%in_app_or.
      * destruct (Hgo g Ig) as (Nz & o1 & o2 & I1 & I2 & C1 & C2 & G1 & G2 & Do).
        split; [exact Nz|]. exists o1, o2.
        repeat split; auto; apply Stay; auto; congruence.
      * split; [exact Ngid|].
        exists (enter_game gid m), (enter_game gid new_row).
        repeat split; auto.
    + intros o Io. destruct (Left o Io) as [->|[->|[Io0 Nm]]].
      * cbn [enter_game offer_owner new_row]. rewrite Ap. discriminate.
      * cbn [enter_game offer_owner]. rewrite Am2. discriminate.
      * apply Keep. now apply Hacc.
    + intros who a F. rewrite !Cnt.
      destruct (Z.eq_dec who (offerbet_player new_offer)) as [->|Nw].
      { rewrite Ap in F. inversion F; subst a; clear F.
        rewrite !owned_open_false
          by (cbn [enter_game offer_owner offer_gameid new_row]; auto).
        rewrite (@owned_in_game_false _ m) by (now left).
        rewrite (@owned_in_game_false _ (enter_game gid m)) by (now left).
        assert (owned_in_game (offerbet_player new_offer) (enter_game gid new_row)
                = true) as -> by (apply owned_in_game_true; split; [reflexivity|exact Ngid]).
        cbn [Z.b2z]. rewrite Eo, Eg, Cpo, Cpg. split; [lia|].
        rewrite wrap_small; lia. }
      destruct (Z.eq_dec who (offer_owner m)) as [->|Nm].
      { rewrite Am2 in F. inversion F; subst a; clear F.
        rewrite Pmm.
        rewrite !owned_open_false
          by (cbn [enter_game offer_owner offer_gameid new_row]; auto).
        rewrite (@owned_in_game_false _ m) by (now right).
        assert (owned_in_game (offer_owner m) (enter_game gid m) = true) as ->
            by (apply owned_in_game_true; split; [reflexivity|exact Ngid]).
        rewrite (@owned_in_game_false _ (enter_game gid new_row))
          by (left; cbn [enter_game offer_owner new_row]; congruence).
        cbn [Z.b2z offer_to_game account_open_offers account_open_games].
        rewrite Cmo, Cmg. split; rewrite wrap_small; lia. }
      rewrite Ao in F by assumption. destruct (Hcnt _ _ F) as [Co Cg].
      rewrite !owned_open_false, !owned_in_game_false
        by (left; cbn [enter_game offer_owner new_row]; congruence).
      cbn [Z.b2z]. lia.
    + unfold offers3. rewrite !length_replace_row, length_app. cbn [List.length]. lia.
    + intros gd I. destruct (Hgd gd I) as [->|I0].
      * fold gid. lia.
      * specialize (Hgid gd I0). lia.
Qed.

Unset Implicit Arguments.

Lemma game_slots_differ (n : nat) (s : state) (g : game) :
  integrity n s -> In g (games s) ->
  player_commitment (game_player1 g) <> player_commitment (game_player2 g).
Proof.
  intros [[U N] Hog Hgo Hacc Hcnt Hlen Hgid] Ig E.
  destruct (Hgo g Ig) as (_ & o1 & o2 & I1 & I2 & C1 & C2 & _ & _ & Do).
  apply Do. f_equal. eapply same_commitment_same_offer; eauto. congruence.
Qed.

Lemma integrity_reveal (sha256 : list byte -> checksum256) (ctx : context)
    (r : reveal) (n : nat) (s s' : state) :
  Z.of_nat n < 2 ^ 32 ->
  integrity n s -> on_reveal sha256 ctx r s = inr s' -> integrity n s'.
Proof.
  intros Bound Inv H.
  apply on_reveal_inr in H as (co & g & Fc & Gc & Fg & H).
  apply find_key256_offer in Fc as [Ic Cc].
  pose proof (find_some _ _ Fg) as [Ig Kg].
  change (primary_key g) with (game_id g) in Kg.
  rewrite <- Kg in Fg.
  destruct H as [(po & Fp & H)|(cr & ->)];
    [|now apply integrity_record_reveal].
  apply find_key256_offer in Fp as [Ip Cp].
  pose proof (game_slots_differ _ _ _ Inv Ig) as Dg.
  assert (slot_of g (offer_commitment co)) as Sc.
  { destruct Inv as [_ Hog _ _ _ _ _].
    destruct (Hog co Ic) as (_ & g0 & F0 & S0); [lia|].
    rewrite <- Kg, Fg in F0. now inversion F0; subst. }
  assert (slot_of g (offer_commitment po)
          /\ offer_commitment co <> offer_commitment po) as [Sp Dc].
  { rewrite Cp. destruct (is_equal _ _) eqn:E.
    - apply is_equal_spec in E. split; [now right|]. congruence.
    - assert (player_commitment (game_player1 g) <> reveal_commitment r) as Ne.
      { intros E'. apply is_equal_spec in E'. congruence. }
      split; [now left|]. congruence. }
  destruct H as [H|H].
  - eapply (@integrity_settle n s s' g co po); eauto.
  - eapply (@integrity_settle n s s' g po co); eauto.
Qed.

Lemma integrity_claimexpired (ctx : context) (c : claimexpired) (n : nat)
    (s s' : state) :
  Z.of_nat n < 2 ^ 32 ->
  integrity n s -> on_claimexpired ctx c s = inr s' -> integrity n s'.
Proof.
  intros Bound Inv H.
  apply on_claimexpired_inr in H as (g & o1 & o2 & Fg & F1 & F2 & H).
  apply find_key256_offer in F1 as [I1 C1].
  apply find_key256_offer in F2 as [I2 C2].
  pose proof (find_some _ _ Fg) as [Ig Kg].
  change (primary_key g) with (game_id g) in Kg.
  rewrite <- Kg in Fg.
  pose proof (game_slots_differ _ _ _ Inv Ig) as Dg.
  assert (slot_of g (offer_commitment o1)) as S1 by now left.
  assert (slot_of g (offer_commitment o2)) as S2 by now right.
  destruct H as [H|H].
  - eapply (@integrity_settle n s s' g o1 o2); eauto. congruence.
  - eapply (@integrity_settle n s s' g o2 o1); eauto. congruence.
Qed.

Lemma integrity_step (D : account_name) (sha256 : list byte -> checksum256)
    (ctx : context) (a : action) (n : nat) (s s' : state) :
  Z.of_nat (S n) < 2 ^ 32 ->
  integrity n s -> apply D sha256 ctx a s = inr s' -> integrity (S n) s'.
Proof.
  intros Bound Inv H.
  assert (Z.of_nat n < 2 ^ 32) as Bound' by lia.
  assert (n <= S n)%nat as Le by lia.
  destruct a as [x|x|x|x|x|x]; cbn [apply] in H.
  - eapply integrity_offerbet; eassumption.
  - apply (integrity_mono Le). eapply integrity_canceloffer; eassumption.
  - apply (integrity_mono Le). eapply integrity_reveal; eassumption.
  - apply (integrity_mono Le). eapply integrity_claimexpired; eassumption.
  - apply (integrity_mono Le). eapply integrity_deposit; eassumption.
  - apply (integrity_mono Le). eapply integrity_withdraw; eassumption.
Qed.

Lemma integrity_reachable (D : account_name) (sha256 : list byte -> checksum256)
    (n : nat) (s : state) :
  reachable_in D sha256 n s -> Z.of_nat n < 2 ^ 32 -> integrity n s.
Proof.
  induction 1 as [|n s ctx a s' R IH H]; intros Bound.
  - apply integrity_init.
  - eapply integrity_step; [exact Bound| |exact H]. apply IH. lia.
Qed.

(** ** No call dereferences an end iterator *)

Lemma no_fault_bind {A B} (m : result A) (k : A -> result B) :
  no_fault m -> (forall a, m = inr a -> no_fault (k a)) -> no_fault (bind m k).
Proof.
  intros Hm Hk site. destruct m as [e|a]; simpl.
  - intros E. apply (Hm site). inversion E. reflexivity.
  - now apply Hk.
Qed.

Lemma no_fault_ok {A} (a : A) : no_fault (ok a).
Proof. intros site. discriminate. Qed.

Lemma no_fault_assert (c : bool) (msg : string) : no_fault (eosio_assert c msg).
Proof. intros site. destruct c; discriminate. Qed.

Lemma no_fault_auth (ctx : context) (who : account_name) :
  no_fault (require_auth ctx who).
Proof. intros site. unfold require_auth. destruct (authorized ctx who); discriminate. Qed.

Lemma no_fault_transfer (ctx : context) (from to : account_name) (q : Z) :
  no_fault (inline_transfer ctx from to q).
Proof.
  intros site. unfold inline_transfer.
  destruct (transfer_accepted ctx from to q); discriminate.
Qed.

Lemma no_fault_sha (sha256 : list byte -> checksum256) (data : list byte)
    (h : checksum256) :
  no_fault (assert_sha256 sha256 data h).
Proof. intros site. unfold assert_sha256. destruct (is_equal _ _); discriminate. Qed.

Lemma no_fault_emplace {T} {RowT : Row T} (r : T) (t : list T) :
  no_fault (emplace r t).
Proof. intros site. unfold emplace. destruct (find _ t); discriminate. Qed.

Lemma no_fault_token_sub (a b : Z) : no_fault (token_sub a b).
Proof. intros site. unfold token_sub. destruct (a <? b); discriminate. Qed.

Lemma no_fault_deref {A} (site : string) (itr : option A) :
  itr <> None -> no_fault (deref site itr).
Proof. intros N s. destruct itr; [discriminate|congruence]. Qed.

Lemma no_fault_modify {T} {RowT : Row T} (site : string) (i : T)
    (f : T -> result T) (t : list T) :
  find (primary_key i) t <> None -> (forall cur, no_fault (f cur)) ->
  no_fault (modify site (Some i) f t).
Proof.
  intros F Hf. unfold modify. cbn [deref bind ok].
  apply no_fault_bind; [now apply no_fault_deref|]. intros cur _.
  apply no_fault_bind; [apply Hf|]. intros new _. apply no_fault_ok.
Qed.

Lemma no_fault_modify_find {T} {RowT : Row T} (site : string) (k : Z)
    (f : T -> result T) (t : list T) :
  find k t <> None -> (forall cur, no_fault (f cur)) ->
  no_fault (modify site (find k t) f t).
Proof.
  intros F Hf. destruct (find k t) as [i|] eqn:E; [|congruence].
  apply no_fault_modify; [|exact Hf].
  pose proof (find_some _ _ E) as [_ K]. rewrite K, E. discriminate.
Qed.

Lemma no_fault_debit_open_offer (amt : Z) (cur : account) :
  no_fault (debit_open_offer amt cur).
Proof.
  unfold debit_open_offer.
  apply no_fault_bind; [apply no_fault_token_sub|intros; apply no_fault_ok].
Qed.

Lemma no_fault_debit_open_game (amt : Z) (cur : account) :
  no_fault (debit_open_game amt cur).
Proof.
  unfold debit_open_game.
  apply no_fault_bind; [apply no_fault_token_sub|intros; apply no_fault_ok].
Qed.

Lemma no_fault_debit (amt : Z) (cur : account) : no_fault (debit amt cur).
Proof.
  unfold debit.
  apply no_fault_bind; [apply no_fault_token_sub|intros; apply no_fault_ok].
Qed.

Lemma no_fault_credit (amt : Z) (cur : account) : no_fault (credit amt cur).
Proof.
  unfold credit, token_add.
  apply no_fault_bind; [apply no_fault_ok|intros; apply no_fault_ok].
Qed.

Lemma find_key256_present (c : checksum256) (l : list offer) (o : offer) :
  In o l -> offer_commitment o = c ->
  find_key256 by_commitment (get_commitment c) l <> None.
Proof.
  intros I E F. apply (find_key256_none _ _ _ F I). unfold by_commitment.
  now rewrite E.
Qed.

Lemma pay_and_clean_no_fault (g : game) (w l : offer) (s : state) :
  find (offer_owner w) (accounts s) <> None ->
  find (offer_owner l) (accounts s) <> None ->
  no_fault (pay_and_clean g w l s).
Proof.
  intros Fw Fl. unfold pay_and_clean.
  apply no_fault_bind.
  { apply no_fault_modify_find; [exact Fw|]. intros; apply no_fault_ok. }
  intros accounts1 E1.
  apply modify_find_inr in E1 as (wa & wa' & Hwa & Ew & ->).
  apply ok_inr in Ew. subst wa'. pose proof (find_some _ _ Hwa) as [_ Kw].
  assert (find (offer_owner l)
            (replace_row (offer_owner w) (credit_winner g wa) (accounts s)) <> None)
    as Fl1 by (apply find_replace_not_none; [exact Kw|exact Fl]).
  apply no_fault_bind.
  { apply no_fault_modify_find; [exact Fl1|]. intros; apply no_fault_ok. }
  intros accounts2 E2.
  apply modify_find_inr in E2 as (la & la' & Hla & El & ->).
  apply ok_inr in El. subst la'. pose proof (find_some _ _ Hla) as [_ Kl].
  apply no_fault_bind.
  { apply no_fault_deref. apply find_replace_not_none; [exact Kl|exact Fl1]. }
  intros; apply no_fault_ok.
Qed.

Lemma no_fault_canceloffer (ctx : context) (c : canceloffer) (n : nat) (s : state) :
  integrity n s -> no_fault (on_canceloffer ctx c s).
Proof.
  intros Inv. unfold on_canceloffer.
  apply no_fault_bind; [apply no_fault_assert|]. intros ? A.
  apply eosio_assert_inr, is_some_true in A as [o Fo]. rewrite Fo.
  cbn [deref bind ok].
  apply find_key256_offer in Fo as [Io _].
  apply no_fault_bind; [apply no_fault_assert|]. intros ? _.
  apply no_fault_bind; [apply no_fault_auth|]. intros ? _.
  apply no_fault_bind; [|intros; apply no_fault_ok].
  apply no_fault_modify_find; [|intros; apply no_fault_ok].
  now apply (owner_has_account Inv).
Qed.

Lemma no_fault_deposit (D : account_name) (ctx : context) (d : deposit) (s : state) :
  no_fault (on_deposit D ctx d s).
Proof.
  unfold on_deposit.
  apply no_fault_bind.
  { destruct (find _ (accounts s)); [apply no_fault_ok|apply no_fault_emplace]. }
  intros accounts1 E1.
  apply no_fault_bind; [apply no_fault_transfer|]. intros ? _.
  apply no_fault_bind; [|intros; apply no_fault_ok].
  destruct (find (deposit_from d) (accounts s)) as [acc|] eqn:F.
  - apply ok_inr in E1. subst accounts1.
    apply no_fault_modify; [|apply no_fault_credit].
    pose proof (find_some _ _ F) as [_ K]. rewrite K, F. discriminate.
  - apply emplace_inr in E1 as [_ ->].
    apply no_fault_modify; [|apply no_fault_credit].
    eapply find_not_none; [apply in_or_app; right; now left|reflexivity].
Qed.

Lemma no_fault_withdraw (D : account_name) (ctx : context) (w : withdraw)
    (s : state) :
  no_fault (on_withdraw D ctx w s).
Proof.
  unfold on_withdraw.
  apply no_fault_bind; [apply no_fault_auth|]. intros ? _.
  apply no_fault_bind; [apply no_fault_assert|]. intros ? A.
  apply eosio_assert_inr, is_some_true in A as [acc Fa].
  assert (find (withdraw_to w) (accounts s) <> None) as Fn by congruence.
  apply no_fault_bind.
  { apply no_fault_modify_find; [exact Fn|apply no_fault_debit]. }
  intros accounts1 E1.
  apply modify_find_inr in E1 as (cur & new & Fc & En & ->).
  unfold debit in En. apply bind_inr in En as (bal & _ & En). apply ok_inr in En.
  apply no_fault_bind; [apply no_fault_transfer|]. intros ? _.
  apply no_fault_bind; [|intros; apply no_fault_ok].
  pose proof (find_some _ _ Fc) as [_ Kc].
  apply no_fault_deref. apply find_replace_not_none; [now subst new|exact Fn].
Qed.

Lemma no_fault_settle (n : nat) (s : state) (g : game) (w l : offer) :
  integrity n s -> In w (offers s) -> In l (offers s) ->
  no_fault (pay_and_clean g w l s).
Proof.
  intros Inv Iw Il.
  apply pay_and_clean_no_fault; now apply (owner_has_account Inv).
Qed.

Lemma game_offers_found (n : nat) (s : state) (g : game) :
  integrity n s -> In g (games s) ->
  (exists o1, find_key256 by_commitment
                (get_commitment (player_commitment (game_player1 g))) (offers s)
              = Some o1 /\ In o1 (offers s))
  /\ (exists o2, find_key256 by_commitment
                   (get_commitment (player_commitment (game_player2 g))) (offers s)
                 = Some o2 /\ In o2 (offers s)).
Proof.
  intros Inv Ig.
  destruct (game_has_offers Inv g Ig)
    as (_ & o1 & o2 & I1 & I2 & C1 & C2 & _).
  split.
  - destruct (find_key256 _ _ (offers s)) as [x|] eqn:F.
    + exists x. split; [reflexivity|]. now apply find_key256_offer in F.
    + exfalso. exact (find_key256_present _ _ _ I1 C1 F).
  - destruct (find_key256 _ _ (offers s)) as [x|] eqn:F.
    + exists x. split; [reflexivity|]. now apply find_key256_offer in F.
    + exfalso. exact (find_key256_present _ _ _ I2 C2 F).
Qed.

Lemma no_fault_claimexpired (ctx : context) (c : claimexpired) (n : nat)
    (s : state) :
  integrity n s -> no_fault (on_claimexpired ctx c s).
Proof.
  intros Inv. unfold on_claimexpired.
  apply no_fault_bind; [apply no_fault_assert|]. intros ? A.
  apply eosio_assert_inr, is_some_true in A as [g Fg]. rewrite Fg.
  cbn [deref bind ok].
  pose proof (find_some _ _ Fg) as [Ig _].
  destruct (game_offers_found _ _ _ Inv Ig) as [(o1 & F1 & I1) (o2 & F2 & I2)].
  rewrite F1, F2.
  apply no_fault_bind; [apply no_fault_assert|]. intros ? _.
  destruct (negb _);
    (apply no_fault_bind; [apply no_fault_assert|]); intros ? _;
    cbn [deref bind ok]; eapply no_fault_settle; eauto.
Qed.

Lemma no_fault_reveal (sha256 : list byte -> checksum256) (ctx : context)
    (r : reveal) (n : nat) (s : state) :
  integrity n s -> no_fault (on_reveal sha256 ctx r s).
Proof.
  intros Inv. unfold on_reveal.
  apply no_fault_bind; [apply no_fault_sha|]. intros ? _.
  apply no_fault_bind; [apply no_fault_assert|]. intros ? A.
  apply eosio_assert_inr, is_some_true in A as [co Fc]. rewrite Fc.
  cbn [deref bind ok].
  apply find_key256_offer in Fc as [Ic _].
  apply no_fault_bind; [apply no_fault_assert|]. intros ? G.
  apply eosio_assert_inr, Z.ltb_lt in G.
  destruct (offer_has_game Inv co Ic) as (_ & g & Fg & _); [lia|].
  rewrite Fg. cbn [deref bind ok].
  pose proof (find_some _ _ Fg) as [Ig Kg].
  destruct (game_offers_found _ _ _ Inv Ig) as [(o1 & F1 & I1) (o2 & F2 & I2)].
  assert (find (offer_gameid co) (games s) <> None) as Fn by congruence.
  destruct (negb (is_equal _ _));
    (apply no_fault_bind; [apply no_fault_assert|]); intros ? _;
    destruct (negb (is_zero _)).
  - rewrite F1. cbn [deref bind ok].
    destruct (negb _); eapply no_fault_settle; eauto.
  - apply no_fault_bind; [|intros; apply no_fault_ok].
    rewrite <- Fg. apply no_fault_modify_find; [exact Fn|intros; apply no_fault_ok].
  - rewrite F2. cbn [deref bind ok].
    destruct (negb _); eapply no_fault_settle; eauto.
  - apply no_fault_bind; [|intros; apply no_fault_ok].
    rewrite <- Fg. apply no_fault_modify_find; [exact Fn|intros; apply no_fault_ok].
Qed.

Lemma no_fault_offerbet (ctx : context) (new_offer : offerbet) (n : nat)
    (s : state) :
  integrity n s -> no_fault (on_offerbet ctx new_offer s).
Proof.
  intros Inv. unfold on_offerbet. cbv zeta.
  set (new_row := {| offer_id := available_primary_key (offers s);
                     offer_owner := offerbet_player new_offer;
                     offer_bet := offerbet_bet new_offer;
                     offer_commitment := offerbet_commitment new_offer;
                     offer_gameid := 0 |}).
  apply no_fault_bind; [apply no_fault_assert|]. intros ? _.
  apply no_fault_bind; [apply no_fault_assert|]. intros ? _.
  apply no_fault_bind; [apply no_fault_auth|]. intros ? _.
  apply no_fault_bind; [apply no_fault_assert|]. intros ? A.
  apply eosio_assert_inr, is_some_true in A as [pa Fpa].
  pose proof (find_some _ _ Fpa) as [_ Kpa].
  assert (find (offerbet_player new_offer) (accounts s) <> None) as Fpn by congruence.
  apply no_fault_bind; [apply no_fault_emplace|]. intros offers1 E1.
  apply emplace_inr in E1 as [Fresh ->].
  destruct (match_offer new_row (offers s ++ [new_row])) as [m|] eqn:M.
  - pose proof (match_offer_some _ _ M) as (Im & _ & Dm).
    cbn [offer_owner new_row] in Dm.
    assert (In m (offers s)) as Im0.
    { apply in_app_or in Im as [I|[E|[]]]; [exact I|].
      exfalso. apply Dm. rewrite <- E. reflexivity. }
    apply no_fault_bind.
    { destruct (begin_ (global_dices s)); [apply no_fault_ok|apply no_fault_emplace]. }
    intros gd1 Eg1.
    assert (exists i, match begin_ (global_dices s) with
                      | Some _ => begin_ (global_dices s)
                      | None => Some {| global_id := 0; global_nextgameid := 0 |}
                      end = Some i
                      /\ find (primary_key i) gd1 <> None) as (gk & -> & Fgk).
    { destruct (begin_ (global_dices s)) as [g0|] eqn:Bg.
      - apply ok_inr in Eg1. subst gd1. exists g0. split; [reflexivity|].
        eapply find_not_none; [eapply begin_in; exact Bg|reflexivity].
      - apply emplace_inr in Eg1 as [_ ->]. eexists. split; [reflexivity|].
        eapply find_not_none; [apply in_or_app; right; now left|reflexivity]. }
    apply no_fault_bind.
    { apply no_fault_modify; [exact Fgk|intros; apply no_fault_ok]. }
    intros gd2 Eg2.
    apply modify_inr in Eg2 as (i & cur & new & Ei & Ec & En & ->).
    inversion Ei; subst i; clear Ei. apply ok_inr in En. subst new.
    cbn [deref bind ok].
    pose proof (find_some _ _ Ec) as [_ Kc].
    apply no_fault_bind.
    { apply no_fault_deref. apply find_replace_not_none; [exact Kc|exact Fgk]. }
    intros gdice _.
    apply no_fault_bind; [apply no_fault_emplace|]. intros games1 _.
    assert (find (primary_key m) (offers s ++ [new_row]) <> None) as Fm
        by (eapply find_not_none; [exact Im|reflexivity]).
    apply no_fault_bind.
    { apply no_fault_modify; [exact Fm|intros; apply no_fault_ok]. }
    intros offers2 E2.
    apply modify_inr in E2 as (i & cur2 & new & Ei & Ec2 & En & ->).
    inversion Ei; subst i; clear Ei. apply ok_inr in En. subst new.
    apply no_fault_bind.
    { apply no_fault_modify; [|intros; apply no_fault_ok].
      apply find_replace_not_none.
      - pose proof (find_some _ _ Ec2) as [_ K2]. exact K2.
      - eapply find_not_none; [apply in_or_app; right; now left|reflexivity]. }
    intros offers3 _.
    assert (find (offer_owner m) (accounts s) <> None) as Fma
        by now apply (owner_has_account Inv).
    apply no_fault_bind.
    { apply no_fault_modify_find; [exact Fma|intros; apply no_fault_ok]. }
    intros accounts1 E4.
    apply modify_find_inr in E4 as (ma & ma' & Hma & Em & ->).
    apply ok_inr in Em. subst ma'. pose proof (find_some _ _ Hma) as [_ Kma].
    apply no_fault_bind; [|intros; apply no_fault_ok].
    rewrite Fpa. apply no_fault_modify; [|apply no_fault_debit_open_game].
    rewrite Kpa. apply find_replace_not_none; [exact Kma|exact Fpn].
  - apply no_fault_bind; [|intros; apply no_fault_ok].
    apply no_fault_modify_find; [exact Fpn|apply no_fault_debit_open_offer].
Qed.

Lemma no_fault_apply (D : account_name) (sha256 : list byte -> checksum256)
    (ctx : context) (a : action) (n : nat) (s : state) :
  integrity n s -> no_fault (apply D sha256 ctx a s).
Proof.
  intros Inv. destruct a as [x|x|x|x|x|x]; cbn [apply].
  - eapply no_fault_offerbet; eauto.
  - eapply no_fault_canceloffer; eauto.
  - eapply no_fault_reveal; eauto.
  - eapply no_fault_claimexpired; eauto.
  - apply no_fault_deposit.
  - apply no_fault_withdraw.
Qed.

(** C9.  In every state reached from the empty tables by fewer than [2^32]
    calls (so that no 32-bit counter has wrapped), referential integrity
    holds: an offer with a non-zero [gameid] has a game with that id; the
    commitment of each player slot of a stored game is found in the
    commitment index of the offers; every offer's owner has an account;
    and no entry point, whatever its arguments, dereferences an end
    iterator. *)
Theorem referential_integrity (D : account_name)
    (sha256 : list byte -> checksum256) (n : nat) (s : state) :
  reachable_in D sha256 n s -> Z.of_nat n < 2 ^ 32 ->
  (forall o, In o (offers s) -> offer_gameid o <> 0 ->
             find (offer_gameid o) (games s) <> None)
  /\ (forall g, In g (games s) ->
        find_key256 by_commitment
          (get_commitment (player_commitment (game_player1 g))) (offers s) <> None
        /\ find_key256 by_commitment
             (get_commitment (player_commitment (game_player2 g))) (offers s) <> None)
  /\ (forall o, In o (offers s) -> find (offer_owner o) (accounts s) <> None)
  /\ (forall ctx a site, apply D sha256 ctx a s <> inl (end_iterator site)).
Proof.
  intros R Bound. pose proof (integrity_reachable _ _ _ _ R Bound) as Inv.
  split; [|split; [|split]].
  - intros o Io G. destruct (offer_has_game Inv o Io G) as (_ & g & F & _).
    congruence.
  - intros g Ig.
    destruct (game_offers_found _ _ _ Inv Ig) as [(o1 & F1 & _) (o2 & F2 & _)].
    split; congruence.
  - exact (owner_has_account Inv).
  - intros ctx a. exact (no_fault_apply D sha256 ctx a n s Inv).
Qed.

(** ** The open-offers counter wraps: a flooded book *)

Import Flood.

Lemma byte_of_Z_val (z : Z) : byte_val (SHA256.byte_of_Z z) = z mod 256.
Proof.
  unfold SHA256.byte_of_Z, byte_val.
  pose proof (Z.mod_pos_bound z 256 eq_refl) as R.
  destruct (Byte.of_N (Z.to_N (z mod 256))) as [b|] eqn:E.
  - apply Byte.to_of_N in E. rewrite E. lia.
  - apply Byte.of_N_None_iff in E. lia.
Qed.

Lemma le_value_le_bytes (n : nat) (z : Z) :
  le_value (le_bytes n z) = z mod 256 ^ Z.of_nat n.
Proof.
  revert z. induction n as [|n IH]; intros z.
  - cbn [le_bytes le_value]. change (256 ^ Z.of_nat 0) with 1. now rewrite Z.mod_1_r.
  - cbn [le_bytes le_value]. rewrite byte_of_Z_val, IH.
    rewrite Nat2Z.inj_succ, Z.pow_succ_r by lia.
    rewrite Z.rem_mul_r by lia. reflexivity.
Qed.

Lemma octet_of_le_bytes (z : Z) :
  octet_bytes (SHA256.octet_of (le_bytes 8 z)) = le_bytes 8 z.
Proof. reflexivity. Qed.

Lemma plain_key (j : nat) :
  Z.of_nat j < 2 ^ 64 -> p64 (plain j) 0 = Z.of_nat j.
Proof.
  intros R. unfold p64, plain. cbn [nth q0].
  rewrite octet_of_le_bytes, le_value_le_bytes.
  change (256 ^ Z.of_nat 8) with (2 ^ 64). apply Z.mod_small. lia.
Qed.

Lemma commit_not_plain (j : nat) : Scenario.commit Scenario.secret_a <> plain j.
Proof.
  intros E. apply (f_equal q1) in E. cbn [q1 plain] in E.
  vm_compute in E. discriminate E.
Qed.

Lemma mark_inj (i j : nat) :
  Z.of_nat i < 2 ^ 64 -> Z.of_nat j < 2 ^ 64 -> mark i = mark j -> i = j.
Proof.
  intros Ri Rj E. destruct i as [|i], j as [|j]; cbn [mark] in E.
  - reflexivity.
  - exfalso. exact (commit_not_plain _ E).
  - exfalso. symmetry in E. exact (commit_not_plain _ E).
  - apply Nat2Z.inj.
    rewrite <- (plain_key (S i) Ri), <- (plain_key (S j) Rj). now rewrite E.
Qed.

Lemma in_flood (i : nat) (o : offer) :
  In o (map flood_offer (seq 0 i)) <-> exists j, (j < i)%nat /\ o = flood_offer j.
Proof.
  rewrite in_map_iff. split.
  - intros (j & <- & I). apply in_seq in I. exists j. split; [lia|reflexivity].
  - intros (j & L & ->). exists j. split; [reflexivity|]. apply in_seq. lia.
Qed.

Lemma pk_gt_asym {T} {RowT : Row T} (a b : T) :
  pk_lt b a = true -> pk_lt a b = false.
Proof. unfold pk_lt. rewrite Z.ltb_lt, Z.ltb_ge. lia. Qed.

Lemma pk_gt_ntrans {T} {RowT : Row T} (a b c : T) :
  pk_lt b a = false -> pk_lt c b = false -> pk_lt c a = false.
Proof. unfold pk_lt. rewrite !Z.ltb_ge. lia. Qed.

Lemma available_primary_key_flood (i : nat) :
  available_primary_key (map flood_offer (seq 0 i)) = Z.of_nat i.
Proof.
  unfold available_primary_key.
  destruct (least _ (map flood_offer (seq 0 i))) as [m|] eqn:L.
  - pose proof (least_in _ _ L) as Im. apply in_flood in Im as (j & Lj & ->).
    destruct i as [|k]; [lia|].
    assert (In (flood_offer k) (map flood_offer (seq 0 (S k)))) as Ik.
    { apply in_flood. exists k. split; [lia|reflexivity]. }
    pose proof (least_minimal (fun a b : offer => pk_lt b a) _
                  (fun a b => pk_gt_asym a b) (fun a b c => pk_gt_ntrans a b c)
                  L _ Ik) as M.
    unfold pk_lt in M. apply Z.ltb_ge in M.
    change (primary_key (flood_offer j)) with (Z.of_nat j) in *.
    change (primary_key (flood_offer k)) with (Z.of_nat k) in *. lia.
  - apply least_none in L. destruct i as [|k]; [reflexivity|].
    rewrite seq_S in L. rewrite map_app in L. now apply app_eq_nil in L as [_ L].
Qed.

Lemma find_fresh_flood (i : nat) :
  find (Z.of_nat i) (map flood_offer (seq 0 i)) = None.
Proof.
  apply find_none_iff. intros [o [E I]]%in_map_iff.
  apply in_flood in I as (j & L & ->).
  change (primary_key (flood_offer j)) with (Z.of_nat j) in E. lia.
Qed.

Lemma has_offer_flood (k i : nat) (s : state) :
  offers s = map flood_offer (seq 0 i) -> (i <= k)%nat -> Z.of_nat k < 2 ^ 64 ->
  has_offer (mark k) s = false.
Proof.
  intros Eo Le R. unfold has_offer. rewrite Eo.
  destruct (find_key256 _ _ _) as [o|] eqn:F; [|reflexivity].
  apply find_key256_offer in F as [I C].
  apply in_flood in I as (j & L & ->). cbn [offer_commitment flood_offer] in C.
  apply mark_inj in C; lia.
Qed.

(** With the hoarder's offers in the book, a further offer of the hoarder
    finds the hoarder's own lowest offer and is not matched. *)
Lemma match_offer_flood (i : nat) :
  match_offer (flood_offer i) (map flood_offer (seq 0 i) ++ [flood_offer i]) = None.
Proof.
  unfold match_offer.
  destruct (lower_bound by_bet _ _) as [c|] eqn:L; [|reflexivity].
  apply lower_bound_in in L as [I _].
  assert (offer_owner c = hoarder) as ->.
  { apply in_app_or in I as [I|[<-|[]]]; [|reflexivity].
    apply in_flood in I as (j & _ & ->). reflexivity. }
  cbn [offer_owner flood_offer]. rewrite Z.eqb_refl, orb_true_r. reflexivity.
Qed.

Lemma flood_step (t : time) (i : nat) :
  Z.of_nat i < funds ->
  on_offerbet (Scenario.host t) (flood_bet i) (flooded i) = inr (flooded (S i)).
Proof.
  intros R. unfold funds in R.
  assert (Z.of_nat i < 2 ^ 64) as R64 by lia.
  unfold on_offerbet. cbv zeta.
  change (0 <? token_type (offerbet_bet (flood_bet i))) with true.
  cbn [eosio_assert bind ok].
  change (offerbet_commitment (flood_bet i)) with (mark i).
  change (offerbet_player (flood_bet i)) with hoarder.
  change (offerbet_bet (flood_bet i)) with {| amount := 1 |}.
  rewrite (has_offer_flood i i (flooded i) eq_refl (Nat.le_refl i) R64).
  cbn [negb eosio_assert bind ok require_auth Scenario.host authorized].
  change (find hoarder (accounts (flooded i)))
    with (Some {| account_owner := hoarder;
                  account_eos_balance := {| amount := funds - Z.of_nat i |};
                  account_open_offers := wrap 32 (Z.of_nat i);
                  account_open_games := 0 |}).
  cbn [is_some eosio_assert bind ok offers flooded].
  rewrite available_primary_key_flood.
  change {| offer_id := Z.of_nat i;
            offer_owner := hoarder;
            offer_bet := {| amount := 1 |};
            offer_commitment := mark i;
            offer_gameid := 0 |} with (flood_offer i).
  unfold emplace. change (primary_key (flood_offer i)) with (Z.of_nat i).
  rewrite find_fresh_flood. cbn [bind ok]. rewrite match_offer_flood.
  unfold modify. cbn [deref bind ok accounts flooded].
  change (find (primary_key _) [_]) with
    (Some {| account_owner := hoarder;
             account_eos_balance := {| amount := funds - Z.of_nat i |};
             account_open_offers := wrap 32 (Z.of_nat i);
             account_open_games := 0 |}).
  cbn [deref bind ok]. unfold debit_open_offer, token_sub, token_type.
  cbn [account_eos_balance amount].
  assert ((funds - Z.of_nat i <? 1) = false) as ->
      by (apply Z.ltb_ge; unfold funds; lia).
  cbn [bind ok]. unfold ok. f_equal. unfold flooded.
  cbn [games global_dices account_owner account_open_offers account_open_games].
  change (primary_key {| account_owner := hoarder;
                         account_eos_balance := {| amount := funds - Z.of_nat i |};
                         account_open_offers := wrap 32 (Z.of_nat i);
                         account_open_games := 0 |}) with hoarder.
  unfold replace_row. cbn [map]. unfold has_key.
  change (primary_key {| account_owner := hoarder;
                         account_eos_balance := {| amount := funds - Z.of_nat i |};
                         account_open_offers := wrap 32 (Z.of_nat i);
                         account_open_games := 0 |}) with hoarder.
  rewrite Z.eqb_refl, seq_S, map_app. cbn [map Nat.add].
  assert (funds - Z.of_nat i - 1 = funds - Z.of_nat (S i)) as -> by lia.
  assert (wrap 32 (wrap 32 (Z.of_nat i) + 1) = wrap 32 (Z.of_nat (S i))) as ->.
  { unfold wrap. rewrite Nat2Z.inj_succ, <- Z.add_1_r.
    now rewrite Zplus_mod_idemp_l. }
  reflexivity.
Qed.

Lemma full_value : Z.of_nat full = 2 ^ 32.
Proof. unfold full. apply Z2Nat.id. lia. Qed.

#[local] Opaque full.

Lemma flood_reachable (D : account_name) (sha256 : list byte -> checksum256)
    (i : nat) :
  Z.of_nat i <= funds -> reachable_in D sha256 (S i) (flooded i).
Proof.
  induction i as [|i IH]; intros R.
  - apply (@reach_step D sha256 0 initial_state (Scenario.host 1)
             (act_deposit {| deposit_from := hoarder;
                             deposit_amount := {| amount := funds |} |})
             (flooded 0)).
    + constructor.
    + vm_compute. reflexivity.
  - apply (@reach_step D sha256 (S i) (flooded i) (Scenario.host 2)
             (act_offerbet (flood_bet i)) (flooded (S i))).
    + apply IH. lia.
    + cbn [apply]. apply flood_step. lia.
Qed.

(** Once the counter has wrapped to zero, withdrawing the rest of the
    balance empties the account record and erases it, whatever offers the
    book holds. *)
Lemma withdraw_erases_wrapped (D : account_name) (l : list offer) :
  on_withdraw D (Scenario.host 3)
    {| withdraw_to := hoarder; withdraw_amount := {| amount := 5 |} |}
    {| offers := l; games := []; global_dices := [];
       accounts :=
         [{| account_owner := hoarder;
             account_eos_balance := {| amount := 5 |};
             account_open_offers := 0;
             account_open_games := 0 |}] |}
  = inr {| offers := l; games := []; global_dices := []; accounts := [] |}.
Proof. reflexivity. Qed.

Lemma flooded_full :
  flooded full
  = {| offers := map flood_offer (seq 0 full); games := []; global_dices := [];
       accounts :=
         [{| account_owner := hoarder;
             account_eos_balance := {| amount := 5 |};
             account_open_offers := 0;
             account_open_games := 0 |}] |}.
Proof.
  unfold flooded. rewrite full_value. reflexivity.
Qed.

Lemma orphaned_reachable (D : account_name) (sha256 : list byte -> checksum256) :
  reachable_in D sha256 (S (S full)) orphaned.
Proof.
  apply (@reach_step D sha256 (S full) (flooded full) (Scenario.host 3)
           (act_withdraw {| withdraw_to := hoarder;
                            withdraw_amount := {| amount := 5 |} |})
           orphaned).
  - apply flood_reachable. rewrite full_value. unfold funds. lia.
  - cbn [apply]. rewrite flooded_full. apply withdraw_erases_wrapped.
Qed.

Lemma deposit_into_empty (D : account_name) (l : list offer) :
  on_deposit D (Scenario.host 4)
    {| deposit_from := rival; deposit_amount := {| amount := 10 |} |}
    {| offers := l; games := []; global_dices := []; accounts := [] |}
  = inr {| offers := l; games := []; global_dices := [];
           accounts :=
             [{| account_owner := rival;
                 account_eos_balance := {| amount := 10 |};
                 account_open_offers := 0;
                 account_open_games := 0 |}] |}.
Proof. reflexivity. Qed.

Lemma contested_reachable (D : account_name) (sha256 : list byte -> checksum256) :
  reachable_in D sha256 (S (S (S full))) contested.
Proof.
  apply (@reach_step D sha256 (S (S full)) orphaned (Scenario.host 4)
           (act_deposit {| deposit_from := rival;
                           deposit_amount := {| amount := 10 |} |})
           contested).
  - apply orphaned_reachable.
  - cbn [apply]. apply deposit_into_empty.
Qed.

Section Singleton.
Context {T : Type} {RowT : Row T}.

Lemma find_singleton (r : T) : find (primary_key r) [r] = Some r.
Proof. unfold find. cbn [List.find]. unfold has_key. now rewrite Z.eqb_refl. Qed.

Lemma find_singleton_key (k : Z) (r : T) :
  primary_key r = k -> find k [r] = Some r.
Proof. intros <-. apply find_singleton. Qed.

Lemma emplace_nil (r : T) : emplace r [] = ok [r].
Proof. reflexivity. Qed.

Lemma replace_row_singleton (r new : T) :
  replace_row (primary_key r) new [r] = [new].
Proof. unfold replace_row, has_key. cbn [map]. now rewrite Z.eqb_refl. Qed.
End Singleton.

(** When the owner of the matched offer has no account, [offerbet]
    dereferences the end iterator returned by [accounts.find]. *)
Lemma offerbet_orphan_faults (ctx : context) (new_offer : offerbet) (s : state)
    (pa : account) (m : offer) :
  let new_row :=
    {| offer_id := available_primary_key (offers s);
       offer_owner := offerbet_player new_offer;
       offer_bet := offerbet_bet new_offer;
       offer_commitment := offerbet_commitment new_offer;
       offer_gameid := 0 |} in
  0 < amount (offerbet_bet new_offer) ->
  has_offer (offerbet_commitment new_offer) s = false ->
  authorized ctx (offerbet_player new_offer) = true ->
  find (offerbet_player new_offer) (accounts s) = Some pa ->
  find (offer_id new_row) (offers s) = None ->
  match_offer new_row (offers s ++ [new_row]) = Some m ->
  games s = [] -> global_dices s = [] ->
  find (offer_owner m) (accounts s) = None ->
  on_offerbet ctx new_offer s
  = inl (end_iterator "accounts.find(matched_offer_itr->owner)").
Proof.
  intros new_row Pos Hh Au Fpa Fresh M Eg Egd Fm.
  unfold on_offerbet. cbv zeta. fold new_row.
  apply Z.ltb_lt in Pos. unfold token_type. rewrite Pos, Hh.
  unfold require_auth. rewrite Au, Fpa.
  cbn [negb is_some eosio_assert bind ok].
  unfold emplace at 1. change (primary_key new_row) with (offer_id new_row).
  rewrite Fresh. cbn [bind ok]. rewrite M, Egd, Eg, Fm.
  pose proof (match_offer_some _ _ M) as (Im & _ & Dm).
  assert (offer_id m <> offer_id new_row) as Did.
  { apply in_app_or in Im as [I|[E|[]]].
    - intros E. exact (find_none _ _ Fresh I E).
    - exfalso. apply Dm. rewrite <- E. reflexivity. }
  destruct (find (primary_key m) (offers s ++ [new_row])) as [cur|] eqn:Fc;
    [|exfalso; exact (find_none _ _ Fc Im eq_refl)].
  pose proof (find_some _ _ Fc) as [_ Kc].
  assert (find (primary_key new_row)
            (replace_row (primary_key m)
               (enter_game
                  (global_nextgameid
                     (next_game {| global_id := 0; global_nextgameid := 0 |})) cur)
               (offers s ++ [new_row])) <> None) as Fn.
  { apply find_replace_not_none; [exact Kc|].
    eapply find_not_none; [apply in_or_app; right; now left|reflexivity]. }
  destruct (find (primary_key new_row) _) as [cur'|] eqn:Fc'; [|congruence].
  cbn [begin_ least].
  rewrite emplace_nil. cbn [bind ok].
  erewrite modify_found by apply find_singleton. cbn [bind ok deref].
  rewrite replace_row_singleton.
  erewrite find_singleton_key by reflexivity. cbn [bind ok deref].
  rewrite emplace_nil. cbn [bind ok game_id].
  erewrite modify_found by exact Fc. cbn [bind ok].
  erewrite modify_found by exact Fc'. cbn [bind ok].
  reflexivity.
Qed.

(** A bet of another owner against the flooded book is matched with the
    hoarder's first offer. *)
Lemma match_offer_rival (i k : nat) :
  (0 < i)%nat ->
  let new_row :=
    {| offer_id := Z.of_nat i; offer_owner := rival;
       offer_bet := {| amount := 1 |}; offer_commitment := mark k;
       offer_gameid := 0 |} in
  match_offer new_row (map flood_offer (seq 0 i) ++ [new_row])
  = Some (flood_offer 0).
Proof.
  intros Pos new_row. unfold match_offer.
  destruct (lower_bound by_bet _ _) as [c|] eqn:L.
  - assert (c = flood_offer 0) as ->.
    { pose proof (lower_bound_in _ _ _ L) as [I _].
      assert (In (flood_offer 0) (map flood_offer (seq 0 i) ++ [new_row])) as I0.
      { apply in_or_app. left. apply in_flood. exists 0%nat.
        split; [lia|reflexivity]. }
      apply in_app_or in I as [I|[<-|[]]].
      - apply in_flood in I as (j & Lj & ->).
        destruct (lower_bound_first _ _ _ L I0 (Z.le_refl _)) as [F|[_ F]].
        + exfalso. revert F. apply Z.lt_irrefl.
        + change (Z.of_nat j <= Z.of_nat 0) in F.
          assert (j = 0)%nat as -> by lia. reflexivity.
      - destruct (lower_bound_first _ _ _ L I0 (Z.le_refl _)) as [F|[_ F]].
        + exfalso. revert F. apply Z.lt_irrefl.
        + change (Z.of_nat i <= Z.of_nat 0) in F. lia. }
    reflexivity.
  - exfalso. unfold lower_bound in L. apply least_none in L.
    assert (In new_row
              (filter (fun r => wrap 64 (amount (offer_bet new_row)) <=? by_bet r)
                 (map flood_offer (seq 0 i) ++ [new_row]))) as F.
    { apply filter_In. split; [apply in_or_app; right; now left|reflexivity]. }
    rewrite L in F. contradiction.
Qed.

(** Beyond that bound the lookups are no longer safe: the rival's bet is
    matched with an offer whose owner has no account, and the call
    dereferences the end iterator. *)
Lemma rival_bet_faults :
  on_offerbet (Scenario.host 5) rival_bet contested
  = inl (end_iterator "accounts.find(matched_offer_itr->owner)").
Proof.
  assert (Z.of_nat (S full) < 2 ^ 64) as R64
      by (rewrite Nat2Z.inj_succ, full_value; lia).
  assert (0 < full)%nat as Pos by (pose proof full_value; lia).
  apply (offerbet_orphan_faults (Scenario.host 5) rival_bet contested
           {| account_owner := rival;
              account_eos_balance := {| amount := 10 |};
              account_open_offers := 0;
              account_open_games := 0 |}
           (flood_offer 0)).
  - reflexivity.
  - exact (has_offer_flood (S full) full contested eq_refl (Nat.le_succ_diag_r full) R64).
  - reflexivity.
  - reflexivity.
  - cbn [offer_id]. change (offers contested) with (map flood_offer (seq 0 full)).
    rewrite available_primary_key_flood. apply find_fresh_flood.
  - change (offers contested) with (map flood_offer (seq 0 full)).
    rewrite available_primary_key_flood.
    exact (match_offer_rival full (S full) Pos).
  - reflexivity.
  - reflexivity.
  - reflexivity.
Qed.

(** *** Tables whose rows are numbered by their position *)

Section Ranked.
Context {T : Type} {RowT : Row T}.
Variable f : nat -> T.
Hypothesis rank : forall j, primary_key (f j) = Z.of_nat j.

Lemma in_ranked (m : nat) (r : T) :
  In r (map f (seq 0 m)) <-> exists j, (j < m)%nat /\ r = f j.
Proof.
  rewrite in_map_iff. split.
  - intros (j & <- & I). apply in_seq in I. exists j. split; [lia|reflexivity].
  - intros (j & L & ->). exists j. split; [reflexivity|]. apply in_seq. lia.
Qed.

Lemma find_ranked_fresh (m j : nat) :
  (m <= j)%nat -> find (Z.of_nat j) (map f (seq 0 m)) = None.
Proof.
  intros L. apply find_none_iff. intros [r [E I]]%in_map_iff.
  apply in_ranked in I as (i & Li & ->). rewrite rank in E. lia.
Qed.

Lemma find_ranked (m j : nat) :
  (j < m)%nat -> find (Z.of_nat j) (map f (seq 0 m)) = Some (f j).
Proof.
  induction m as [|m IH]; [lia|]. intros L.
  rewrite seq_S, map_app, find_app. cbn [Nat.add map].
  destruct (Nat.eq_dec j m) as [->|N].
  - rewrite find_ranked_fresh by lia. apply find_singleton_key, rank.
  - rewrite IH by lia. reflexivity.
Qed.

Lemma available_primary_key_ranked (m : nat) :
  available_primary_key (map f (seq 0 m)) = Z.of_nat m.
Proof.
  unfold available_primary_key.
  destruct (least _ (map f (seq 0 m))) as [r|] eqn:L.
  - pose proof (least_in _ _ L) as Ir. apply in_ranked in Ir as (j & Lj & ->).
    destruct m as [|k]; [lia|].
    assert (In (f k) (map f (seq 0 (S k)))) as Ik.
    { apply in_ranked. exists k. split; [lia|reflexivity]. }
    pose proof (least_minimal (fun a b : T => pk_lt b a) _
                  (fun a b => pk_gt_asym a b) (fun a b c => pk_gt_ntrans a b c)
                  L _ Ik) as M.
    unfold pk_lt in M. apply Z.ltb_ge in M. rewrite !rank in *. lia.
  - apply least_none in L. destruct m as [|k]; [reflexivity|].
    rewrite seq_S, map_app in L. now destruct (map f (seq 0 k)).
Qed.

Lemma replace_row_ranked (m j : nat) (new : T) :
  replace_row (Z.of_nat j) new (map f (seq 0 m))
  = map (fun i => if (i =? j)%nat then new else f i) (seq 0 m).
Proof.
  unfold replace_row. rewrite map_map. apply map_ext. intros i.
  unfold has_key. rewrite rank.
  destruct (Nat.eqb_spec i j) as [->|N]; [now rewrite Z.eqb_refl|].
  destruct (Z.eqb_spec (Z.of_nat i) (Z.of_nat j)); [lia|reflexivity].
Qed.
End Ranked.

Lemma emplace_fresh {T} {RowT : Row T} (r : T) (t : list T) :
  find (primary_key r) t = None -> emplace r t = ok (t ++ [r]).
Proof. unfold emplace. now intros ->. Qed.

Lemma replace_row_app {T} {RowT : Row T} (k : Z) (new : T) (a b : list T) :
  replace_row k new (a ++ b) = replace_row k new a ++ replace_row k new b.
Proof. unfold replace_row. apply map_app. Qed.

Lemma replace_row_miss {T} {RowT : Row T} (k : Z) (new r : T) :
  primary_key r <> k -> replace_row k new [r] = [r].
Proof.
  intros N. unfold replace_row, has_key. cbn [map].
  now destruct (Z.eqb_spec (primary_key r) k).
Qed.

(** *** The matched offers *)

Lemma paired_offer_id (n k j : nat) :
  primary_key (paired_offer n k j) = Z.of_nat j.
Proof.
  unfold paired_offer. now destruct (j <? n)%nat, (j <? k)%nat.
Qed.

Lemma paired_offer_commitment (n k j : nat) :
  offer_commitment (paired_offer n k j) = mark j.
Proof.
  unfold paired_offer. now destruct (j <? n)%nat, (j <? k)%nat.
Qed.

Lemma paired_offer_open (n k : nat) :
  (k < n)%nat -> paired_offer n k k = flood_offer k.
Proof.
  intros L. unfold paired_offer.
  apply Nat.ltb_lt in L. rewrite L, Nat.ltb_irrefl. reflexivity.
Qed.

Lemma has_offer_paired (n k c : nat) :
  (n + k <= c)%nat -> Z.of_nat c < 2 ^ 64 -> has_offer (mark c) (paired n k) = false.
Proof.
  intros Le R. unfold has_offer. cbn [offers paired].
  destruct (find_key256 _ _ _) as [o|] eqn:F; [|reflexivity].
  apply find_key256_offer in F as [I C].
  apply (in_ranked (paired_offer n k)) in I as (j & L & ->).
  rewrite paired_offer_commitment in C. apply mark_inj in C; lia.
Qed.

(** The commitment index finds each offer of the paired book. *)
Lemma find_commitment_paired (n k j : nat) :
  (j < n + k)%nat -> Z.of_nat (n + k) < 2 ^ 64 ->
  find_key256 by_commitment (get_commitment (mark j))
    (map (paired_offer n k) (seq 0 (n + k)))
  = Some (paired_offer n k j).
Proof.
  intros L R.
  assert (In (paired_offer n k j) (map (paired_offer n k) (seq 0 (n + k)))) as I.
  { apply (in_ranked (paired_offer n k)). exists j. split; [exact L|reflexivity]. }
  destruct (find_key256 _ _ _) as [o|] eqn:F.
  - apply find_key256_offer in F as [Io C].
    apply (in_ranked (paired_offer n k)) in Io as (i & Li & ->).
    rewrite paired_offer_commitment in C. apply mark_inj in C; [|lia|lia].
    now subst.
  - exfalso. apply (find_key256_none _ _ _ F I). unfold by_commitment.
    now rewrite paired_offer_commitment.
Qed.

(** The rival's bet finds the hoarder's first offer that is still open. *)
Lemma match_offer_paired (n k : nat) :
  (k < n)%nat ->
  let new_row :=
    {| offer_id := Z.of_nat (n + k); offer_owner := rival;
       offer_bet := {| amount := 1 |}; offer_commitment := mark (n + k);
       offer_gameid := 0 |} in
  match_offer new_row (map (paired_offer n k) (seq 0 (n + k)) ++ [new_row])
  = Some (flood_offer k).
Proof.
  intros Lk new_row. unfold match_offer.
  destruct (lower_bound by_bet _ _) as [c|] eqn:L.
  - assert (c = flood_offer k) as ->; [|reflexivity].
    pose proof (lower_bound_in _ _ _ L) as [I X].
    assert (In (flood_offer k)
              (map (paired_offer n k) (seq 0 (n + k)) ++ [new_row])) as I0.
    { apply in_or_app. left. apply (in_ranked (paired_offer n k)). exists k.
      split; [lia|]. symmetry. now apply paired_offer_open. }
    pose proof (lower_bound_first _ _ _ L I0 (Z.le_refl _)) as F.
    apply in_app_or in I as [I|[<-|[]]].
    + apply (in_ranked (paired_offer n k)) in I as (j & Lj & ->).
      unfold paired_offer in *.
      destruct (Nat.ltb_spec j n) as [Ljn|Ljn].
      * destruct (Nat.ltb_spec j k) as [Ljk|Ljk].
        -- exfalso. apply X. reflexivity.
        -- destruct F as [F|[_ F]]; [exfalso; revert F; apply Z.lt_irrefl|].
           change (Z.of_nat j <= Z.of_nat k) in F.
           assert (j = k) as -> by lia. reflexivity.
      * exfalso. apply X. reflexivity.
    + destruct F as [F|[_ F]]; [exfalso; revert F; apply Z.lt_irrefl|].
      change (Z.of_nat (n + k) <= Z.of_nat k) in F. lia.
  - exfalso. unfold lower_bound in L. apply least_none in L.
    assert (In new_row
              (filter (fun r => wrap 64 (amount (offer_bet new_row)) <=? by_bet r)
                 (map (paired_offer n k) (seq 0 (n + k)) ++ [new_row]))) as F.
    { apply filter_In. split; [apply in_or_app; right; now left|reflexivity]. }
    rewrite L in F. contradiction.
Qed.

(** The book after the two matched offers have entered game [k + 1]. *)
Lemma paired_offers_next (n k : nat) (new_row : offer) :
  (k < n)%nat ->
  new_row = {| offer_id := Z.of_nat (n + k); offer_owner := rival;
               offer_bet := {| amount := 1 |}; offer_commitment := mark (n + k);
               offer_gameid := 0 |} ->
  replace_row (primary_key new_row) (enter_game (Z.of_nat k + 1) new_row)
    (replace_row (primary_key (flood_offer k))
       (enter_game (Z.of_nat k + 1) (flood_offer k))
       (map (paired_offer n k) (seq 0 (n + k)) ++ [new_row]))
  = map (paired_offer n (S k)) (seq 0 (n + S k)).
Proof.
  intros Lk ->.
  change (primary_key (flood_offer k)) with (Z.of_nat k).
  cbn [primary_key offer_row offer_id].
  rewrite !replace_row_app.
  rewrite (replace_row_ranked (paired_offer n k) (paired_offer_id n k)).
  rewrite (replace_row_miss (Z.of_nat k)) by (cbn; lia).
  rewrite Nat.add_succ_r, seq_S, map_app. cbn [Nat.add map]. f_equal.
  - unfold replace_row. rewrite map_map. apply map_ext_in.
    intros j Ij. apply in_seq in Ij. unfold has_key.
    destruct (Nat.eqb_spec j k) as [->|N].
    + change (primary_key (enter_game (Z.of_nat k + 1) (flood_offer k)))
        with (Z.of_nat k).
      destruct (Z.eqb_spec (Z.of_nat k) (Z.of_nat (n + k))); [lia|].
      unfold paired_offer.
      destruct (Nat.ltb_spec k n); [|lia].
      destruct (Nat.ltb_spec k (S k)); [|lia]. reflexivity.
    + rewrite paired_offer_id.
      destruct (Z.eqb_spec (Z.of_nat j) (Z.of_nat (n + k))); [lia|].
      unfold paired_offer.
      destruct (Nat.ltb_spec j n); [|reflexivity].
      destruct (Nat.ltb_spec j k), (Nat.ltb_spec j (S k)); try lia; reflexivity.
  - unfold replace_row, has_key. cbn [map primary_key offer_row offer_id].
    rewrite Z.eqb_refl. unfold paired_offer, enter_game.
    destruct (Nat.ltb_spec (n + k) n); [lia|].
    cbn [offer_id offer_owner offer_commitment].
    replace (n + k - n)%nat with k by lia. reflexivity.
Qed.

Lemma paired_games_fresh (n k : nat) :
  find (Z.of_nat k + 1) (map (paired_game n) (seq 0 k)) = None.
Proof.
  apply find_none_iff. intros [g [E I]]%in_map_iff.
  apply in_map_iff in I as (j & <- & I). apply in_seq in I.
  change (Z.of_nat j + 1 = Z.of_nat k + 1) in E. lia.
Qed.

(** The game counter after one more game: the row is created by the
    first match and incremented by every match. *)
Lemma counter_next (k : nat) :
  Z.of_nat k + 1 < 2 ^ 64 ->
  [next_game {| global_id := 0; global_nextgameid := Z.of_nat k |}]
  = counter (S k).
Proof.
  intros R. unfold next_game, counter. cbn [global_id global_nextgameid].
  rewrite wrap_small by lia. now rewrite Nat2Z.inj_succ, <- Z.add_1_r.
Qed.

(** One bet of the rival: matched with the hoarder's offer [k]. *)
Lemma pair_step (t : time) (n k : nat) :
  (k < n)%nat -> Z.of_nat (n + k) < 2 ^ 63 -> Z.of_nat k < purse ->
  on_offerbet (Scenario.host t) (counter_bet n k) (paired n k)
  = inr (paired n (S k)).
Proof.
  intros Lk R P.
  assert (Z.of_nat (n + k) < 2 ^ 64) as R64 by lia.
  unfold on_offerbet. cbv zeta.
  change (0 <? token_type (offerbet_bet (counter_bet n k))) with true.
  cbn [eosio_assert bind ok].
  change (offerbet_commitment (counter_bet n k)) with (mark (n + k)).
  change (offerbet_player (counter_bet n k)) with rival.
  change (offerbet_bet (counter_bet n k)) with {| amount := 1 |}.
  rewrite (has_offer_paired n k (n + k) (Nat.le_refl _) R64).
  cbn [negb eosio_assert bind ok require_auth Scenario.host authorized].
  change (find rival (accounts (paired n k)))
    with (Some {| account_owner := rival;
                  account_eos_balance := {| amount := purse - Z.of_nat k |};
                  account_open_offers := 0;
                  account_open_games := wrap 32 (Z.of_nat k) |}).
  cbn [is_some eosio_assert bind ok offers games global_dices accounts paired].
  rewrite (available_primary_key_ranked (paired_offer n k) (paired_offer_id n k)).
  rewrite emplace_fresh
    by apply (find_ranked_fresh (paired_offer n k) (paired_offer_id n k)), Nat.le_refl.
  cbn [bind ok]. rewrite (match_offer_paired n k Lk).
  assert (match begin_ (counter k) with
          | None => emplace {| global_id := 0; global_nextgameid := 0 |} (counter k)
          | Some _ => ok (counter k)
          end = ok [{| global_id := 0; global_nextgameid := Z.of_nat k |}]) as ->
      by (destruct k; reflexivity).
  assert (match begin_ (counter k) with
          | None => Some {| global_id := 0; global_nextgameid := 0 |}
          | Some _ => begin_ (counter k)
          end = Some {| global_id := 0; global_nextgameid := Z.of_nat k |}) as ->
      by (destruct k; reflexivity).
  cbn [bind ok deref].
  erewrite modify_found by apply find_singleton. cbn [bind ok].
  rewrite replace_row_singleton.
  erewrite find_singleton_key by reflexivity. cbn [bind ok deref].
  cbn [next_game global_id global_nextgameid game_id offer_bet offer_commitment
       flood_offer].
  rewrite (@wrap_small 64 (Z.of_nat k + 1)) by lia.
  rewrite emplace_fresh by apply paired_games_fresh. cbn [bind ok].
  erewrite modify_found
    by (change (primary_key (flood_offer k)) with (Z.of_nat k);
        rewrite find_app,
          (find_ranked (paired_offer n k) (paired_offer_id n k)) by lia;
        reflexivity).
  cbn [bind ok]. rewrite (paired_offer_open n k Lk).
  set (new_row := {| offer_id := Z.of_nat (n + k); offer_owner := rival;
                     offer_bet := {| amount := 1 |};
                     offer_commitment := mark (n + k); offer_gameid := 0 |}).
  erewrite modify_found.
  2:{ rewrite find_replace_other; [|reflexivity|cbn; lia].
      change (primary_key new_row) with (Z.of_nat (n + k)).
      rewrite find_app,
        (find_ranked_fresh (paired_offer n k) (paired_offer_id n k)) by lia.
      exact (find_singleton_key (Z.of_nat (n + k)) new_row eq_refl). }
  cbn [bind ok]. rewrite (paired_offers_next n k new_row Lk eq_refl).
  set (hacc := {| account_owner := hoarder;
                  account_eos_balance := {| amount := funds - Z.of_nat n |};
                  account_open_offers := wrap 32 (Z.of_nat n - Z.of_nat k);
                  account_open_games := wrap 32 (Z.of_nat k) |}).
  set (racc := {| account_owner := rival;
                  account_eos_balance := {| amount := purse - Z.of_nat k |};
                  account_open_offers := 0;
                  account_open_games := wrap 32 (Z.of_nat k) |}).
  change (find (offer_owner (flood_offer k)) [hacc; racc]) with (Some hacc).
  erewrite modify_found by reflexivity. cbn [bind ok].
  change (replace_row (primary_key hacc) (offer_to_game hacc) [hacc; racc])
    with [offer_to_game hacc; racc].
  erewrite modify_found by reflexivity.
  unfold debit_open_game, token_sub, token_type.
  cbn [racc account_eos_balance amount].
  assert ((purse - Z.of_nat k <? 1) = false) as -> by (apply Z.ltb_ge; lia).
  cbn [bind ok].
  rewrite counter_next by lia.
  unfold ok, paired. f_equal. f_equal.
  - rewrite seq_S, map_app. reflexivity.
  - change (replace_row (primary_key racc) ?r [offer_to_game hacc; racc])
      with [offer_to_game hacc; r].
    unfold offer_to_game, hacc, racc.
    cbn [account_owner account_eos_balance account_open_offers account_open_games].
    assert (wrap 32 (wrap 32 (Z.of_nat n - Z.of_nat k) - 1)
            = wrap 32 (Z.of_nat n - Z.of_nat (S k))) as ->.
    { unfold wrap. rewrite Zminus_mod_idemp_l. f_equal. lia. }
    assert (wrap 32 (wrap 32 (Z.of_nat k) + 1) = wrap 32 (Z.of_nat (S k))) as ->.
    { unfold wrap. rewrite Zplus_mod_idemp_l. f_equal. lia. }
    assert (purse - Z.of_nat k - 1 = purse - Z.of_nat (S k)) as -> by lia.
    reflexivity.
Qed.

Lemma paired_start (n : nat) :
  paired n 0
  = {| offers := map flood_offer (seq 0 n); games := []; global_dices := [];
       accounts :=
         [{| account_owner := hoarder;
             account_eos_balance := {| amount := funds - Z.of_nat n |};
             account_open_offers := wrap 32 (Z.of_nat n);
             account_open_games := 0 |};
          {| account_owner := rival;
             account_eos_balance := {| amount := purse |};
             account_open_offers := 0;
             account_open_games := 0 |}] |}.
Proof.
  unfold paired. rewrite Nat.add_0_r, Z.sub_0_r.
  cbn [seq map counter Z.of_nat]. f_equal.
  apply map_ext_in. intros j Ij. apply in_seq in Ij. unfold paired_offer.
  destruct (Nat.ltb_spec j n); [reflexivity|lia].
Qed.

Lemma deposit_rival (D : account_name) (n : nat) :
  on_deposit D (Scenario.host 4)
    {| deposit_from := rival; deposit_amount := {| amount := purse |} |}
    (flooded n)
  = inr (paired n 0).
Proof. rewrite paired_start. reflexivity. Qed.

Lemma paired_reachable (D : account_name) (sha256 : list byte -> checksum256)
    (n k : nat) :
  (k <= n)%nat -> Z.of_nat n <= 2 ^ 32 ->
  reachable_in D sha256 (k + S (S n)) (paired n k).
Proof.
  intros Lk R. induction k as [|k IH].
  - apply (@reach_step D sha256 (S n) (flooded n) (Scenario.host 4)
             (act_deposit {| deposit_from := rival;
                             deposit_amount := {| amount := purse |} |})
             (paired n 0)).
    + apply flood_reachable. unfold funds. lia.
    + cbn [apply]. apply deposit_rival.
  - apply (@reach_step D sha256 (k + S (S n)) (paired n k) (Scenario.host 5)
             (act_offerbet (counter_bet n k)) (paired n (S k))).
    + apply IH. lia.
    + cbn [apply]. apply pair_step; [lia|lia|unfold purse; lia].
Qed.

Lemma paired_offer_taken (n k j : nat) :
  (j < k)%nat -> (k <= n)%nat ->
  paired_offer n k j
  = {| offer_id := Z.of_nat j; offer_owner := hoarder;
       offer_bet := {| amount := 0 |}; offer_commitment := mark j;
       offer_gameid := Z.of_nat j + 1 |}.
Proof.
  intros Lj Lk. unfold paired_offer.
  destruct (Nat.ltb_spec j n); [|lia]. destruct (Nat.ltb_spec j k); [|lia].
  reflexivity.
Qed.

Lemma find_paired_game (n k j : nat) :
  (j < k)%nat ->
  find (Z.of_nat j + 1) (map (paired_game n) (seq 0 k)) = Some (paired_game n j).
Proof.
  induction k as [|k IH]; [lia|]. intros L.
  rewrite seq_S, map_app, find_app. cbn [Nat.add map].
  destruct (Nat.eq_dec j k) as [->|N].
  - rewrite paired_games_fresh. now apply find_singleton_key.
  - rewrite IH by lia. reflexivity.
Qed.

(** With both counters wrapped to zero, withdrawing the rest of the
    balance erases the hoarder's account, whatever the other tables
    hold. *)
Lemma withdraw_erases_in_game (D : account_name) (l : list offer)
    (g : list game) (c : list global_dice) :
  on_withdraw D (Scenario.host 6)
    {| withdraw_to := hoarder; withdraw_amount := {| amount := 5 |} |}
    {| offers := l; games := g; global_dices := c;
       accounts :=
         [{| account_owner := hoarder;
             account_eos_balance := {| amount := 5 |};
             account_open_offers := 0;
             account_open_games := 0 |};
          {| account_owner := rival;
             account_eos_balance := {| amount := 0 |};
             account_open_offers := 0;
             account_open_games := 0 |}] |}
  = inr {| offers := l; games := g; global_dices := c;
           accounts :=
             [{| account_owner := rival;
                 account_eos_balance := {| amount := 0 |};
                 account_open_offers := 0;
                 account_open_games := 0 |}] |}.
Proof. reflexivity. Qed.

Lemma paired_full :
  paired full full
  = {| offers := offers abandoned; games := games abandoned;
       global_dices := global_dices abandoned;
       accounts :=
         [{| account_owner := hoarder;
             account_eos_balance := {| amount := 5 |};
             account_open_offers := 0;
             account_open_games := 0 |};
          {| account_owner := rival;
             account_eos_balance := {| amount := 0 |};
             account_open_offers := 0;
             account_open_games := 0 |}] |}.
Proof.
  unfold paired, abandoned. cbn [offers games global_dices].
  rewrite full_value. reflexivity.
Qed.

Lemma abandoned_reachable (D : account_name) (sha256 : list byte -> checksum256) :
  reachable_in D sha256 (S (full + S (S full))) abandoned.
Proof.
  apply (@reach_step D sha256 (full + S (S full)) (paired full full)
           (Scenario.host 6)
           (act_withdraw {| withdraw_to := hoarder;
                            withdraw_amount := {| amount := 5 |} |})
           abandoned).
  - apply paired_reachable; [apply Nat.le_refl|rewrite full_value; lia].
  - cbn [apply]. rewrite paired_full. apply withdraw_erases_in_game.
Qed.

(** The first reveal of a game, made by the player of the first slot, is
    written to that slot and starts the deadline. *)
Lemma reveal_first_records (sha256 : list byte -> checksum256) (ctx : context)
    (r : reveal) (lo : list offer) (lg : list game) (gd : list global_dice)
    (la : list account) (o : offer) (g : game) :
  sha256 (checksum_bytes (reveal_source r)) = reveal_commitment r ->
  find_key256 by_commitment (get_commitment (reveal_commitment r)) lo = Some o ->
  0 < offer_gameid o ->
  find (offer_gameid o) lg = Some g ->
  player_commitment (game_player1 g) = reveal_commitment r ->
  player_reveal (game_player1 g) = zero256 ->
  player_reveal (game_player2 g) = zero256 ->
  on_reveal sha256 ctx r
    {| offers := lo; games := lg; global_dices := gd; accounts := la |}
  = inr {| offers := lo;
           games :=
             replace_row (offer_gameid o)
               {| game_id := game_id g;
                  game_bet := game_bet g;
                  game_deadline := wrap 32 (now ctx + FIVE_MINUTES);
                  game_player1 := set_reveal (game_player1 g) (reveal_source r);
                  game_player2 := game_player2 g |}
               lg;
           global_dices := gd;
           accounts := la |}.
Proof.
  intros Hs Ho Hg Fg C1 Z1 Z2.
  assert (forall c, is_equal c c = true) as Refl
      by (intros c; now apply is_equal_spec).
  pose proof (find_some _ _ Fg) as [_ Kg].
  unfold on_reveal, assert_sha256. cbv zeta.
  cbn [offers games global_dices accounts]. rewrite Hs, Refl, Ho.
  cbn [bind ok is_some eosio_assert deref].
  apply Z.ltb_lt in Hg. rewrite Hg, Fg. cbn [bind ok eosio_assert deref].
  rewrite C1, Refl. cbn [bind ok eosio_assert deref negb]. rewrite Z1, Z2.
  change (is_zero zero256) with true. cbn [bind ok eosio_assert negb].
  erewrite modify_found by (rewrite Kg; exact Fg). cbn [bind ok]. rewrite Kg.
  unfold record_reveal. cbv zeta. rewrite Refl. reflexivity.
Qed.

(** Claiming an expired game whose revealing player has no account
    dereferences the end iterator of the accounts table. *)
Lemma claimexpired_orphan_faults (ctx : context) (c : claimexpired)
    (lo : list offer) (lg : list game) (gd : list global_dice)
    (la : list account) (g : game) (o1 o2 : offer) :
  find (claimexpired_gameid c) lg = Some g ->
  game_deadline g <> 0 -> game_deadline g < now ctx ->
  is_zero (player_reveal (game_player1 g)) = false ->
  is_zero (player_reveal (game_player2 g)) = true ->
  find_key256 by_commitment
    (get_commitment (player_commitment (game_player1 g))) lo = Some o1 ->
  find_key256 by_commitment
    (get_commitment (player_commitment (game_player2 g))) lo = Some o2 ->
  find (offer_owner o1) la = None ->
  on_claimexpired ctx c
    {| offers := lo; games := lg; global_dices := gd; accounts := la |}
  = inl (end_iterator "winner_account").
Proof.
  intros Fg D0 Dl Z1 Z2 F1 F2 Fa.
  unfold on_claimexpired. cbn [offers games global_dices accounts].
  rewrite Fg. cbn [is_some eosio_assert bind ok deref].
  apply Z.eqb_neq in D0. apply Z.ltb_lt in Dl. rewrite D0, Dl, Z1, Z2, F1, F2.
  cbn [negb andb eosio_assert bind ok deref].
  unfold pay_and_clean. cbn [accounts]. rewrite Fa. reflexivity.
Qed.

Lemma full_bounds : (0 < full)%nat /\ Z.of_nat (full + full) < 2 ^ 64.
Proof. rewrite Nat2Z.inj_add. pose proof full_value. lia. Qed.

Lemma first_taken_found :
  find_key256 by_commitment (get_commitment (mark 0))
    (map (paired_offer full full) (seq 0 (full + full)))
  = Some first_taken.
Proof.
  destruct full_bounds as [P R].
  rewrite find_commitment_paired by (exact R || lia).
  rewrite paired_offer_taken by (exact P || apply Nat.le_refl). reflexivity.
Qed.

(** The secret of the hoarder's first offer is revealed. *)
Lemma reveal_in_abandoned (t : time) :
  on_reveal SHA256.sha256 (Scenario.host t)
    {| reveal_commitment := mark 0; reveal_source := Scenario.secret_a |}
    abandoned
  = inr (exposed t).
Proof.
  destruct full_bounds as [P R]. unfold abandoned, exposed.
  apply (reveal_first_records SHA256.sha256 (Scenario.host t)
           {| reveal_commitment := mark 0; reveal_source := Scenario.secret_a |}
           (map (paired_offer full full) (seq 0 (full + full)))
           (map (paired_game full) (seq 0 full))
           (counter full) _ first_taken (paired_game full 0)).
  - reflexivity.
  - exact first_taken_found.
  - reflexivity.
  - exact (find_paired_game full full 0 P).
  - reflexivity.
  - reflexivity.
  - reflexivity.
Qed.

Lemma exposed_reachable (D : account_name) (t : time) :
  reachable_in D SHA256.sha256 (S (S (full + S (S full)))) (exposed t).
Proof.
  apply (@reach_step D SHA256.sha256 (S (full + S (S full))) abandoned
           (Scenario.host t)
           (act_reveal {| reveal_commitment := mark 0;
                          reveal_source := Scenario.secret_a |})
           (exposed t)).
  - apply abandoned_reachable.
  - cbn [apply]. apply reveal_in_abandoned.
Qed.

Lemma exposed_game_found (t : time) :
  find 1 (replace_row 1 (exposed_game t) (map (paired_game full) (seq 0 full)))
  = Some (exposed_game t).
Proof.
  destruct full_bounds as [P _].
  apply (@find_replace_same _ _ 1 (exposed_game t) _ (paired_game full 0) eq_refl).
  exact (find_paired_game full full 0 P).
Qed.

(** After the deadline the game is claimed; settlement looks the
    hoarder's account up and dereferences the end iterator. *)
Lemma claimexpired_in_exposed :
  on_claimexpired (Scenario.host 1000) {| claimexpired_gameid := 1 |} (exposed 7)
  = inl (end_iterator "winner_account").
Proof.
  destruct full_bounds as [P R]. unfold exposed.
  apply (claimexpired_orphan_faults (Scenario.host 1000)
           {| claimexpired_gameid := 1 |}
           (map (paired_offer full full) (seq 0 (full + full)))
           (replace_row 1 (exposed_game 7) (map (paired_game full) (seq 0 full)))
           (counter full) _ (exposed_game 7)
           first_taken (paired_offer full full (full + 0))).
  - apply exposed_game_found.
  - cbn [game_deadline exposed_game]. vm_compute. discriminate.
  - cbn [game_deadline exposed_game Scenario.host now]. vm_compute. reflexivity.
  - cbn [player_reveal game_player1 exposed_game]. vm_compute. reflexivity.
  - reflexivity.
  - exact first_taken_found.
  - cbn [player_commitment game_player2 exposed_game].
    apply find_commitment_paired; [lia|exact R].
  - reflexivity.
Qed.

(** C9, refuted as stated.  Counters are 32 bits wide: after [2^32] offers
    of the hoarder have each been matched by the rival, the hoarder's
    [open_games] is back at zero, a withdrawal of the remaining balance
    erases the account record, and all games stay in progress.  In the
    state reached when the hoarder's first secret is then revealed, game 1
    is stored, its first slot's commitment is that of the hoarder's offer,
    the owner of that offer has no account, and [claimexpired] on game 1
    dereferences the end iterator of the accounts table in settlement. *)
Lemma open_games_wrap_orphans_game :
  reachable Scenario.dice SHA256.sha256 (exposed 7)
  /\ find 1 (games (exposed 7)) = Some (exposed_game 7)
  /\ find_key256 by_commitment
       (get_commitment (player_commitment (game_player1 (exposed_game 7))))
       (offers (exposed 7))
     = Some first_taken
  /\ find (offer_owner first_taken) (accounts (exposed 7)) = None
  /\ apply Scenario.dice SHA256.sha256 (Scenario.host 1000)
       (act_claimexpired {| claimexpired_gameid := 1 |}) (exposed 7)
     = inl (end_iterator "winner_account").
Proof.
  split; [|split; [|split; [|split]]].
  - exists (S (S (full + S (S full)))). apply exposed_reachable.
  - cbn [games exposed]. apply exposed_game_found.
  - cbn [offers exposed player_commitment game_player1 exposed_game].
    exact first_taken_found.
  - reflexivity.
  - cbn [apply]. apply claimexpired_in_exposed.
Qed.

(** ** On the offers that wait, the rule of the specification and the
    contract's search agree *)

Lemma available_primary_key_above {T} {RowT : Row T} (t : list T) (r : T) :
  In r t -> primary_key r < available_primary_key t.
Proof.
  intros I. unfold available_primary_key.
  destruct (least _ t) as [m|] eqn:L.
  - pose proof (least_minimal (fun a b : T => pk_lt b a) _
                  (fun a b => pk_gt_asym a b) (fun a b c => pk_gt_ntrans a b c)
                  L _ I) as M.
    unfold pk_lt in M. apply Z.ltb_ge in M. lia.
  - apply least_none in L. subst. contradiction.
Qed.

Lemma pk_lt_asym {T} {RowT : Row T} (a b : T) :
  pk_lt a b = true -> pk_lt b a = false.
Proof. unfold pk_lt. rewrite Z.ltb_lt, Z.ltb_ge. lia. Qed.

Lemma pk_lt_ntrans {T} {RowT : Row T} (a b c : T) :
  pk_lt a b = false -> pk_lt b c = false -> pk_lt a c = false.
Proof. unfold pk_lt. rewrite !Z.ltb_ge. lia. Qed.

Lemma stakes_typed_wide (t : list offer) :
  stakes_typed t -> forall r, In r t -> 0 <= amount (offer_bet r) < 2 ^ 64.
Proof. intros H r I. specialize (H r I). lia. Qed.

Lemma waiting_subset (t t' : list offer) :
  (forall r, In r t' -> In r t) ->
  stakes_typed t /\ one_owner_per_stake t ->
  stakes_typed t' /\ one_owner_per_stake t'.
Proof.
  intros Sub [Ty One]. split.
  - intros r I. apply Ty, Sub, I.
  - intros a b Ia Ib. apply One; apply Sub; assumption.
Qed.

Lemma waiting_erase (k : Z) (t : list offer) :
  stakes_typed t /\ one_owner_per_stake t ->
  stakes_typed (erase k t) /\ one_owner_per_stake (erase k t).
Proof. apply waiting_subset. intros r I. now apply in_erase in I. Qed.

(** A new offer that finds no match joins offers of its own owner only. *)
Lemma unmatched_same_owner (new_row : offer) (t : list offer) :
  stakes_typed (t ++ [new_row]) -> one_owner_per_stake t ->
  0 < amount (offer_bet new_row) ->
  (forall r, In r t -> offer_id r < offer_id new_row) ->
  match_offer new_row (t ++ [new_row]) = None ->
  forall r, In r t -> amount (offer_bet r) = amount (offer_bet new_row) ->
            offer_owner r = offer_owner new_row.
Proof.
  intros Ty One Pos Above M r Ir Er.
  assert (In new_row (t ++ [new_row])) as Inew by (apply in_or_app; right; now left).
  destruct (lower_bound_equal_stake new_row _ Inew (stakes_typed_wide _ Ty))
    as (c & L & Ic & Ec & Least).
  unfold match_offer in M. rewrite L, Ec, Z.eqb_refl in M. cbn [negb orb] in M.
  destruct (Z.eqb_spec (offer_owner c) (offer_owner new_row)) as [Eo|]; [|discriminate].
  apply in_app_or in Ic as [Ic|[<-|[]]].
  - rewrite <- Eo. symmetry. apply One; [exact Ic|exact Ir|lia|lia].
  - specialize (Least r (in_or_app _ _ _ (or_introl Ir)) Er).
    specialize (Above r Ir). lia.
Qed.

Lemma waiting_offerbet (ctx : context) (new_offer : offerbet) (s s' : state) :
  unique_keys (offers s) ->
  stakes_typed (offers s) /\ one_owner_per_stake (offers s) ->
  amount (offerbet_bet new_offer) < 2 ^ 63 ->
  on_offerbet ctx new_offer s = inr s' ->
  stakes_typed (offers s') /\ one_owner_per_stake (offers s').
Proof.
  intros U [Ty One] Small H.
  apply on_offerbet_inr in H as (Pos & _ & _ & pa & pa' & _ & _ & H); [|exact U].
  set (new_row := {| offer_id := available_primary_key (offers s);
                     offer_owner := offerbet_player new_offer;
                     offer_bet := offerbet_bet new_offer;
                     offer_commitment := offerbet_commitment new_offer;
                     offer_gameid := 0 |}) in *.
  assert (stakes_typed (offers s ++ [new_row])) as Ty1.
  { intros r [I|[<-|[]]]%in_app_or; [now apply Ty|]. cbn [new_row offer_bet]. lia. }
  destruct H as [(M & _ & _ & ->)
                |(m & ma & counter & gd2 & M & _ & _ & _ & _ & _ & _ & ->)];
    cbn [offers].
  - split; [exact Ty1|].
    assert (forall r, In r (offers s) ->
                      amount (offer_bet r) = amount (offer_bet new_row) ->
                      offer_owner r = offer_owner new_row) as Same.
    { apply unmatched_same_owner; [exact Ty1|exact One|exact Pos| |exact M].
      intros r I. now apply available_primary_key_above. }
    intros a b [Ia|[<-|[]]]%in_app_or [Ib|[<-|[]]]%in_app_or Pa E.
    + now apply One.
    + now apply Same.
    + symmetry. apply Same; [exact Ib|now symmetry].
    + reflexivity.
  - assert (forall r,
              In r (replace_row (offer_id new_row)
                      (enter_game (global_nextgameid (next_game counter)) new_row)
                      (replace_row (offer_id m)
                         (enter_game (global_nextgameid (next_game counter)) m)
                         (offers s ++ [new_row]))) ->
              amount (offer_bet r) = 0 \/ In r (offers s)) as Rows.
    { intros r [->|[[->|[I _]]%in_replace_row K]]%in_replace_row.
      - now left.
      - now left.
      - apply in_app_or in I as [I|[<-|[]]]; [now right|]. now contradiction K. }
    split.
    + intros r [E|I]%Rows; [rewrite E; lia|now apply Ty].
    + intros a b Ia Ib Pa E.
      apply Rows in Ia as [Ea|Ia]; [lia|].
      apply Rows in Ib as [Eb|Ib]; [lia|]. now apply One.
Qed.

Lemma waiting_settle (g : game) (w l : offer) (s s' : state) :
  stakes_typed (offers s) /\ one_owner_per_stake (offers s) ->
  pay_and_clean g w l s = inr s' ->
  stakes_typed (offers s') /\ one_owner_per_stake (offers s').
Proof.
  intros W H. apply pay_and_clean_inr in H as (wa & la & _ & _ & ->).
  cbn [offers]. now do 2 apply waiting_erase.
Qed.

Lemma waiting_step (D : account_name) (sha256 : list byte -> checksum256)
    (ctx : context) (a : action) (s s' : state) :
  unique_keys (offers s) ->
  stakes_typed (offers s) /\ one_owner_per_stake (offers s) ->
  well_typed a -> apply D sha256 ctx a s = inr s' ->
  stakes_typed (offers s') /\ one_owner_per_stake (offers s').
Proof.
  intros U W Ta H. destruct a as [x|x|x|x|x|x]; cbn [apply] in H.
  - eapply waiting_offerbet; [exact U|exact W| |exact H]. apply Ta.
  - apply on_canceloffer_inr in H as (o & acnt & _ & _ & _ & ->).
    cbn [offers]. now apply waiting_erase.
  - apply on_reveal_inr in H
      as (co & g & _ & _ & _ & [(po & _ & [H|H])|(cr & ->)]).
    + eapply waiting_settle; eauto.
    + eapply waiting_settle; eauto.
    + exact W.
  - apply on_claimexpired_inr in H as (g & o1 & o2 & _ & _ & _ & [H|H]);
      eapply waiting_settle; eauto.
  - apply on_deposit_inr in H as (cur & new & _ & _ & _ & _ & E & _).
    now rewrite E.
  - apply on_withdraw_inr in H as (cur & new & _ & _ & _ & _ & E & _).
    now rewrite E.
Qed.

Lemma reachable_typed_reachable (D : account_name)
    (sha256 : list byte -> checksum256) (s : state) :
  reachable_typed D sha256 s -> reachable D sha256 s.
Proof.
  induction 1 as [|s ctx a s' _ [n IH] _ H].
  - exists 0%nat. constructor.
  - exists (S n). econstructor; eauto.
Qed.

Lemma waiting_reachable (D : account_name) (sha256 : list byte -> checksum256)
    (s : state) :
  reachable_typed D sha256 s ->
  stakes_typed (offers s) /\ one_owner_per_stake (offers s).
Proof.
  induction 1 as [|s ctx a s' R IH Ta H].
  - split; [intros r []|intros a b []].
  - apply reachable_typed_reachable in R as [n R].
    eapply waiting_step; eauto. exact (offers_unique (book_ok_reachable R)).
Qed.

(** C3.  Matching selects the open offer with the smallest id whose
    stake equals the new offer's stake, excluding the offers of the
    placing owner.  On every state the contract reaches by calls with
    [int64_t] amounts, the search of the code (one lower-bound lookup in
    the stake index, taken once the new offer is stored) returns exactly
    the offer this rule selects, and nothing when the rule selects
    nothing.  Offers that are in a game have stake 0 and are never
    selected; and the lowest-id offer of a stake never belongs to the
    placing owner while an offer of that stake by somebody else waits,
    as the waiting offers of one stake all have one owner. *)
Theorem match_offer_meets_spec (D : account_name)
    (sha256 : list byte -> checksum256) (s : state) (new_offer : offerbet) :
  let new_row :=
    {| offer_id := available_primary_key (offers s);
       offer_owner := offerbet_player new_offer;
       offer_bet := offerbet_bet new_offer;
       offer_commitment := offerbet_commitment new_offer;
       offer_gameid := 0 |} in
  reachable_typed D sha256 s ->
  0 < amount (offerbet_bet new_offer) < 2 ^ 63 ->
  match_offer new_row (offers s ++ [new_row])
  = spec_match_offer new_row (offers s ++ [new_row]).
Proof.
  intros new_row R [Pos Small].
  destruct (waiting_reachable _ _ _ R) as [Ty One].
  apply reachable_typed_reachable in R as [n R].
  destruct (book_ok_reachable R) as [U _].
  assert (forall r, In r (offers s) -> offer_id r < offer_id new_row) as Above.
  { intros r I. now apply available_primary_key_above. }
  assert (unique_keys (offers s ++ [new_row])) as U1.
  { apply unique_keys_app_fresh; [exact U|]. apply find_none_iff.
    intros [r [E I]]%in_map_iff. specialize (Above r I).
    change (primary_key r) with (offer_id r) in E.
    change (primary_key new_row) with (offer_id new_row) in E. lia. }
  assert (stakes_typed (offers s ++ [new_row])) as Ty1.
  { intros r [I|[<-|[]]]%in_app_or; [now apply Ty|]. cbn [new_row offer_bet]. lia. }
  assert (In new_row (offers s ++ [new_row])) as Inew
      by (apply in_or_app; right; now left).
  destruct (lower_bound_equal_stake new_row _ Inew (stakes_typed_wide _ Ty1))
    as (c & L & Ic & Ec & Least).
  unfold spec_match_offer.
  destruct (match_offer new_row (offers s ++ [new_row])) as [m|] eqn:M.
  - unfold match_offer in M. rewrite L, Ec, Z.eqb_refl in M. cbn [negb orb] in M.
    destruct (Z.eqb_spec (offer_owner c) (offer_owner new_row)) as [|No];
      [discriminate|]. inversion M; subst m; clear M.
    assert (In c (filter
                    (fun r => (amount (offer_bet r) =? amount (offer_bet new_row))
                              && negb (offer_owner r =? offer_owner new_row))
                    (offers s ++ [new_row]))) as Fc.
    { apply filter_In. split; [exact Ic|]. rewrite Ec, Z.eqb_refl.
      now destruct (Z.eqb_spec (offer_owner c) (offer_owner new_row)). }
    destruct (least pk_lt _) as [m|] eqn:Lm.
    + pose proof (least_in _ _ Lm) as Im. apply filter_In in Im as [Im Pm].
      apply andb_true_iff in Pm as [Em _]. apply Z.eqb_eq in Em.
      pose proof (least_minimal pk_lt _ (fun a b => pk_lt_asym a b)
                    (fun a b c => pk_lt_ntrans a b c) Lm _ Fc) as Min.
      unfold pk_lt in Min. apply Z.ltb_ge in Min.
      specialize (Least m Im Em). f_equal. symmetry.
      apply (@same_key_same_row _ _ _ _ _ U1 Im Ic).
      change (offer_id m = offer_id c). change (primary_key m) with (offer_id m) in Min.
      change (primary_key c) with (offer_id c) in Min. lia.
    + apply least_none in Lm. rewrite Lm in Fc. contradiction.
  - destruct (least pk_lt _) as [m|] eqn:Lm; [|reflexivity]. exfalso.
    apply least_in, filter_In in Lm as [Im Pm].
    apply andb_true_iff in Pm as [Em Om]. apply Z.eqb_eq in Em.
    apply negb_true_iff, Z.eqb_neq in Om. apply Om.
    apply in_app_or in Im as [Im|[<-|[]]]; [|reflexivity].
    apply (unmatched_same_owner new_row (offers s)); auto.
Qed.

(** ** The hash on the standard's test vectors *)

Example sha256_empty :
  checksum_bytes (SHA256.sha256 [])
  = [xe3; xb0; xc4; x42; x98; xfc; x1c; x14; x9a; xfb; xf4; xc8; x99; x6f;
     xb9; x24; x27; xae; x41; xe4; x64; x9b; x93; x4c; xa4; x95; x99; x1b;
     x78; x52; xb8; x55]%byte.
Proof. vm_compute. reflexivity. Qed.

Example sha256_abc :
  checksum_bytes (SHA256.sha256 [x61; x62; x63]%byte)
  = [xba; x78; x16; xbf; x8f; x01; xcf; xea; x41; x41; x40; xde; x5d; xae;
     x22; x23; xb0; x03; x61; xa3; x96; x17; x7a; x9c; xb4; x10; xff; x61;
     xf2; x00; x15; xad]%byte.
Proof. vm_compute. reflexivity. Qed.

(** ** The scenario states are produced by the entry points *)

Import Scenario.

Lemma st_waiting_run :
  run dice SHA256.sha256
    [(host 10, fund alice 1000); (host 20, fund bob 1000);
     (host 30, place alice 100 secret_a)] initial_state
  = inr st_waiting.
Proof. vm_compute. reflexivity. Qed.

Lemma st_playing_run :
  run dice SHA256.sha256 (matched_calls secret_a secret_b) initial_state
  = inr (st_playing (game1 zero256 zero256 0)).
Proof. vm_compute. reflexivity. Qed.

Lemma st_bob_revealed_run :
  run dice SHA256.sha256
    (matched_calls secret_a secret_b ++ [(host 50, open_up secret_b)]) initial_state
  = inr (st_playing (game1 zero256 secret_b 350)).
Proof. vm_compute. reflexivity. Qed.

(** ** Settlement on the scenario *)

Lemma pay_and_clean_settles_witness :
  exists s',
    pay_and_clean (game1 secret_a zero256 350) alice_in_game bob_in_game
      (st_playing (game1 secret_a zero256 350)) = inr s'
    /\ find alice (accounts s')
       = Some {| account_owner := alice; account_eos_balance := {| amount := 1100 |};
                 account_open_offers := 0; account_open_games := 0 |}
    /\ find bob (accounts s')
       = Some {| account_owner := bob; account_eos_balance := {| amount := 900 |};
                 account_open_offers := 0; account_open_games := 0 |}
    /\ find 1 (games s') = None
    /\ find 0 (offers s') = None
    /\ find 1 (offers s') = None.
Proof.
  destruct (@pay_and_clean_settles (game1 secret_a zero256 350)
              alice_in_game bob_in_game (st_playing (game1 secret_a zero256 350))
              {| account_owner := alice; account_eos_balance := {| amount := 900 |};
                 account_open_offers := 0; account_open_games := 1 |}
              {| account_owner := bob; account_eos_balance := {| amount := 900 |};
                 account_open_offers := 0; account_open_games := 1 |})
    as (s' & E & Hw & Hl & _ & Hg & _ & Ho1 & Ho2 & _).
  - reflexivity.
  - reflexivity.
  - discriminate.
  - vm_compute. split; [discriminate|reflexivity].
  - vm_compute. split; [discriminate|reflexivity].
  - exists s'. repeat split; [exact E|exact Hw|exact Hl|exact Hg|exact Ho1|exact Ho2].
Defined.

(** ** Matching on the scenario *)

Lemma match_offer_lowest_id_witness :
  let new_row :=
    {| offer_id := 2; offer_owner := carol; offer_bet := {| amount := 100 |};
       offer_commitment := secret x03%byte; offer_gameid := 0 |} in
  exists c,
    offer_id c = 0 /\ offer_owner c = alice
    /\ match_offer new_row (offers st_two_open ++ [new_row]) = Some c.
Proof.
  intros new_row.
  destruct (@match_offer_lowest_id new_row (offers st_two_open ++ [new_row]))
    as (c & Ic & Ec & Least & M).
  - right. right. left. reflexivity.
  - intros r [<-|[<-|[<-|[]]]]; vm_compute; (split; [discriminate|reflexivity]).
  - exists c.
    assert (offer_id c <= 0) as Le.
    { apply (Least (nth 0 (offers st_two_open) new_row));
        [left; reflexivity|reflexivity]. }
    destruct Ic as [<-|[<-|[<-|[]]]].
    + split; [reflexivity|]. split; [reflexivity|]. exact M.
    + exfalso. revert Le. vm_compute. auto.
    + exfalso. revert Le. vm_compute. auto.
Defined.

(** Why matching is stated over the states the contract reaches.  On a
    table written down by hand, with two waiting offers of stake 100,
    Alice's (id 0) and Bob's (id 1), a third offer of stake 100 by Alice
    is not matched: the search looks at offer 0 only and finds Alice's
    own, where a search through all offers would select Bob's.  The
    contract never holds such a table: Bob's offer would have been
    matched with Alice's when it was placed. *)
Lemma match_offer_ignores_other_owner :
  let new_row :=
    {| offer_id := 2; offer_owner := alice; offer_bet := {| amount := 100 |};
       offer_commitment := secret x03%byte; offer_gameid := 0 |} in
  available_primary_key (offers st_two_open) = 2
  /\ option_map offer_id (spec_match_offer new_row (offers st_two_open ++ [new_row]))
     = Some 1
  /\ match_offer new_row (offers st_two_open ++ [new_row]) = None
  /\ exists s', on_offerbet (host 50) alice_again st_two_open = inr s'
                /\ games s' = []
                /\ map offer_gameid (offers s') = [0; 0; 0].
Proof.
  cbv zeta. split; [reflexivity|]. split; [reflexivity|]. split; [reflexivity|].
  eexists. split; [vm_compute; reflexivity|]. split; reflexivity.
Qed.

Lemma offerbet_matched_witness :
  exists s' gid,
    on_offerbet (host 40) bob_bet st_waiting = inr s'
    /\ balances s' = [(alice, 900); (bob, 900)]
    /\ map game_id (games s') = [gid]
    /\ map offer_gameid (offers s') = [gid; gid].
Proof.
  destruct (on_offerbet (host 40) bob_bet st_waiting) as [e|s'] eqn:E;
    [vm_compute in E; discriminate|].
  destruct (@offerbet_matched (host 40) bob_bet st_waiting s' alice_offer)
    as (pa & ma & gid & Hpa & Hma & Hpa' & Hma' & Hg & Ho & Hn).
  - repeat constructor; simpl; tauto.
  - exact E.
  - reflexivity.
  - exists s', gid. split; [reflexivity|].
    vm_compute in E. inversion E; subst s'; clear E.
    vm_compute in Hg. inversion Hg; subst gid. repeat split; reflexivity.
Defined.

(** C5, refuted as stated: when Bob's offer is matched with Alice's waiting
    offer, a game is created and Bob's balance goes from 1000 to 900, but
    Alice's balance stays at 900: the matching step does not debit the
    matched owner. *)
Lemma matching_debits_placing_owner_only :
  exists s',
    on_offerbet (host 40) bob_bet st_waiting = inr s'
    /\ map game_id (games s') = [1]
    /\ balances st_waiting = [(alice, 900); (bob, 1000)]
    /\ balances s' = [(alice, 900); (bob, 900)].
Proof.
  eexists. split; [vm_compute; reflexivity|]. repeat split; reflexivity.
Qed.

Lemma offerbet_insufficient_balance_witness :
  let big := {| offerbet_bet := {| amount := 5000 |}; offerbet_player := bob;
                offerbet_commitment := commit secret_b |} in
  (exists e, on_offerbet (host 40) big st_waiting = inl e)
  /\ execute dice SHA256.sha256 (host 40) (act_offerbet big) st_waiting = st_waiting.
Proof.
  intros big.
  apply (@offerbet_insufficient_balance dice SHA256.sha256 (host 40) big st_waiting
           {| account_owner := bob; account_eos_balance := {| amount := 1000 |};
              account_open_offers := 0; account_open_games := 0 |}).
  - reflexivity.
  - simpl. lia.
Defined.

(** ** Reveals on the scenario *)

Lemma reveal_resolves_by_reveal_order_witness :
  on_reveal SHA256.sha256 (host 60)
    {| reveal_commitment := commit secret_a; reveal_source := secret_a |}
    (st_playing (game1 zero256 secret_b 350))
  = pay_and_clean (game1 zero256 secret_b 350) alice_in_game bob_in_game
      (st_playing (game1 zero256 secret_b 350)).
Proof.
  rewrite (@reveal_resolves_by_reveal_order SHA256.sha256 (host 60)
             {| reveal_commitment := commit secret_a; reveal_source := secret_a |}
             (st_playing (game1 zero256 secret_b 350))
             alice_in_game bob_in_game (game1 zero256 secret_b 350)).
  - vm_compute. reflexivity.
  - vm_compute. reflexivity.
  - vm_compute. reflexivity.
  - vm_compute. reflexivity.
  - vm_compute. reflexivity.
  - vm_compute. reflexivity.
  - vm_compute. reflexivity.
  - vm_compute. reflexivity.
Defined.

(** C1, refuted as stated.  Bob (player2) has revealed and Alice (player1)
    makes the second reveal.  Byte 1 of the digest is not less than byte 0,
    both for the digest the contract takes and for the digest over both
    secrets, so the structural rule names player2, Bob; the contract pays
    the second revealer, Alice.  And with the secrets of the second run the
    same two players end with different winners depending only on who
    revealed first. *)
Lemma reveal_winner_not_structural :
  let s := st_playing (game1 zero256 secret_b 350) in
  let g := game1 zero256 secret_b 350 in
  let digest := outcome_digest SHA256.sha256 g in
  let full := outcome_digest SHA256.sha256 (game1 secret_a secret_b 350) in
  let secret_c := secret x03%byte in
  reachable dice SHA256.sha256 s
  /\ find 1 (games s) = Some g
  /\ (hash digest 0, hash digest 1) = (106, 114)
  /\ (hash full 0, hash full 1) = (122, 200)
  /\ (exists s',
        on_reveal SHA256.sha256 (host 60)
          {| reveal_commitment := commit secret_a; reveal_source := secret_a |} s
        = inr s'
        /\ balances s' = [(alice, 1100); (bob, 900)])
  /\ (exists s1 s2,
        run dice SHA256.sha256
          (matched_calls secret_a secret_c
           ++ [(host 50, open_up secret_c); (host 60, open_up secret_a)])
          initial_state = inr s1
        /\ run dice SHA256.sha256
             (matched_calls secret_a secret_c
              ++ [(host 50, open_up secret_a); (host 60, open_up secret_c)])
             initial_state = inr s2
        /\ balances s1 = [(alice, 1100); (bob, 900)]
        /\ balances s2 = [(alice, 900); (bob, 1100)]).
Proof.
  cbv zeta. split.
  { eapply run_reachable_from_start. exact st_bob_revealed_run. }
  split; [reflexivity|].
  split; [vm_compute; reflexivity|].
  split; [vm_compute; reflexivity|].
  split.
  - eexists. split; [vm_compute; reflexivity|reflexivity].
  - eexists. eexists.
    split; [vm_compute; reflexivity|].
    split; [vm_compute; reflexivity|].
    split; reflexivity.
Qed.

(** C2, the code at the failing input.  Alice makes the resolving reveal
    with [secret_a] while the stored game holds Bob's reveal only.  The
    digest is taken over the stored slots, where Alice's reveal is still
    the zero hash: it is the hash of [H(sA) 0 H(sB) sB], not of
    [H(sA) sA H(sB) sB], and the winner follows from it. *)
Example resolving_secret_not_hashed :
  let s := st_playing (game1 zero256 secret_b 350) in
  let g := game1 zero256 secret_b 350 in
  let stored :=
    checksum_bytes (commit secret_a) ++ checksum_bytes zero256
    ++ checksum_bytes (commit secret_b) ++ checksum_bytes secret_b in
  let both :=
    checksum_bytes (commit secret_a) ++ checksum_bytes secret_a
    ++ checksum_bytes (commit secret_b) ++ checksum_bytes secret_b in
  reachable dice SHA256.sha256 s
  /\ find 1 (games s) = Some g
  /\ outcome_digest SHA256.sha256 g = SHA256.sha256 stored
  /\ SHA256.sha256 stored <> SHA256.sha256 both
  /\ on_reveal SHA256.sha256 (host 60)
       {| reveal_commitment := commit secret_a; reveal_source := secret_a |} s
     = if hash (SHA256.sha256 stored) 1 <? hash (SHA256.sha256 stored) 0
       then pay_and_clean g bob_in_game alice_in_game s
       else pay_and_clean g alice_in_game bob_in_game s.
Proof.
  cbv zeta. split.
  { eapply run_reachable_from_start. exact st_bob_revealed_run. }
  split; [reflexivity|].
  split; [vm_compute; reflexivity|].
  split; [vm_compute; discriminate|].
  vm_compute. reflexivity.
Qed.

(** C7, the code at the failing input.  Alice commits to the hash of the
    all-zero secret and reveals it: the reveal is accepted, the slot stays
    zero, and the game is persisted with a deadline and no reveal present. *)
Example zero_secret_sets_deadline :
  exists s g,
    run dice SHA256.sha256
      (matched_calls zero256 secret_b ++ [(host 50, open_up zero256)])
      initial_state = inr s
    /\ reachable dice SHA256.sha256 s
    /\ games s = [g]
    /\ game_deadline g = 350
    /\ player_reveal (game_player1 g) = zero256
    /\ player_reveal (game_player2 g) = zero256.
Proof.
  eexists. eexists. split; [vm_compute; reflexivity|].
  split.
  { apply (@run_reachable_from_start dice SHA256.sha256
             (matched_calls zero256 secret_b ++ [(host 50, open_up zero256)])).
    vm_compute. reflexivity. }
  repeat split; reflexivity.
Qed.

(** C4, the code at the failing input.  In the state above neither reveal
    is present and the deadline has passed: [claimexpired] does not fail
    with "game error" but settles the game and pays player2, Bob. *)
Example claimexpired_without_reveal :
  exists s g s',
    run dice SHA256.sha256
      (matched_calls zero256 secret_b ++ [(host 50, open_up zero256)])
      initial_state = inr s
    /\ find 1 (games s) = Some g
    /\ is_zero (player_reveal (game_player1 g)) = true
    /\ is_zero (player_reveal (game_player2 g)) = true
    /\ game_deadline g = 350
    /\ on_claimexpired (host 1000) {| claimexpired_gameid := 1 |} s = inr s'
    /\ games s' = []
    /\ balances s' = [(alice, 900); (bob, 1100)].
Proof.
  eexists. eexists. eexists. split; [vm_compute; reflexivity|].
  split; [reflexivity|].
  split; [reflexivity|]. split; [reflexivity|]. split; [reflexivity|].
  split; [vm_compute; reflexivity|]. split; reflexivity.
Qed.


(** ** The invariants on the scenario *)

Lemma commitments_stay_unique_witness :
  let again := {| offerbet_bet := {| amount := 100 |}; offerbet_player := bob;
                  offerbet_commitment := commit secret_a |} in
  NoDup (map offer_commitment (offers st_waiting))
  /\ on_offerbet (host 40) again st_waiting
     = inl (assert_failure "offer with this commitment already exist").
Proof.
  intros again.
  destruct (@commitments_stay_unique dice SHA256.sha256 st_waiting)
    as (N & _ & Reject).
  - apply (run_reachable_from_start dice SHA256.sha256
             [(host 10, fund alice 1000); (host 20, fund bob 1000);
              (host 30, place alice 100 secret_a)]).
    vm_compute. reflexivity.
  - split; [exact N|]. apply Reject.
    + vm_compute. reflexivity.
    + left. reflexivity.
Defined.

Lemma referential_integrity_witness :
  let s := st_playing (game1 zero256 zero256 0) in
  (forall o, In o (offers s) -> offer_gameid o <> 0 ->
             find (offer_gameid o) (games s) <> None)
  /\ (forall g, In g (games s) ->
        find_key256 by_commitment
          (get_commitment (player_commitment (game_player1 g))) (offers s) <> None
        /\ find_key256 by_commitment
             (get_commitment (player_commitment (game_player2 g))) (offers s) <> None)
  /\ (forall o, In o (offers s) -> find (offer_owner o) (accounts s) <> None)
  /\ (forall ctx a site,
        apply dice SHA256.sha256 ctx a s <> inl (end_iterator site)).
Proof.
  intros s.
  apply (referential_integrity dice SHA256.sha256 4 s).
  - apply (@run_reachable dice SHA256.sha256 (matched_calls secret_a secret_b)
             0 initial_state s).
    + constructor.
    + vm_compute. reflexivity.
  - vm_compute. reflexivity.
Defined.

(** * Further properties of the contract *)

(** ** Hashes and index keys *)

(** X1.  [is_zero] reads the 32 bytes of a hash as four 64-bit words; it
    answers true exactly when every byte is zero, which is what [memset]
    writes into the reveal of a new game. *)
Theorem is_zero_all_bytes_zero (a : checksum256) :
  is_zero a = true <-> checksum_bytes a = repeat x00%byte 32.
Proof.
  rewrite is_zero_spec. split.
  - intros ->. reflexivity.
  - intros E. apply checksum_bytes_inj. rewrite E. reflexivity.
Qed.

(** X2.  The key under which the commitment index files an offer tells
    two commitments apart exactly as [is_equal] ([memcmp]) does: the keys
    are equal if and only if the 32 bytes are. *)
Theorem commitment_key_agrees_with_memcmp (a b : checksum256) :
  get_commitment a = get_commitment b <-> is_equal a b = true.
Proof.
  rewrite is_equal_spec. split.
  - apply get_commitment_inj.
  - intros ->. reflexivity.
Qed.

(** X3.  [has_offer] answers true exactly when some offer of the table
    carries the commitment, whether it waits or is in a game. *)
Theorem has_offer_iff (c : checksum256) (s : state) :
  has_offer c s = true <-> exists o, In o (offers s) /\ offer_commitment o = c.
Proof.
  split.
  - unfold has_offer. intros H.
    destruct (find_key256 by_commitment (get_commitment c) (offers s))
      as [o|] eqn:F; [|discriminate].
    exists o. now apply find_key256_offer.
  - intros (o & I & E). apply has_offer_true. apply in_map_iff. eauto.
Qed.

(** ** Cancelling an offer *)

(** X4.  Cancelling an offer that still waits, with its owner's
    authorisation, removes that offer and no other, gives the stake back
    to the owner's balance and decrements the owner's [open_offers]; the
    other accounts, the games and the game counter are untouched. *)
Theorem canceloffer_refunds (ctx : context) (c : canceloffer) (s : state)
    (o : offer) (a : account) :
  find_key256 by_commitment (get_commitment (canceloffer_commitment c)) (offers s)
  = Some o ->
  offer_gameid o = 0 ->
  authorized ctx (offer_owner o) = true ->
  find (offer_owner o) (accounts s) = Some a ->
  - 2 ^ 63 <= amount (account_eos_balance a) + amount (offer_bet o) < 2 ^ 63 ->
  exists s',
    on_canceloffer ctx c s = inr s'
    /\ find (offer_id o) (offers s') = None
    /\ (forall k, k <> offer_id o -> find k (offers s') = find k (offers s))
    /\ find (offer_owner o) (accounts s')
       = Some {| account_owner := account_owner a;
                 account_eos_balance :=
                   {| amount := amount (account_eos_balance a)
                                + amount (offer_bet o) |};
                 account_open_offers := wrap 32 (account_open_offers a - 1);
                 account_open_games := account_open_games a |}
    /\ (forall k, k <> offer_owner o -> find k (accounts s') = find k (accounts s))
    /\ games s' = games s
    /\ global_dices s' = global_dices s.
Proof.
  intros Fo G Au Fa R.
  pose proof (find_some _ _ Fa) as [_ Ka].
  change (primary_key a) with (account_owner a) in Ka.
  unfold on_canceloffer. cbv zeta. rewrite Fo.
  cbn [is_some eosio_assert bind ok deref].
  rewrite G. cbn [Z.eqb eosio_assert bind ok].
  unfold require_auth. rewrite Au. cbn [bind ok].
  erewrite modify_find by exact Fa. cbn [bind ok].
  eexists. split; [reflexivity|]. cbn [offers accounts games global_dices].
  change (primary_key o) with (offer_id o).
  split; [apply find_erase_same|].
  split; [intros k D; now apply find_erase_other|].
  split.
  - erewrite find_replace_same; [|exact Ka|exact Fa].
    unfold refund. now rewrite wrap_int64_small.
  - split; [|split; reflexivity].
    intros k D. apply find_replace_other; [exact Ka|exact D].
Qed.

(** X5.  [canceloffer] refuses a commitment no offer carries, an offer
    that is already in a game, and a call its owner has not authorised,
    in this order; an offer in a game can therefore never be withdrawn
    from it. *)
Theorem canceloffer_rejects (ctx : context) (c : canceloffer) (s : state) :
  let found :=
    find_key256 by_commitment (get_commitment (canceloffer_commitment c))
      (offers s) in
  (found = None ->
   on_canceloffer ctx c s = inl (assert_failure "offer does not exists"))
  /\ (forall o, found = Some o -> offer_gameid o <> 0 ->
      on_canceloffer ctx c s = inl (assert_failure "unable to cancel offer"))
  /\ (forall o, found = Some o -> offer_gameid o = 0 ->
      authorized ctx (offer_owner o) = false ->
      on_canceloffer ctx c s = inl (missing_auth (offer_owner o))).
Proof.
  cbv zeta. unfold on_canceloffer. cbv zeta. split; [|split].
  - intros ->. reflexivity.
  - intros o -> G. cbn [is_some eosio_assert bind ok deref].
    apply Z.eqb_neq in G. rewrite G. reflexivity.
  - intros o -> G Au. cbn [is_some eosio_assert bind ok deref].
    rewrite G. cbn [Z.eqb eosio_assert bind ok].
    unfold require_auth. rewrite Au. reflexivity.
Qed.

Lemma canceloffer_refunds_witness :
  exists s',
    on_canceloffer (host 35) {| canceloffer_commitment := commit secret_a |}
      st_waiting = inr s'
    /\ find 0 (offers s') = None
    /\ find alice (accounts s')
       = Some {| account_owner := alice;
                 account_eos_balance := {| amount := 1000 |};
                 account_open_offers := 0; account_open_games := 0 |}.
Proof.
  destruct (canceloffer_refunds (host 35)
              {| canceloffer_commitment := commit secret_a |} st_waiting
              alice_offer
              {| account_owner := alice;
                 account_eos_balance := {| amount := 900 |};
                 account_open_offers := 1; account_open_games := 0 |})
    as (s' & E & F0 & _ & Fa & _).
  - vm_compute. reflexivity.
  - reflexivity.
  - reflexivity.
  - reflexivity.
  - vm_compute. split; [discriminate|reflexivity].
  - exists s'. split; [exact E|]. split; [exact F0|exact Fa].
Defined.

(** ** Placing an offer *)

(** X6.  [offerbet] refuses a stake that is not positive; then a
    commitment some offer of the table already carries; then a call the
    player has not authorised; then a player without an account. *)
Theorem offerbet_rejects (ctx : context) (new_offer : offerbet) (s : state) :
  (amount (offerbet_bet new_offer) <= 0 ->
   on_offerbet ctx new_offer s = inl (assert_failure "invalid bet"))
  /\ (0 < amount (offerbet_bet new_offer) ->
      has_offer (offerbet_commitment new_offer) s = true ->
      on_offerbet ctx new_offer s
      = inl (assert_failure "offer with this commitment already exist"))
  /\ (0 < amount (offerbet_bet new_offer) ->
      has_offer (offerbet_commitment new_offer) s = false ->
      authorized ctx (offerbet_player new_offer) = false ->
      on_offerbet ctx new_offer s = inl (missing_auth (offerbet_player new_offer)))
  /\ (0 < amount (offerbet_bet new_offer) ->
      has_offer (offerbet_commitment new_offer) s = false ->
      authorized ctx (offerbet_player new_offer) = true ->
      find (offerbet_player new_offer) (accounts s) = None ->
      on_offerbet ctx new_offer s = inl (assert_failure "unknown account")).
Proof.
  unfold on_offerbet, token_type. cbv zeta. split; [|split; [|split]].
  - intros Le. apply Z.ltb_ge in Le. rewrite Le. reflexivity.
  - intros Pos Hh. apply Z.ltb_lt in Pos. rewrite Pos, Hh. reflexivity.
  - intros Pos Hh Au. apply Z.ltb_lt in Pos. rewrite Pos, Hh.
    cbn [negb eosio_assert bind ok]. unfold require_auth. rewrite Au. reflexivity.
  - intros Pos Hh Au Fa. apply Z.ltb_lt in Pos. rewrite Pos, Hh.
    cbn [negb eosio_assert bind ok]. unfold require_auth. rewrite Au, Fa.
    reflexivity.
Qed.

(** X7.  An offer that finds no match is stored under the next free id
    with its stake and [gameid] 0; the player's balance is debited by the
    stake and [open_offers] incremented.  Nothing else changes: the other
    offers and accounts, the games and the game counter are as before. *)
Theorem offerbet_queues_offer (ctx : context) (new_offer : offerbet) (s : state)
    (a : account) :
  let new_row :=
    {| offer_id := available_primary_key (offers s);
       offer_owner := offerbet_player new_offer;
       offer_bet := offerbet_bet new_offer;
       offer_commitment := offerbet_commitment new_offer;
       offer_gameid := 0 |} in
  0 < amount (offerbet_bet new_offer) ->
  has_offer (offerbet_commitment new_offer) s = false ->
  authorized ctx (offerbet_player new_offer) = true ->
  find (offerbet_player new_offer) (accounts s) = Some a ->
  amount (offerbet_bet new_offer) <= amount (account_eos_balance a) ->
  match_offer new_row (offers s ++ [new_row]) = None ->
  on_offerbet ctx new_offer s
  = inr {| offers := offers s ++ [new_row];
           games := games s;
           global_dices := global_dices s;
           accounts :=
             replace_row (offerbet_player new_offer)
               {| account_owner := account_owner a;
                  account_eos_balance :=
                    {| amount := amount (account_eos_balance a)
                                 - amount (offerbet_bet new_offer) |};
                  account_open_offers := wrap 32 (account_open_offers a + 1);
                  account_open_games := account_open_games a |}
               (accounts s) |}.
Proof.
  intros new_row Pos Hh Au Fa Le M.
  pose proof (find_some _ _ Fa) as [_ Ka].
  unfold on_offerbet, token_type. cbv zeta. fold new_row.
  apply Z.ltb_lt in Pos. rewrite Pos, Hh.
  cbn [negb eosio_assert bind ok]. unfold require_auth. rewrite Au, Fa.
  cbn [is_some eosio_assert bind ok].
  rewrite emplace_fresh.
  2:{ apply find_none_iff. intros [r [E I]]%in_map_iff.
      pose proof (available_primary_key_above _ _ I) as Ab.
      change (primary_key new_row) with (available_primary_key (offers s)) in E.
      lia. }
  cbn [bind ok]. rewrite M.
  erewrite modify_found by (rewrite Ka; exact Fa).
  unfold debit_open_offer, token_sub, token_type.
  apply Z.ltb_ge in Le. rewrite Le. cbn [bind ok]. rewrite Ka. reflexivity.
Qed.

Lemma offerbet_queues_offer_witness :
  exists s',
    on_offerbet (host 40)
      {| offerbet_bet := {| amount := 50 |}; offerbet_player := bob;
         offerbet_commitment := commit secret_b |} st_waiting = inr s'
    /\ map offer_id (offers s') = [0; 1]
    /\ games s' = []
    /\ balances s' = [(alice, 900); (bob, 950)].
Proof.
  eexists. split.
  - apply (offerbet_queues_offer (host 40)
             {| offerbet_bet := {| amount := 50 |}; offerbet_player := bob;
                offerbet_commitment := commit secret_b |} st_waiting
             {| account_owner := bob;
                account_eos_balance := {| amount := 1000 |};
                account_open_offers := 0; account_open_games := 0 |}).
    + reflexivity.
    + vm_compute. reflexivity.
    + reflexivity.
    + reflexivity.
    + vm_compute. discriminate.
    + vm_compute. reflexivity.
  - split; [reflexivity|]. split; reflexivity.
Defined.

(** *** Placing and cancelling *)

Lemma offerbet_unmatched_inr (ctx : context) (new_offer : offerbet)
    (s s1 : state) (a : account) :
  let new_row :=
    {| offer_id := available_primary_key (offers s);
       offer_owner := offerbet_player new_offer;
       offer_bet := offerbet_bet new_offer;
       offer_commitment := offerbet_commitment new_offer;
       offer_gameid := 0 |} in
  on_offerbet ctx new_offer s = inr s1 ->
  match_offer new_row (offers s ++ [new_row]) = None ->
  find (offerbet_player new_offer) (accounts s) = Some a ->
  has_offer (offerbet_commitment new_offer) s = false
  /\ amount (offerbet_bet new_offer) <= amount (account_eos_balance a)
  /\ s1 = {| offers := offers s ++ [new_row];
             games := games s;
             global_dices := global_dices s;
             accounts :=
               replace_row (offerbet_player new_offer)
                 {| account_owner := account_owner a;
                    account_eos_balance :=
                      {| amount := amount (account_eos_balance a)
                                   - amount (offerbet_bet new_offer) |};
                    account_open_offers := wrap 32 (account_open_offers a + 1);
                    account_open_games := account_open_games a |}
                 (accounts s) |}.
Proof.
  intros new_row H M Fa.
  unfold on_offerbet in H. cbv zeta in H. fold new_row in H.
  apply bind_inr in H as (? & _ & H).
  apply bind_inr in H as (? & Eh & H). apply eosio_assert_inr, negb_true_iff in Eh.
  apply bind_inr in H as (? & _ & H).
  apply bind_inr in H as (? & _ & H).
  apply bind_inr in H as (offers1 & E & H). apply emplace_inr in E as [_ ->].
  rewrite M in H.
  apply bind_inr in H as (accounts1 & E1 & H).
  apply modify_find_inr in E1 as (cur & new & Fc & En & ->).
  rewrite Fa in Fc. inversion Fc; subst cur; clear Fc.
  unfold debit_open_offer in En.
  apply bind_inr in En as (bal & Eb & En). apply token_sub_inr in Eb as [Le ->].
  apply ok_inr in En. subst new. apply ok_inr in H. subst s1.
  split; [exact Eh|]. split; [exact Le|reflexivity].
Qed.

Lemma find_key256_app_fresh (c : checksum256) (l : list offer) (r : offer) :
  find_key256 by_commitment (get_commitment c) l = None ->
  offer_commitment r = c ->
  find_key256 by_commitment (get_commitment c) (l ++ [r]) = Some r.
Proof.
  unfold find_key256. intros N E. apply least_none in N.
  rewrite filter_app, N. cbn [app filter]. unfold by_commitment at 1.
  rewrite E. rewrite (proj2 (key256_eqb_spec _ _) eq_refl). reflexivity.
Qed.

Lemma erase_app_fresh {T} {RowT : Row T} (k : Z) (t : list T) (r : T) :
  find k t = None -> primary_key r = k -> erase k (t ++ [r]) = t.
Proof.
  intros N K. unfold erase. rewrite filter_app. cbn [filter].
  apply has_key_true in K. rewrite K. cbn [negb]. rewrite app_nil_r.
  induction t as [|x t IH]; [reflexivity|].
  unfold find in N. cbn [List.find filter] in *.
  destruct (has_key k x); [discriminate|]. cbn [negb]. f_equal. now apply IH.
Qed.

Lemma replace_row_restore {T} {RowT : Row T} (k : Z) (a x : T) (t : list T) :
  unique_keys t -> find k t = Some a -> primary_key x = k ->
  replace_row k a (replace_row k x t) = t.
Proof.
  intros U F K. pose proof (find_some _ _ F) as [Ia Ka].
  unfold replace_row. rewrite map_map. rewrite <- (map_id t) at 2.
  apply map_ext_in. intros r I. destruct (has_key k r) eqn:H.
  - apply has_key_true in K. rewrite K. apply has_key_true in H.
    apply (@same_key_same_row _ _ _ _ _ U Ia I). congruence.
  - now rewrite H.
Qed.

(** X8.  Placing an offer that finds no match and then cancelling it puts
    every table back as it was: the stake returns to the balance,
    [open_offers] to its value, and the offer is gone. *)
Theorem canceloffer_undoes_offerbet (ctx ctx' : context) (new_offer : offerbet)
    (s s1 : state) (a : account) :
  let new_row :=
    {| offer_id := available_primary_key (offers s);
       offer_owner := offerbet_player new_offer;
       offer_bet := offerbet_bet new_offer;
       offer_commitment := offerbet_commitment new_offer;
       offer_gameid := 0 |} in
  unique_keys (accounts s) ->
  find (offerbet_player new_offer) (accounts s) = Some a ->
  0 <= account_open_offers a < 2 ^ 32 ->
  - 2 ^ 63 <= amount (account_eos_balance a) < 2 ^ 63 ->
  on_offerbet ctx new_offer s = inr s1 ->
  match_offer new_row (offers s ++ [new_row]) = None ->
  authorized ctx' (offerbet_player new_offer) = true ->
  on_canceloffer ctx'
    {| canceloffer_commitment := offerbet_commitment new_offer |} s1
  = inr s.
Proof.
  intros new_row U Fa Ro Rb H M Au.
  destruct (offerbet_unmatched_inr ctx new_offer s s1 a H M Fa) as (Hh & Le & ->).
  fold new_row. pose proof (find_some _ _ Fa) as [_ Ka].
  change (primary_key a) with (account_owner a) in Ka.
  assert (find_key256 by_commitment (get_commitment (offerbet_commitment new_offer))
            (offers s ++ [new_row]) = Some new_row) as Fn.
  { apply find_key256_app_fresh; [|reflexivity]. unfold has_offer in Hh.
    now destruct (find_key256 _ _ (offers s)). }
  unfold on_canceloffer. cbv zeta. cbn [canceloffer_commitment offers accounts].
  rewrite Fn. cbn [is_some eosio_assert bind ok deref].
  change (offer_gameid new_row) with 0.
  change (offer_owner new_row) with (offerbet_player new_offer).
  change (offer_bet new_row) with (offerbet_bet new_offer).
  change (primary_key new_row) with (available_primary_key (offers s)).
  cbn [Z.eqb eosio_assert bind ok].
  unfold require_auth. rewrite Au. cbn [bind ok].
  erewrite modify_find by (erewrite find_replace_same; [reflexivity|exact Ka|exact Fa]).
  cbn [bind ok games global_dices]. unfold refund.
  cbn [account_owner account_eos_balance account_open_offers account_open_games
       amount].
  change (offer_bet new_row) with (offerbet_bet new_offer).
  rewrite erase_app_fresh; [| |reflexivity].
  2:{ apply find_none_iff. intros [r [E I]]%in_map_iff.
      pose proof (available_primary_key_above _ _ I) as Ab. lia. }
  replace (amount (account_eos_balance a) - amount (offerbet_bet new_offer)
           + amount (offerbet_bet new_offer))
    with (amount (account_eos_balance a)) by lia.
  rewrite wrap_int64_small by exact Rb.
  assert (wrap 32 (wrap 32 (account_open_offers a + 1) - 1)
          = account_open_offers a) as ->.
  { unfold wrap. rewrite Zminus_mod_idemp_l.
    replace (account_open_offers a + 1 - 1) with (account_open_offers a) by lia.
    now apply Z.mod_small. }
  rewrite replace_row_restore; [|exact U| |exact Ka].
  - destruct s. reflexivity.
  - rewrite Fa. f_equal. destruct a as [ow [bal] oo og]. reflexivity.
Qed.

Lemma canceloffer_undoes_offerbet_witness :
  exists s1,
    on_offerbet (host 40)
      {| offerbet_bet := {| amount := 50 |}; offerbet_player := bob;
         offerbet_commitment := commit secret_b |} st_waiting = inr s1
    /\ on_canceloffer (host 45) {| canceloffer_commitment := commit secret_b |} s1
       = inr st_waiting.
Proof.
  destruct (on_offerbet (host 40)
              {| offerbet_bet := {| amount := 50 |}; offerbet_player := bob;
                 offerbet_commitment := commit secret_b |} st_waiting)
    as [e|s1] eqn:E; [vm_compute in E; discriminate|].
  exists s1. split; [reflexivity|].
  apply (canceloffer_undoes_offerbet (host 40) (host 45)
           {| offerbet_bet := {| amount := 50 |}; offerbet_player := bob;
              offerbet_commitment := commit secret_b |} st_waiting s1
           {| account_owner := bob;
              account_eos_balance := {| amount := 1000 |};
              account_open_offers := 0; account_open_games := 0 |}).
  - repeat constructor; cbn; intuition discriminate.
  - reflexivity.
  - cbn. lia.
  - cbn. lia.
  - exact E.
  - vm_compute. reflexivity.
  - reflexivity.
Defined.

(** ** Deposits and withdrawals *)

(** X9.  A deposit whose transfer the token contract accepts adds the
    amount to the depositor's balance, creating the account record with
    both counters at zero when there is none; it asks for no
    authorisation itself and leaves the other accounts, the offers, the
    games and the game counter as they are. *)
Theorem deposit_credits (D : account_name) (ctx : context) (d : deposit)
    (s : state) :
  transfer_accepted ctx (deposit_from d) D (amount (deposit_amount d)) = true ->
  let before :=
    match find (deposit_from d) (accounts s) with
    | Some a => a
    | None => {| account_owner := deposit_from d;
                 account_eos_balance := {| amount := 0 |};
                 account_open_offers := 0; account_open_games := 0 |}
    end in
  exists s',
    on_deposit D ctx d s = inr s'
    /\ find (deposit_from d) (accounts s')
       = Some {| account_owner := deposit_from d;
                 account_eos_balance :=
                   {| amount := amount (account_eos_balance before)
                                + amount (deposit_amount d) |};
                 account_open_offers := account_open_offers before;
                 account_open_games := account_open_games before |}
    /\ (forall k, k <> deposit_from d -> find k (accounts s') = find k (accounts s))
    /\ offers s' = offers s /\ games s' = games s
    /\ global_dices s' = global_dices s.
Proof.
  intros Tr before. unfold on_deposit, inline_transfer, token_type. cbv zeta.
  rewrite Tr. subst before.
  destruct (find (deposit_from d) (accounts s)) as [a|] eqn:Fa.
  - pose proof (find_some _ _ Fa) as [_ Ka].
    change (primary_key a) with (account_owner a) in Ka.
    cbn [bind ok].
    erewrite modify_found
      by (change (primary_key a) with (account_owner a); rewrite Ka; exact Fa).
    change (primary_key a) with (account_owner a). rewrite Ka.
    unfold credit, token_add, token_type. cbn [bind ok].
    eexists. split; [reflexivity|]. cbn [offers games global_dices accounts].
    split; [|split; [|auto]].
    + erewrite find_replace_same; [|exact Ka|exact Fa]. now rewrite Ka.
    + intros k Dk. now apply find_replace_other.
  - rewrite emplace_fresh by exact Fa. cbn [bind ok].
    erewrite modify_found.
    2:{ rewrite find_app. cbn [primary_key account_row account_owner].
        rewrite Fa. apply find_singleton_key. reflexivity. }
    unfold credit, token_add, token_type. cbn [bind ok].
    eexists. split; [reflexivity|]. cbn [offers games global_dices accounts].
    cbn [primary_key account_row account_owner account_eos_balance amount
         account_open_offers account_open_games].
    split; [|split; [|auto]].
    + erewrite find_replace_same; [reflexivity|reflexivity|].
      rewrite find_app, Fa. apply find_singleton_key. reflexivity.
    + intros k Dk. rewrite find_replace_other; [|reflexivity|exact Dk].
      rewrite find_app. destruct (find k (accounts s)); [reflexivity|].
      unfold find. cbn [List.find]. unfold has_key.
      cbn [primary_key account_row account_owner].
      destruct (Z.eqb_spec (deposit_from d) k); [congruence|reflexivity].
Qed.

Lemma deposit_credits_witness :
  exists s',
    on_deposit dice (host 10)
      {| deposit_from := alice; deposit_amount := {| amount := 1000 |} |}
      initial_state = inr s'
    /\ find alice (accounts s')
       = Some {| account_owner := alice;
                 account_eos_balance := {| amount := 1000 |};
                 account_open_offers := 0; account_open_games := 0 |}.
Proof.
  destruct (deposit_credits dice (host 10)
              {| deposit_from := alice; deposit_amount := {| amount := 1000 |} |}
              initial_state eq_refl)
    as (s' & E & Fa & _).
  exists s'. split; [exact E|exact Fa].
Defined.

(** X10.  [withdraw] first asks for the authorisation of the receiving
    account, then refuses an account that has no record, then an amount
    above the balance, then gives up when the token contract rejects the
    transfer. *)
Theorem withdraw_rejects (D : account_name) (ctx : context) (w : withdraw)
    (s : state) :
  (authorized ctx (withdraw_to w) = false ->
   on_withdraw D ctx w s = inl (missing_auth (withdraw_to w)))
  /\ (authorized ctx (withdraw_to w) = true ->
      find (withdraw_to w) (accounts s) = None ->
      on_withdraw D ctx w s = inl (assert_failure "unknown account"))
  /\ (forall a,
      authorized ctx (withdraw_to w) = true ->
      find (withdraw_to w) (accounts s) = Some a ->
      amount (account_eos_balance a) < amount (withdraw_amount w) ->
      on_withdraw D ctx w s = inl token_underflow)
  /\ (forall a,
      authorized ctx (withdraw_to w) = true ->
      find (withdraw_to w) (accounts s) = Some a ->
      amount (withdraw_amount w) <= amount (account_eos_balance a) ->
      transfer_accepted ctx D (withdraw_to w) (amount (withdraw_amount w)) = false ->
      on_withdraw D ctx w s = inl transfer_failed).
Proof.
  unfold on_withdraw, require_auth, inline_transfer, token_type. cbv zeta.
  split; [|split; [|split]].
  - intros ->. reflexivity.
  - intros -> ->. reflexivity.
  - intros a -> Fa Lt. rewrite Fa. cbn [is_some eosio_assert bind ok].
    rewrite <- Fa at 1. erewrite modify_find by exact Fa.
    unfold debit, token_sub, token_type. apply Z.ltb_lt in Lt. rewrite Lt.
    reflexivity.
  - intros a -> Fa Le Tr. rewrite Fa. cbn [is_some eosio_assert bind ok].
    rewrite <- Fa at 1. erewrite modify_find by exact Fa.
    unfold debit, token_sub, token_type. apply Z.ltb_ge in Le. rewrite Le.
    cbn [bind ok]. rewrite Tr. reflexivity.
Qed.

(** X11.  A withdrawal that goes through takes the amount off the
    balance, and deletes the account record exactly when [is_empty] holds
    afterwards: the balance and both counters are zero.  The other
    accounts and the other tables are untouched. *)
Theorem withdraw_pays_out (D : account_name) (ctx : context) (w : withdraw)
    (s : state) (a : account) :
  authorized ctx (withdraw_to w) = true ->
  find (withdraw_to w) (accounts s) = Some a ->
  amount (withdraw_amount w) <= amount (account_eos_balance a) ->
  transfer_accepted ctx D (withdraw_to w) (amount (withdraw_amount w)) = true ->
  let left :=
    {| account_owner := account_owner a;
       account_eos_balance :=
         {| amount := amount (account_eos_balance a) - amount (withdraw_amount w) |};
       account_open_offers := account_open_offers a;
       account_open_games := account_open_games a |} in
  exists s',
    on_withdraw D ctx w s = inr s'
    /\ find (withdraw_to w) (accounts s')
       = (if (amount (account_eos_balance left) =? 0)
             && (account_open_offers a =? 0) && (account_open_games a =? 0)
          then None else Some left)
    /\ (forall k, k <> withdraw_to w -> find k (accounts s') = find k (accounts s))
    /\ offers s' = offers s /\ games s' = games s
    /\ global_dices s' = global_dices s.
Proof.
  intros Au Fa Le Tr left.
  pose proof (find_some _ _ Fa) as [_ Ka].
  change (primary_key a) with (account_owner a) in Ka.
  unfold on_withdraw, require_auth, inline_transfer, token_type. cbv zeta.
  rewrite Au, Fa. cbn [is_some eosio_assert bind ok].
  erewrite modify_found
    by (change (primary_key a) with (account_owner a); rewrite Ka; exact Fa).
  change (primary_key a) with (account_owner a). rewrite Ka.
  unfold debit, token_sub, token_type. apply Z.ltb_ge in Le. rewrite Le.
  cbn [bind ok]. rewrite Tr. cbn [bind ok]. fold left.
  erewrite find_replace_same; [|exact Ka|exact Fa]. cbn [deref bind ok].
  eexists. split; [reflexivity|]. cbn [offers games global_dices accounts].
  change (primary_key left) with (account_owner a). rewrite Ka.
  assert (is_empty left
          = (amount (account_eos_balance left) =? 0)
            && (account_open_offers a =? 0) && (account_open_games a =? 0)) as ->.
  { apply eq_true_iff_eq. rewrite is_empty_spec, !andb_true_iff, !Z.eqb_eq.
    cbn [left account_open_offers account_open_games]. tauto. }
  split; [|split; [|auto]].
  - destruct (_ && _ && _).
    + apply find_erase_same.
    + erewrite find_replace_same; [reflexivity|exact Ka|exact Fa].
  - intros k Dk. destruct (_ && _ && _).
    + rewrite find_erase_other by exact Dk. now apply find_replace_other.
    + now apply find_replace_other.
Qed.

Lemma withdraw_pays_out_witness :
  exists s',
    on_withdraw dice (host 35)
      {| withdraw_to := bob; withdraw_amount := {| amount := 1000 |} |}
      st_waiting = inr s'
    /\ find bob (accounts s') = None
    /\ find alice (accounts s') = find alice (accounts st_waiting).
Proof.
  destruct (withdraw_pays_out dice (host 35)
              {| withdraw_to := bob; withdraw_amount := {| amount := 1000 |} |}
              st_waiting
              {| account_owner := bob;
                 account_eos_balance := {| amount := 1000 |};
                 account_open_offers := 0; account_open_games := 0 |})
    as (s' & E & Fb & Other & _).
  - reflexivity.
  - reflexivity.
  - vm_compute. discriminate.
  - reflexivity.
  - exists s'. split; [exact E|]. split; [exact Fb|].
    apply Other. discriminate.
Defined.

(** The tables after a deposit and after a withdrawal, row by row. *)
Lemma on_deposit_effect (D : account_name) (ctx : context) (d : deposit)
    (s s1 : state) :
  on_deposit D ctx d s = inr s1 ->
  s1 = {| offers := offers s; games := games s; global_dices := global_dices s;
          accounts :=
            match find (deposit_from d) (accounts s) with
            | Some a =>
                replace_row (deposit_from d)
                  {| account_owner := account_owner a;
                     account_eos_balance :=
                       {| amount := amount (account_eos_balance a)
                                    + amount (deposit_amount d) |};
                     account_open_offers := account_open_offers a;
                     account_open_games := account_open_games a |}
                  (accounts s)
            | None =>
                accounts s ++
                [{| account_owner := deposit_from d;
                    account_eos_balance := {| amount := amount (deposit_amount d) |};
                    account_open_offers := 0; account_open_games := 0 |}]
            end |}.
Proof.
  intros H. unfold on_deposit, token_type in H. cbv zeta in H.
  destruct (find (deposit_from d) (accounts s)) as [a|] eqn:Fa.
  - pose proof (find_some _ _ Fa) as [_ Ka].
    cbn [bind ok] in H.
    apply bind_inr in H as (? & _ & H).
    apply bind_inr in H as (accounts2 & E2 & H).
    apply modify_inr in E2 as (i & cur & new & Ei & Ec & En & ->).
    inversion Ei; subst i; clear Ei. rewrite Ka in *.
    rewrite Fa in Ec. inversion Ec; subst cur; clear Ec.
    unfold credit, token_add, token_type in En. cbn [bind ok] in En.
    apply ok_inr in En. subst new. apply ok_inr in H. now subst s1.
  - apply bind_inr in H as (accounts1 & E1 & H).
    apply emplace_inr in E1 as [_ ->].
    apply bind_inr in H as (? & _ & H).
    apply bind_inr in H as (accounts2 & E2 & H).
    apply modify_inr in E2 as (i & cur & new & Ei & Ec & En & ->).
    inversion Ei; subst i; clear Ei.
    change (primary_key _) with (deposit_from d) in *.
    rewrite find_app, Fa in Ec.
    rewrite find_singleton_key in Ec by reflexivity.
    inversion Ec; subst cur; clear Ec.
    unfold credit, token_add, token_type in En. cbn [bind ok] in En.
    apply ok_inr in En. subst new. apply ok_inr in H. subst s1.
    f_equal. unfold replace_row. rewrite map_app. cbn [map]. unfold has_key.
    cbn [primary_key account_row account_owner account_eos_balance amount
         account_open_offers account_open_games].
    rewrite Z.eqb_refl. f_equal.
    rewrite <- (map_id (accounts s)) at 2. apply map_ext_in. intros r I.
    pose proof (find_none _ _ Fa I) as N. apply Z.eqb_neq in N. now rewrite N.
Qed.

Lemma withdraw_evaluates (D : account_name) (ctx : context) (w : withdraw)
    (s : state) (a : account) :
  authorized ctx (withdraw_to w) = true ->
  find (withdraw_to w) (accounts s) = Some a ->
  amount (withdraw_amount w) <= amount (account_eos_balance a) ->
  transfer_accepted ctx D (withdraw_to w) (amount (withdraw_amount w)) = true ->
  let left :=
    {| account_owner := account_owner a;
       account_eos_balance :=
         {| amount := amount (account_eos_balance a) - amount (withdraw_amount w) |};
       account_open_offers := account_open_offers a;
       account_open_games := account_open_games a |} in
  on_withdraw D ctx w s
  = inr {| offers := offers s; games := games s; global_dices := global_dices s;
           accounts :=
             if is_empty left
             then erase (withdraw_to w) (replace_row (withdraw_to w) left (accounts s))
             else replace_row (withdraw_to w) left (accounts s) |}.
Proof.
  intros Au Fa Le Tr left.
  pose proof (find_some _ _ Fa) as [_ Ka].
  change (primary_key a) with (account_owner a) in Ka.
  unfold on_withdraw, require_auth, inline_transfer, token_type. cbv zeta.
  rewrite Au, Fa. cbn [is_some eosio_assert bind ok].
  erewrite modify_found
    by (change (primary_key a) with (account_owner a); rewrite Ka; exact Fa).
  change (primary_key a) with (account_owner a). rewrite Ka.
  unfold debit, token_sub, token_type. apply Z.ltb_ge in Le. rewrite Le.
  cbn [bind ok]. rewrite Tr. cbn [bind ok]. fold left.
  erewrite find_replace_same; [|exact Ka|exact Fa]. cbn [deref bind ok].
  change (primary_key left) with (account_owner a). rewrite Ka. reflexivity.
Qed.

(** X12.  A deposit followed by the withdrawal of the same amount by the
    depositor puts the tables back as they were, whether the deposit
    created the account record or found one (which must not be an empty
    record, and must not be overdrawn). *)
Theorem withdraw_undoes_deposit (D : account_name) (ctx ctx' : context)
    (d : deposit) (s s1 : state) :
  unique_keys (accounts s) ->
  match find (deposit_from d) (accounts s) with
  | Some a => is_empty a = false /\ 0 <= amount (account_eos_balance a)
  | None => True
  end ->
  on_deposit D ctx d s = inr s1 ->
  authorized ctx' (deposit_from d) = true ->
  transfer_accepted ctx' D (deposit_from d) (amount (deposit_amount d)) = true ->
  on_withdraw D ctx'
    {| withdraw_to := deposit_from d; withdraw_amount := deposit_amount d |} s1
  = inr s.
Proof.
  intros U Pre H Au Tr. apply on_deposit_effect in H. subst s1.
  destruct (find (deposit_from d) (accounts s)) as [a|] eqn:Fa.
  - destruct Pre as [Ne Pos].
    pose proof (find_some _ _ Fa) as [_ Ka].
    change (primary_key a) with (account_owner a) in Ka.
    assert (find (deposit_from d)
              (replace_row (deposit_from d)
                 {| account_owner := account_owner a;
                    account_eos_balance :=
                      {| amount := amount (account_eos_balance a)
                                   + amount (deposit_amount d) |};
                    account_open_offers := account_open_offers a;
                    account_open_games := account_open_games a |}
                 (accounts s))
            = Some {| account_owner := account_owner a;
                      account_eos_balance :=
                        {| amount := amount (account_eos_balance a)
                                     + amount (deposit_amount d) |};
                      account_open_offers := account_open_offers a;
                      account_open_games := account_open_games a |}) as F2.
    { erewrite find_replace_same; [reflexivity|exact Ka|exact Fa]. }
    match goal with
    | |- on_withdraw _ _ ?w ?S = _ =>
        rewrite (withdraw_evaluates D ctx' w S _ Au F2); [|cbn; lia|exact Tr]
    end.
    cbn [withdraw_to withdraw_amount offers games global_dices accounts
         account_owner account_eos_balance amount account_open_offers
         account_open_games].
    replace (amount (account_eos_balance a) + amount (deposit_amount d)
             - amount (deposit_amount d))
      with (amount (account_eos_balance a)) by lia.
    assert ({| account_owner := account_owner a;
               account_eos_balance := {| amount := amount (account_eos_balance a) |};
               account_open_offers := account_open_offers a;
               account_open_games := account_open_games a |} = a) as ->
        by (destruct a as [ow [bal] oo og]; reflexivity).
    rewrite Ne. rewrite replace_row_restore; [|exact U|exact Fa|exact Ka].
    destruct s. reflexivity.
  - assert (find (deposit_from d)
              (accounts s ++
               [{| account_owner := deposit_from d;
                   account_eos_balance := {| amount := amount (deposit_amount d) |};
                   account_open_offers := 0; account_open_games := 0 |}])
            = Some {| account_owner := deposit_from d;
                      account_eos_balance :=
                        {| amount := amount (deposit_amount d) |};
                      account_open_offers := 0; account_open_games := 0 |}) as F1.
    { rewrite find_app, Fa. apply find_singleton_key. reflexivity. }
    match goal with
    | |- on_withdraw _ _ ?w ?S = _ =>
        rewrite (withdraw_evaluates D ctx' w S _ Au F1); [|cbn; lia|exact Tr]
    end.
    cbn [withdraw_to withdraw_amount offers games global_dices accounts
         account_owner account_eos_balance amount account_open_offers
         account_open_games].
    rewrite Z.sub_diag. change (is_empty _) with true. cbv iota.
    unfold replace_row. rewrite map_app. cbn [map]. unfold has_key at 2.
    cbn [primary_key account_row account_owner]. rewrite Z.eqb_refl.
    assert (map (fun r : account =>
                   if has_key (deposit_from d) r
                   then {| account_owner := deposit_from d;
                           account_eos_balance := {| amount := 0 |};
                           account_open_offers := 0; account_open_games := 0 |}
                   else r) (accounts s) = accounts s) as ->.
    { rewrite <- (map_id (accounts s)) at 2. apply map_ext_in. intros r I.
      pose proof (find_none _ _ Fa I) as N. apply has_key_false in N.
      now rewrite N. }
    rewrite erase_app_fresh; [destruct s; reflexivity|exact Fa|reflexivity].
Qed.

Lemma withdraw_undoes_deposit_witness :
  exists s1,
    on_deposit dice (host 32)
      {| deposit_from := bob; deposit_amount := {| amount := 200 |} |}
      st_waiting = inr s1
    /\ on_withdraw dice (host 33)
         {| withdraw_to := bob; withdraw_amount := {| amount := 200 |} |} s1
       = inr st_waiting.
Proof.
  destruct (on_deposit dice (host 32)
              {| deposit_from := bob; deposit_amount := {| amount := 200 |} |}
              st_waiting) as [e|s1] eqn:E; [vm_compute in E; discriminate|].
  exists s1. split; [reflexivity|].
  apply (withdraw_undoes_deposit dice (host 32) (host 33)
           {| deposit_from := bob; deposit_amount := {| amount := 200 |} |}
           st_waiting s1).
  - repeat constructor; cbn; intuition discriminate.
  - vm_compute. split; [reflexivity|discriminate].
  - exact E.
  - reflexivity.
  - reflexivity.
Defined.

(** ** Reveals *)

(** X13.  [reveal] refuses a source that does not hash to the
    commitment, then a commitment no offer carries, then an offer that is
    in no game, then a player whose slot of the game already holds a
    reveal. *)
Theorem reveal_rejects (sha256 : list byte -> checksum256) (ctx : context)
    (r : reveal) (s : state) :
  let found :=
    find_key256 by_commitment (get_commitment (reveal_commitment r)) (offers s) in
  let hashed := sha256 (checksum_bytes (reveal_source r)) in
  (hashed <> reveal_commitment r -> on_reveal sha256 ctx r s = inl hash_mismatch)
  /\ (hashed = reveal_commitment r -> found = None ->
      on_reveal sha256 ctx r s = inl (assert_failure "offer not found"))
  /\ (forall o, hashed = reveal_commitment r -> found = Some o ->
      offer_gameid o <= 0 ->
      on_reveal sha256 ctx r s = inl (assert_failure "unable to reveal"))
  /\ (forall o g, hashed = reveal_commitment r -> found = Some o ->
      0 < offer_gameid o -> find (offer_gameid o) (games s) = Some g ->
      is_zero (player_reveal
                 (if is_equal (player_commitment (game_player1 g))
                              (reveal_commitment r)
                  then game_player1 g else game_player2 g)) = false ->
      on_reveal sha256 ctx r s = inl (assert_failure "player already revealed")).
Proof.
  assert (forall c, is_equal c c = true) as Refl
      by (intros c; now apply is_equal_spec).
  cbv zeta. unfold on_reveal, assert_sha256. cbv zeta.
  split; [|split; [|split]].
  - intros N. destruct (is_equal _ (reveal_commitment r)) eqn:E; [|reflexivity].
    apply is_equal_spec in E. contradiction.
  - intros -> ->. rewrite Refl. reflexivity.
  - intros o -> -> G. rewrite Refl. cbn [bind ok is_some eosio_assert deref].
    apply Z.ltb_ge in G. rewrite G. reflexivity.
  - intros o g -> -> G Fg Z. rewrite Refl.
    cbn [bind ok is_some eosio_assert deref].
    apply Z.ltb_lt in G. rewrite G, Fg. cbn [bind ok eosio_assert deref].
    destruct (is_equal (player_commitment (game_player1 g)) _);
      cbn [negb]; rewrite Z; reflexivity.
Qed.

(** The first reveal of a game: the game row after the call. *)
Lemma reveal_records (sha256 : list byte -> checksum256) (ctx : context)
    (r : reveal) (s : state) (o : offer) (g : game) :
  sha256 (checksum_bytes (reveal_source r)) = reveal_commitment r ->
  find_key256 by_commitment (get_commitment (reveal_commitment r)) (offers s)
  = Some o ->
  0 < offer_gameid o ->
  find (offer_gameid o) (games s) = Some g ->
  player_commitment (game_player1 g) <> player_commitment (game_player2 g) ->
  player_reveal (game_player1 g) = zero256 ->
  player_reveal (game_player2 g) = zero256 ->
  let mine := is_equal (player_commitment (game_player1 g)) (reveal_commitment r) in
  on_reveal sha256 ctx r s
  = inr {| offers := offers s;
           games :=
             replace_row (offer_gameid o)
               {| game_id := game_id g;
                  game_bet := game_bet g;
                  game_deadline := wrap 32 (now ctx + FIVE_MINUTES);
                  game_player1 :=
                    if mine then set_reveal (game_player1 g) (reveal_source r)
                    else game_player1 g;
                  game_player2 :=
                    if mine then game_player2 g
                    else set_reveal (game_player2 g) (reveal_source r) |}
               (games s);
           global_dices := global_dices s;
           accounts := accounts s |}.
Proof.
  intros Hs Ho Hg Fg Dc Z1 Z2 mine.
  assert (forall c, is_equal c c = true) as Refl
      by (intros c; now apply is_equal_spec).
  pose proof (find_some _ _ Fg) as [_ Kg].
  unfold on_reveal, assert_sha256. cbv zeta. rewrite Hs, Refl, Ho.
  cbn [bind ok is_some eosio_assert deref].
  apply Z.ltb_lt in Hg. rewrite Hg, Fg. cbn [bind ok eosio_assert deref].
  fold mine. destruct mine eqn:Em; cbn [negb]; rewrite Z1, Z2;
    change (is_zero zero256) with true; cbn [bind ok eosio_assert negb];
    (erewrite modify_found by (rewrite Kg; exact Fg)); cbn [bind ok]; rewrite Kg;
    unfold record_reveal; cbv zeta.
  - rewrite Refl. reflexivity.
  - assert (is_equal (player_commitment (game_player2 g))
              (player_commitment (game_player1 g)) = false) as ->; [|reflexivity].
    apply not_true_is_false. intros E. apply is_equal_spec in E. congruence.
Qed.

(** X14.  The first reveal of a game is written to the slot whose
    commitment it opens and starts the clock: the deadline becomes
    [now + 5 minutes] (a [uint32_t]), the other slot stays unrevealed,
    and commitments, stake, the other games, the offers and the accounts
    are untouched.  Nothing is paid yet. *)
Theorem first_reveal_is_recorded (sha256 : list byte -> checksum256)
    (ctx : context) (r : reveal) (s : state) (o : offer) (g : game) :
  sha256 (checksum_bytes (reveal_source r)) = reveal_commitment r ->
  find_key256 by_commitment (get_commitment (reveal_commitment r)) (offers s)
  = Some o ->
  0 < offer_gameid o ->
  find (offer_gameid o) (games s) = Some g ->
  player_commitment (game_player1 g) <> player_commitment (game_player2 g) ->
  player_reveal (game_player1 g) = zero256 ->
  player_reveal (game_player2 g) = zero256 ->
  let mine := is_equal (player_commitment (game_player1 g)) (reveal_commitment r) in
  exists s1 g1,
    on_reveal sha256 ctx r s = inr s1
    /\ find (offer_gameid o) (games s1) = Some g1
    /\ game_deadline g1 = wrap 32 (now ctx + 300)
    /\ player_reveal (if mine then game_player1 g1 else game_player2 g1)
       = reveal_source r
    /\ player_reveal (if mine then game_player2 g1 else game_player1 g1) = zero256
    /\ player_commitment (game_player1 g1) = player_commitment (game_player1 g)
    /\ player_commitment (game_player2 g1) = player_commitment (game_player2 g)
    /\ game_bet g1 = game_bet g
    /\ (forall k, k <> offer_gameid o -> find k (games s1) = find k (games s))
    /\ offers s1 = offers s /\ accounts s1 = accounts s
    /\ global_dices s1 = global_dices s.
Proof.
  intros Hs Ho Hg Fg Dc Z1 Z2 mine.
  pose proof (find_some _ _ Fg) as [_ Kg].
  change (primary_key g) with (game_id g) in Kg.
  rewrite (reveal_records sha256 ctx r s o g Hs Ho Hg Fg Dc Z1 Z2). fold mine.
  eexists. eexists. split; [reflexivity|]. cbn [offers games accounts global_dices].
  split; [erewrite find_replace_same; [reflexivity|exact Kg|exact Fg]|].
  cbn [game_deadline game_player1 game_player2 game_bet].
  split; [reflexivity|].
  destruct mine; cbn [set_reveal player_reveal player_commitment];
    repeat (split; [solve [reflexivity|assumption]|]);
    (split; [intros k Dk; now apply find_replace_other|auto]).
Qed.

Lemma first_reveal_is_recorded_witness :
  exists s1 g1,
    on_reveal SHA256.sha256 (host 50)
      {| reveal_commitment := commit secret_b; reveal_source := secret_b |}
      (st_playing (game1 zero256 zero256 0)) = inr s1
    /\ find 1 (games s1) = Some g1
    /\ game_deadline g1 = 350
    /\ player_reveal (game_player2 g1) = secret_b
    /\ player_reveal (game_player1 g1) = zero256.
Proof.
  destruct (first_reveal_is_recorded SHA256.sha256 (host 50)
              {| reveal_commitment := commit secret_b; reveal_source := secret_b |}
              (st_playing (game1 zero256 zero256 0)) bob_in_game
              (game1 zero256 zero256 0))
    as (s1 & g1 & E & Fg & Dl & Mine & Other & _).
  - reflexivity.
  - vm_compute. reflexivity.
  - reflexivity.
  - reflexivity.
  - intros E. vm_compute in E. discriminate E.
  - reflexivity.
  - reflexivity.
  - exists s1, g1. split; [exact E|]. split; [exact Fg|]. split; [exact Dl|].
    assert (is_equal (player_commitment (game_player1 (game1 zero256 zero256 0)))
              (commit secret_b) = false) as F by (vm_compute; reflexivity).
    cbn [reveal_commitment reveal_source] in Mine, Other.
    rewrite F in Mine, Other. split; [exact Mine|exact Other].
Defined.

(** X15.  A player who has made the first reveal of a game cannot reveal
    again: repeating the call is refused with "player already revealed",
    so the stored reveal cannot be replaced.  (This needs the revealed
    secret not to be the all-zero hash, which the contract reads as "not
    revealed".) *)
Theorem reveal_twice_rejected (sha256 : list byte -> checksum256)
    (ctx ctx' : context) (r : reveal) (s s1 : state) (o : offer) (g : game) :
  find_key256 by_commitment (get_commitment (reveal_commitment r)) (offers s)
  = Some o ->
  find (offer_gameid o) (games s) = Some g ->
  player_commitment (game_player1 g) <> player_commitment (game_player2 g) ->
  player_reveal (game_player1 g) = zero256 ->
  player_reveal (game_player2 g) = zero256 ->
  is_zero (reveal_source r) = false ->
  on_reveal sha256 ctx r s = inr s1 ->
  on_reveal sha256 ctx' r s1 = inl (assert_failure "player already revealed").
Proof.
  intros Ho Fg Dc Z1 Z2 Nz H.
  assert (forall c, is_equal c c = true) as Refl
      by (intros c; now apply is_equal_spec).
  pose proof (find_some _ _ Fg) as [_ Kg].
  change (primary_key g) with (game_id g) in Kg.
  assert (sha256 (checksum_bytes (reveal_source r)) = reveal_commitment r
          /\ 0 < offer_gameid o) as [Hs Hg].
  { unfold on_reveal, assert_sha256 in H. cbv zeta in H.
    apply bind_inr in H as (? & Es & H).
    destruct (is_equal _ (reveal_commitment r)) eqn:E; [|discriminate].
    apply is_equal_spec in E. split; [exact E|].
    rewrite Ho in H. cbn [bind ok is_some eosio_assert deref] in H.
    apply bind_inr in H as (? & Eg & _).
    now apply eosio_assert_inr, Z.ltb_lt in Eg. }
  rewrite (reveal_records sha256 ctx r s o g Hs Ho Hg Fg Dc Z1 Z2) in H.
  apply ok_inr in H. subst s1.
  unfold on_reveal, assert_sha256. cbv zeta. cbn [offers games].
  rewrite Hs, Refl, Ho. cbn [bind ok is_some eosio_assert deref].
  apply Z.ltb_lt in Hg. rewrite Hg.
  erewrite find_replace_same; [|exact Kg|exact Fg].
  cbn [bind ok eosio_assert deref game_player1 game_player2].
  destruct (is_equal (player_commitment (game_player1 g)) (reveal_commitment r))
    eqn:Em; cbn [set_reveal player_commitment player_reveal].
  - rewrite Em. cbn [negb player_reveal set_reveal]. rewrite Nz. reflexivity.
  - rewrite Em. cbn [negb player_reveal set_reveal]. rewrite Nz. reflexivity.
Qed.

Lemma reveal_twice_rejected_witness :
  exists s1,
    on_reveal SHA256.sha256 (host 50)
      {| reveal_commitment := commit secret_b; reveal_source := secret_b |}
      (st_playing (game1 zero256 zero256 0)) = inr s1
    /\ on_reveal SHA256.sha256 (host 55)
         {| reveal_commitment := commit secret_b; reveal_source := secret_b |} s1
       = inl (assert_failure "player already revealed").
Proof.
  destruct (on_reveal SHA256.sha256 (host 50)
              {| reveal_commitment := commit secret_b; reveal_source := secret_b |}
              (st_playing (game1 zero256 zero256 0)))
    as [e|s1] eqn:E; [vm_compute in E; discriminate|].
  exists s1. split; [reflexivity|].
  apply (reveal_twice_rejected SHA256.sha256 (host 50) (host 55)
           {| reveal_commitment := commit secret_b; reveal_source := secret_b |}
           (st_playing (game1 zero256 zero256 0)) s1 bob_in_game
           (game1 zero256 zero256 0)).
  - vm_compute. reflexivity.
  - reflexivity.
  - intros N. vm_compute in N. discriminate N.
  - reflexivity.
  - reflexivity.
  - vm_compute. reflexivity.
  - exact E.
Defined.

(** ** Claiming an expired game *)

(** X16.  [claimexpired] refuses an id no game carries, and a game whose
    clock has not started (deadline 0) or has not run out: the call only
    goes on when [now] is strictly after the deadline. *)
Theorem claimexpired_rejects (ctx : context) (claim : claimexpired) (s : state) :
  (find (claimexpired_gameid claim) (games s) = None ->
   on_claimexpired ctx claim s = inl (assert_failure "game not found"))
  /\ (forall g, find (claimexpired_gameid claim) (games s) = Some g ->
      game_deadline g = 0 \/ now ctx <= game_deadline g ->
      on_claimexpired ctx claim s = inl (assert_failure "game not expired")).
Proof.
  unfold on_claimexpired. cbv zeta. split.
  - intros ->. reflexivity.
  - intros g -> Early. cbn [is_some eosio_assert bind ok deref].
    assert (negb (game_deadline g =? 0) && (game_deadline g <? now ctx) = false)
      as ->; [|reflexivity].
    destruct Early as [E|L].
    + rewrite E. reflexivity.
    + apply Z.ltb_ge in L. rewrite L. apply andb_false_r.
Qed.

(** X17.  When the deadline of a game has passed and exactly one of its
    two reveals is present, [claimexpired] settles the game with the
    player who revealed as winner and the silent one as loser, whoever
    makes the call. *)
Theorem claimexpired_pays_revealer (ctx : context) (claim : claimexpired)
    (s : state) (g : game) (o1 o2 : offer) :
  find (claimexpired_gameid claim) (games s) = Some g ->
  game_deadline g <> 0 -> game_deadline g < now ctx ->
  xorb (is_zero (player_reveal (game_player1 g)))
       (is_zero (player_reveal (game_player2 g))) = true ->
  find_key256 by_commitment
    (get_commitment (player_commitment (game_player1 g))) (offers s) = Some o1 ->
  find_key256 by_commitment
    (get_commitment (player_commitment (game_player2 g))) (offers s) = Some o2 ->
  on_claimexpired ctx claim s
  = if is_zero (player_reveal (game_player2 g))
    then pay_and_clean g o1 o2 s
    else pay_and_clean g o2 o1 s.
Proof.
  intros Fg D0 Dl X F1 F2.
  unfold on_claimexpired. cbv zeta. rewrite Fg.
  cbn [is_some eosio_assert bind ok deref].
  apply Z.eqb_neq in D0. apply Z.ltb_lt in Dl. rewrite D0, Dl, F1, F2.
  cbn [negb andb eosio_assert bind ok].
  destruct (is_zero (player_reveal (game_player1 g))),
           (is_zero (player_reveal (game_player2 g)));
    try discriminate X; reflexivity.
Qed.

Lemma claimexpired_pays_revealer_witness :
  on_claimexpired (host 1000) {| claimexpired_gameid := 1 |}
    (st_playing (game1 zero256 secret_b 350))
  = pay_and_clean (game1 zero256 secret_b 350) bob_in_game alice_in_game
      (st_playing (game1 zero256 secret_b 350)).
Proof.
  rewrite (claimexpired_pays_revealer (host 1000) {| claimexpired_gameid := 1 |}
             (st_playing (game1 zero256 secret_b 350))
             (game1 zero256 secret_b 350) alice_in_game bob_in_game).
  - reflexivity.
  - reflexivity.
  - discriminate.
  - reflexivity.
  - vm_compute. reflexivity.
  - vm_compute. reflexivity.
  - vm_compute. reflexivity.
Defined.

(** ** What the tables keep *)

(** X18.  In every state reached by fewer than [2^32] calls, the two
    counters of an account record say what the offer table holds:
    [open_offers] is the number of the owner's offers that wait for a
    match, [open_games] the number of the owner's offers that are in a
    game. *)
Theorem open_counters_exact (D : account_name)
    (sha256 : list byte -> checksum256) (n : nat) (s : state)
    (who : account_name) (a : account) :
  reachable_in D sha256 n s -> Z.of_nat n < 2 ^ 32 ->
  find who (accounts s) = Some a ->
  account_open_offers a = count (owned_open who) (offers s)
  /\ account_open_games a = count (owned_in_game who) (offers s).
Proof.
  intros R Bound Fa.
  pose proof (integrity_reachable _ _ _ _ R Bound) as Inv.
  exact (counters_exact Inv who Fa).
Qed.

Lemma open_counters_exact_witness :
  account_open_offers
    {| account_owner := alice; account_eos_balance := {| amount := 900 |};
       account_open_offers := 1; account_open_games := 0 |}
  = count (owned_open alice) (offers st_waiting)
  /\ account_open_games
       {| account_owner := alice; account_eos_balance := {| amount := 900 |};
          account_open_offers := 1; account_open_games := 0 |}
     = count (owned_in_game alice) (offers st_waiting).
Proof.
  apply (open_counters_exact dice SHA256.sha256 3 st_waiting alice).
  - apply (@run_reachable dice SHA256.sha256
             [(host 10, fund alice 1000); (host 20, fund bob 1000);
              (host 30, place alice 100 secret_a)] 0 initial_state st_waiting).
    + constructor.
    + vm_compute. reflexivity.
  - vm_compute. reflexivity.
  - reflexivity.
Defined.

(** X19.  In every state reached by fewer than [2^32] calls, a stored
    game has a non-zero id and two offers in the table that carry its two
    commitments and its id; these two offers belong to different
    accounts (nobody plays against oneself) and their stake field is 0,
    the stakes being held by the game. *)
Theorem games_have_two_players (D : account_name)
    (sha256 : list byte -> checksum256) (n : nat) (s : state) (g : game) :
  reachable_in D sha256 n s -> Z.of_nat n < 2 ^ 32 ->
  In g (games s) ->
  game_id g <> 0
  /\ exists o1 o2,
       In o1 (offers s) /\ In o2 (offers s)
       /\ offer_commitment o1 = player_commitment (game_player1 g)
       /\ offer_commitment o2 = player_commitment (game_player2 g)
       /\ offer_gameid o1 = game_id g /\ offer_gameid o2 = game_id g
       /\ offer_owner o1 <> offer_owner o2
       /\ amount (offer_bet o1) = 0 /\ amount (offer_bet o2) = 0.
Proof.
  intros R Bound Ig.
  pose proof (integrity_reachable _ _ _ _ R Bound) as Inv.
  destruct (game_has_offers Inv g Ig)
    as (Nz & o1 & o2 & I1 & I2 & C1 & C2 & G1 & G2 & Do).
  split; [exact Nz|]. exists o1, o2.
  assert (offer_gameid o1 <> 0) as N1 by congruence.
  assert (offer_gameid o2 <> 0) as N2 by congruence.
  destruct (offer_has_game Inv o1 I1 N1) as [A1 _].
  destruct (offer_has_game Inv o2 I2 N2) as [A2 _].
  repeat (split; [assumption|]). exact A2.
Qed.

Lemma games_have_two_players_witness :
  game_id (game1 zero256 zero256 0) <> 0
  /\ exists o1 o2,
       In o1 (offers (st_playing (game1 zero256 zero256 0)))
       /\ In o2 (offers (st_playing (game1 zero256 zero256 0)))
       /\ offer_commitment o1 = player_commitment (game_player1 (game1 zero256 zero256 0))
       /\ offer_commitment o2 = player_commitment (game_player2 (game1 zero256 zero256 0))
       /\ offer_gameid o1 = game_id (game1 zero256 zero256 0)
       /\ offer_gameid o2 = game_id (game1 zero256 zero256 0)
       /\ offer_owner o1 <> offer_owner o2
       /\ amount (offer_bet o1) = 0 /\ amount (offer_bet o2) = 0.
Proof.
  apply (games_have_two_players dice SHA256.sha256 4
           (st_playing (game1 zero256 zero256 0))).
  - apply (@run_reachable dice SHA256.sha256 (matched_calls secret_a secret_b)
             0 initial_state (st_playing (game1 zero256 zero256 0))).
    + constructor.
    + vm_compute. reflexivity.
  - vm_compute. reflexivity.
  - left. reflexivity.
Defined.

Lemma run_reachable_typed (D : account_name) (sha256 : list byte -> checksum256)
    (calls : list (context * action)) (s s' : state) :
  Forall (fun c => well_typed (snd c)) calls ->
  reachable_typed D sha256 s ->
  run D sha256 calls s = inr s' ->
  reachable_typed D sha256 s'.
Proof.
  revert s. induction calls as [|[ctx a] calls IH]; intros s T R E.
  - cbn in E. apply ok_inr in E. now subst.
  - cbn [run] in E. apply bind_inr in E as (s1 & E1 & E).
    inversion T as [|? ? Ta Tc]; subst.
    apply (IH s1 Tc); [|exact E]. econstructor; eauto.
Qed.

(** X20.  In every state the contract reaches by calls with [int64_t]
    amounts, the offers that wait with one (positive) stake all belong to
    one owner: an offer of the same stake by anybody else would have been
    matched when it was placed. *)
Theorem waiting_offers_share_owner (D : account_name)
    (sha256 : list byte -> checksum256) (s : state) (a b : offer) :
  reachable_typed D sha256 s ->
  In a (offers s) -> In b (offers s) ->
  0 < amount (offer_bet a) ->
  amount (offer_bet a) = amount (offer_bet b) ->
  offer_owner a = offer_owner b.
Proof.
  intros R Ia Ib Pos E.
  destruct (waiting_reachable D sha256 s R) as [_ One].
  now apply (One a b).
Qed.

Lemma waiting_offers_share_owner_witness :
  exists s a b,
    run dice SHA256.sha256
      [(host 10, fund alice 1000); (host 30, place alice 100 secret_a);
       (host 40, place alice 100 secret_b)] initial_state = inr s
    /\ offers s = [a; b]
    /\ amount (offer_bet a) = 100 /\ amount (offer_bet b) = 100
    /\ offer_owner a = offer_owner b.
Proof.
  destruct (run dice SHA256.sha256
              [(host 10, fund alice 1000); (host 30, place alice 100 secret_a);
               (host 40, place alice 100 secret_b)] initial_state)
    as [e|s] eqn:E; [vm_compute in E; discriminate|].
  assert (reachable_typed dice SHA256.sha256 s) as R.
  { apply (run_reachable_typed dice SHA256.sha256
             [(host 10, fund alice 1000); (host 30, place alice 100 secret_a);
              (host 40, place alice 100 secret_b)] initial_state s).
    - repeat constructor; vm_compute; discriminate.
    - constructor.
    - exact E. }
  vm_compute in E. inversion E as [Es]. clear E.
  eexists. eexists. eexists. split; [reflexivity|]. split; [reflexivity|].
  split; [reflexivity|]. split; [reflexivity|].
  rewrite <- Es in R.
  apply (waiting_offers_share_owner dice SHA256.sha256 _ _ _ R).
  - left. reflexivity.
  - right. left. reflexivity.
  - reflexivity.
  - reflexivity.
Defined.

Lemma match_offer_meets_spec_witness :
  let new_row :=
    {| offer_id := 1; offer_owner := bob; offer_bet := {| amount := 100 |};
       offer_commitment := commit secret_b; offer_gameid := 0 |} in
  match_offer new_row (offers st_waiting ++ [new_row])
  = spec_match_offer new_row (offers st_waiting ++ [new_row]).
Proof.
  apply (match_offer_meets_spec dice SHA256.sha256 st_waiting bob_bet).
  - apply (run_reachable_typed dice SHA256.sha256
             [(host 10, fund alice 1000); (host 20, fund bob 1000);
              (host 30, place alice 100 secret_a)] initial_state st_waiting).
    + repeat constructor; vm_compute; discriminate.
    + constructor.
    + vm_compute. reflexivity.
  - vm_compute. split; reflexivity.
Defined.

(** X22.  In every state reached by fewer than [2^32] calls, the offer a
    new bet is matched with is an offer of the table that still waits
    ([gameid] 0) and belongs to another account: an offer that is in a
    game is never matched a second time. *)
Theorem matched_offer_was_waiting (D : account_name)
    (sha256 : list byte -> checksum256) (n : nat) (s : state)
    (new_offer : offerbet) (m : offer) :
  let new_row :=
    {| offer_id := available_primary_key (offers s);
       offer_owner := offerbet_player new_offer;
       offer_bet := offerbet_bet new_offer;
       offer_commitment := offerbet_commitment new_offer;
       offer_gameid := 0 |} in
  reachable_in D sha256 n s -> Z.of_nat n < 2 ^ 32 ->
  0 < amount (offerbet_bet new_offer) ->
  match_offer new_row (offers s ++ [new_row]) = Some m ->
  In m (offers s) /\ offer_gameid m = 0
  /\ offer_owner m <> offerbet_player new_offer
  /\ amount (offer_bet m) = amount (offerbet_bet new_offer).
Proof.
  intros new_row R Bound Pos M.
  pose proof (integrity_reachable _ _ _ _ R Bound) as Inv.
  apply match_offer_some in M as (Im & Em & Dm).
  change (offer_owner new_row) with (offerbet_player new_offer) in Dm.
  change (offer_bet new_row) with (offerbet_bet new_offer) in Em.
  assert (In m (offers s)) as I.
  { apply in_app_or in Im as [I|[<-|[]]]; [exact I|]. now contradiction Dm. }
  split; [exact I|]. split; [|split; [exact Dm|exact Em]].
  destruct (Z.eq_dec (offer_gameid m) 0) as [G|G]; [exact G|].
  destruct (offer_has_game Inv m I G) as [A _]. lia.
Qed.

Lemma matched_offer_was_waiting_witness :
  In alice_offer (offers st_waiting) /\ offer_gameid alice_offer = 0
  /\ offer_owner alice_offer <> bob
  /\ amount (offer_bet alice_offer) = 100.
Proof.
  apply (matched_offer_was_waiting dice SHA256.sha256 3 st_waiting bob_bet
           alice_offer).
  - apply (@run_reachable dice SHA256.sha256
             [(host 10, fund alice 1000); (host 20, fund bob 1000);
              (host 30, place alice 100 secret_a)] 0 initial_state st_waiting).
    + constructor.
    + vm_compute. reflexivity.
  - vm_compute. reflexivity.
  - reflexivity.
  - vm_compute. reflexivity.
Defined.

(** ** The money the contract holds *)

Section Totals.
Context {T : Type} {RowT : Row T}.
Variable f : T -> Z.

Lemma total_app (a b : list T) : total f (a ++ b) = total f a + total f b.
Proof.
  unfold total. induction a as [|x a IH]; cbn [app fold_right]; [lia|].
  rewrite IH. lia.
Qed.

Lemma total_one (r : T) : total f [r] = f r.
Proof. unfold total. cbn [fold_right]. lia. Qed.

Lemma total_replace_row (k : Z) (new cur : T) (t : list T) :
  unique_keys t -> find k t = Some cur ->
  total f (replace_row k new t) = total f t - f cur + f new.
Proof.
  unfold unique_keys, find, replace_row.
  induction t as [|a t IH]; cbn [List.find map]; [discriminate|].
  intros U F. inversion U as [|? ? Na Ut]; subst.
  destruct (has_key k a) eqn:H.
  - inversion F; subst a; clear F.
    assert (map (fun r => if has_key k r then new else r) t = t) as ->.
    { rewrite <- (map_id t) at 2. apply map_ext_in. intros r I.
      destruct (has_key k r) eqn:Hr; [|reflexivity].
      apply has_key_true in H, Hr. exfalso. apply Na. rewrite H, <- Hr.
      now apply in_map. }
    unfold total. cbn [fold_right]. lia.
  - unfold total in *. cbn [fold_right]. rewrite (IH Ut F). lia.
Qed.

Lemma total_erase (k : Z) (cur : T) (t : list T) :
  unique_keys t -> find k t = Some cur ->
  total f (erase k t) = total f t - f cur.
Proof.
  unfold unique_keys, find, erase.
  induction t as [|a t IH]; cbn [List.find filter map]; [discriminate|].
  intros U F. inversion U as [|? ? Na Ut]; subst.
  destruct (has_key k a) eqn:H; cbn [negb].
  - inversion F; subst a; clear F.
    assert (filter (fun r => negb (has_key k r)) t = t) as ->.
    { apply forallb_filter_id. apply forallb_forall. intros r I.
      apply negb_true_iff, has_key_false. intros E. apply has_key_true in H.
      apply Na. rewrite H, <- E. now apply in_map. }
    unfold total. cbn [fold_right]. lia.
  - unfold total in *. cbn [fold_right]. rewrite (IH Ut F). lia.
Qed.
End Totals.

(** [int64_t] arithmetic wraps by a multiple of [2^64]. *)
Lemma wrap_int64_shift (x : Z) : exists q, wrap_int64 x = x + q * 2 ^ 64.
Proof.
  unfold wrap_int64. exists (- ((x + 2 ^ 63) / 2 ^ 64)).
  pose proof (Z.div_mod (x + 2 ^ 63) (2 ^ 64)). lia.
Qed.

Lemma total_erase_null {T} {RowT : Row T} (f : T -> Z) (k : Z) (t : list T) :
  (forall r, In r t -> primary_key r = k -> f r = 0) ->
  total f (erase k t) = total f t.
Proof.
  unfold erase, total.
  induction t as [|a t IH]; intros N; cbn [filter fold_right]; [reflexivity|].
  assert (forall r, In r t -> primary_key r = k -> f r = 0) as N'
    by (intros r I; apply N; now right).
  destruct (has_key k a) eqn:H; cbn [negb fold_right]; rewrite (IH N').
  - apply has_key_true in H. rewrite (N a (or_introl eq_refl) H). lia.
  - reflexivity.
Qed.

(** *** Account and game keys stay unique *)

Lemma on_withdraw_effect (D : account_name) (ctx : context) (w : withdraw)
    (s s' : state) :
  on_withdraw D ctx w s = inr s' ->
  exists a,
    find (withdraw_to w) (accounts s) = Some a
    /\ amount (withdraw_amount w) <= amount (account_eos_balance a)
    /\ let left :=
         {| account_owner := account_owner a;
            account_eos_balance :=
              {| amount := amount (account_eos_balance a)
                           - amount (withdraw_amount w) |};
            account_open_offers := account_open_offers a;
            account_open_games := account_open_games a |} in
       s' = {| offers := offers s; games := games s;
               global_dices := global_dices s;
               accounts :=
                 if is_empty left
                 then erase (withdraw_to w)
                        (replace_row (withdraw_to w) left (accounts s))
                 else replace_row (withdraw_to w) left (accounts s) |}.
Proof.
  unfold on_withdraw. intros H.
  apply bind_inr in H as (? & _ & H).
  apply bind_inr in H as (? & _ & H).
  apply bind_inr in H as (accounts1 & E1 & H).
  apply modify_find_inr in E1 as (cur & new & Fc & En & ->).
  apply bind_inr in H as (? & _ & H).
  apply bind_inr in H as (now_ & E2 & H). apply deref_inr in E2.
  apply ok_inr in H. subst s'.
  unfold debit in En. apply bind_inr in En as (bal & Eb & En).
  apply ok_inr in En. apply token_sub_inr in Eb as [Le ->].
  pose proof (find_some _ _ Fc) as [_ Kc].
  assert (primary_key new = withdraw_to w) as Kn by (now subst new).
  erewrite find_replace_same in E2; [|exact Kn|exact Fc].
  inversion E2; subst now_; clear E2. rewrite Kn.
  exists cur. split; [exact Fc|]. split; [exact Le|].
  cbv zeta. unfold token_type in *. now subst new.
Qed.

Lemma ledger_ok_settle (g : game) (w l : offer) (s s' : state) :
  ledger_ok s -> pay_and_clean g w l s = inr s' -> ledger_ok s'.
Proof.
  intros [Ua Ug] H.
  apply pay_and_clean_inr in H as (wa & la & Fw & Fl & ->).
  pose proof (find_some _ _ Fw) as [_ Kw].
  pose proof (find_some _ _ Fl) as [_ Kl].
  split; cbn [accounts games].
  - assert (unique_keys
              (replace_row (offer_owner l) (close_game la)
                 (replace_row (offer_owner w) (credit_winner g wa) (accounts s))))
      as U2.
    { apply unique_keys_replace_row; [exact Kl|].
      apply unique_keys_replace_row; [exact Kw|exact Ua]. }
    destruct (is_empty (close_game la)); [|exact U2].
    now apply unique_keys_erase.
  - now apply unique_keys_erase.
Qed.

Lemma ledger_ok_step (D : account_name) (sha256 : list byte -> checksum256)
    (ctx : context) (a : action) (s s' : state) :
  unique_keys (offers s) -> ledger_ok s ->
  apply D sha256 ctx a s = inr s' -> ledger_ok s'.
Proof.
  intros U L H. pose proof L as [Ua Ug].
  destruct a as [x|x|x|x|x|x]; cbn [apply] in H.
  - apply (on_offerbet_inr _ _ _ U) in H
      as (_ & _ & _ & pa & pa' & Fp & Kp & [(_ & _ & _ & ->)|M]).
    + pose proof (find_some _ _ Fp) as [_ K].
      split; cbn [accounts games]; [|exact Ug].
      apply unique_keys_replace_row; [|exact Ua].
      change (primary_key pa') with (account_owner pa'). rewrite Kp. exact K.
    + destruct M as (matched & ma & counter & gd2 & _ & Fm & _ & _ & _ & _ & Fg & ->).
      pose proof (find_some _ _ Fp) as [_ K].
      pose proof (find_some _ _ Fm) as [_ Km].
      split; cbn [accounts games].
      * apply unique_keys_replace_row;
          [change (primary_key pa') with (account_owner pa'); rewrite Kp; exact K|].
        apply unique_keys_replace_row; [exact Km|exact Ua].
      * apply unique_keys_app_fresh; [exact Ug|exact Fg].
  - apply on_canceloffer_inr in H as (o & acnt & _ & _ & Fa & ->).
    pose proof (find_some _ _ Fa) as [_ K].
    split; cbn [accounts games]; [|exact Ug].
    apply unique_keys_replace_row; [exact K|exact Ua].
  - apply on_reveal_inr in H as (co & g & _ & _ & Fg & [(po & _ & [P|P])|[cr ->]]).
    + eapply ledger_ok_settle; eassumption.
    + eapply ledger_ok_settle; eassumption.
    + split; cbn [accounts games]; [exact Ua|].
      apply unique_keys_replace_row; [reflexivity|exact Ug].
  - apply on_claimexpired_inr in H as (g & o1 & o2 & _ & _ & _ & [P|P]);
      eapply ledger_ok_settle; eassumption.
  - apply on_deposit_effect in H. subst s'.
    split; cbn [accounts games]; [|exact Ug].
    destruct (find (deposit_from x) (accounts s)) as [a|] eqn:Fa.
    + pose proof (find_some _ _ Fa) as [_ K].
      apply unique_keys_replace_row; [exact K|exact Ua].
    + apply unique_keys_app_fresh; [exact Ua|exact Fa].
  - apply on_withdraw_effect in H as (a & Fa & _ & ->).
    pose proof (find_some _ _ Fa) as [_ K].
    split; cbn [accounts games]; [|exact Ug].
    assert (unique_keys
              (replace_row (withdraw_to x)
                 {| account_owner := account_owner a;
                    account_eos_balance :=
                      {| amount := amount (account_eos_balance a)
                                   - amount (withdraw_amount x) |};
                    account_open_offers := account_open_offers a;
                    account_open_games := account_open_games a |} (accounts s)))
      as U1 by (apply unique_keys_replace_row; [exact K|exact Ua]).
    destruct (is_empty _); [|exact U1]. now apply unique_keys_erase.
Qed.

Lemma ledger_ok_reachable (D : account_name) (sha256 : list byte -> checksum256)
    (n : nat) (s : state) :
  reachable_in D sha256 n s -> ledger_ok s.
Proof.
  induction 1 as [|n s ctx a s' R IH H].
  - split; constructor.
  - eapply ledger_ok_step; [|exact IH|exact H].
    exact (offers_unique (book_ok_reachable R)).
Qed.

(** *** What each call does to the holdings *)

Lemma holdings_settle (s s' : state) (g : game) (w l : offer) :
  unique_keys (offers s) -> ledger_ok s ->
  find (game_id g) (games s) = Some g ->
  In w (offers s) -> In l (offers s) ->
  amount (offer_bet w) = 0 -> amount (offer_bet l) = 0 ->
  pay_and_clean g w l s = inr s' ->
  exists q, holdings s' = holdings s + q * 2 ^ 64.
Proof.
  intros U [Ua Ug] Fg Iw Il Zw Zl H.
  apply pay_and_clean_inr in H as (wa & la & Fw & Fl & ->).
  pose proof (find_some _ _ Fw) as [_ Kw].
  pose proof (find_some _ _ Fl) as [_ Kl].
  set (bal := fun a : account => amount (account_eos_balance a)).
  set (stake := fun o : offer => amount (offer_bet o)).
  set (pot := fun x : game => 2 * amount (game_bet x)).
  set (accounts1 := replace_row (offer_owner w) (credit_winner g wa) (accounts s))
    in *.
  set (accounts2 := replace_row (offer_owner l) (close_game la) accounts1).
  assert (unique_keys accounts1) as U1
    by (apply unique_keys_replace_row; [exact Kw|exact Ua]).
  assert (unique_keys accounts2) as U2
    by (apply unique_keys_replace_row; [exact Kl|exact U1]).
  assert (total bal accounts2
          = total bal (accounts s) - bal wa + bal (credit_winner g wa)) as T2.
  { unfold accounts2, accounts1.
    rewrite (total_replace_row bal _ _ la _ U1 Fl). unfold accounts1.
    rewrite (total_replace_row bal _ _ wa _ Ua Fw).
    unfold bal. cbn [close_game account_eos_balance]. lia. }
  assert (total bal (if is_empty (close_game la)
                     then erase (offer_owner l) accounts2 else accounts2)
          = total bal accounts2) as T3.
  { destruct (is_empty (close_game la)) eqn:Em; [|reflexivity].
    apply is_empty_spec in Em as (Z0 & _).
    rewrite (total_erase bal _ (close_game la) _ U2).
    - unfold bal at 2. lia.
    - eapply find_replace_same; [exact Kl|exact Fl]. }
  assert (total stake (erase (offer_id l) (erase (offer_id w) (offers s)))
          = total stake (offers s)) as To.
  { rewrite total_erase_null.
    - apply total_erase_null. intros r I K.
      assert (r = w) as -> by (eapply same_key_same_row; eauto). exact Zw.
    - intros r [I _]%in_erase K.
      assert (r = l) as -> by (eapply same_key_same_row; eauto). exact Zl. }
  assert (total pot (erase (game_id g) (games s)) = total pot (games s) - pot g)
    as Tg by (apply total_erase; assumption).
  destruct (wrap_int64_shift (2 * amount (game_bet g))) as [q1 E1].
  destruct (wrap_int64_shift
              (amount (account_eos_balance wa)
               + wrap_int64 (2 * amount (game_bet g)))) as [q2 E2].
  exists (q1 + q2). unfold holdings. cbn [offers games accounts].
  fold bal stake pot accounts1 accounts2. rewrite T3, T2, To, Tg.
  unfold bal at 2 3, pot at 2. cbn [credit_winner account_eos_balance amount].
  rewrite E2, E1. lia.
Qed.

Lemma slot_stake_zero (n : nat) (s : state) (g : game) (c : checksum256)
    (o : offer) :
  integrity n s -> In g (games s) ->
  c = player_commitment (game_player1 g)
  \/ c = player_commitment (game_player2 g) ->
  find_key256 by_commitment (get_commitment c) (offers s) = Some o ->
  In o (offers s) /\ amount (offer_bet o) = 0.
Proof.
  intros Inv Ig Hc [Io Ec]%find_key256_offer. split; [exact Io|].
  destruct (game_has_offers Inv g Ig)
    as (Nz & o1 & o2 & I1 & I2 & C1 & C2 & G1 & G2 & _).
  pose proof (commitments_unique (book Inv)) as N.
  assert (offer_gameid o <> 0) as Ng.
  { destruct Hc as [-> | ->].
    - assert (o = o1) as ->
        by (eapply same_commitment_same_offer; eauto; congruence).
      congruence.
    - assert (o = o2) as ->
        by (eapply same_commitment_same_offer; eauto; congruence).
      congruence. }
  exact (proj1 (offer_has_game Inv o Io Ng)).
Qed.

Lemma holdings_offerbet (ctx : context) (new_offer : offerbet) (s s' : state) :
  unique_keys (offers s) -> ledger_ok s ->
  on_offerbet ctx new_offer s = inr s' -> holdings s' = holdings s.
Proof.
  intros U [Ua Ug] H.
  set (bal := fun a : account => amount (account_eos_balance a)).
  set (stake := fun o : offer => amount (offer_bet o)).
  set (pot := fun x : game => 2 * amount (game_bet x)).
  unfold on_offerbet in H. cbv zeta in H.
  set (new_row :=
         {| offer_id := available_primary_key (offers s);
            offer_owner := offerbet_player new_offer;
            offer_bet := offerbet_bet new_offer;
            offer_commitment := offerbet_commitment new_offer;
            offer_gameid := 0 |}) in *.
  apply bind_inr in H as (? & _ & H).
  apply bind_inr in H as (? & _ & H).
  apply bind_inr in H as (? & _ & H).
  apply bind_inr in H as (? & A & H).
  apply eosio_assert_inr, is_some_true in A as [pa Hpa].
  apply bind_inr in H as (offers1 & E & H).
  apply emplace_inr in E as [Fresh ->].
  pose proof (unique_keys_app_fresh new_row U Fresh) as U1.
  assert (total stake (offers s ++ [new_row])
          = total stake (offers s) + amount (offerbet_bet new_offer)) as T1.
  { rewrite total_app, total_one. reflexivity. }
  destruct (match_offer new_row (offers s ++ [new_row])) as [matched|] eqn:M.
  - pose proof (match_offer_some _ _ M) as (Im & Eam & Dm).
    change (offer_owner new_row) with (offerbet_player new_offer) in Dm.
    change (offer_bet new_row) with (offerbet_bet new_offer) in Eam.
    assert (offer_id matched <> offer_id new_row) as Did.
    { apply in_app_or in Im as [I|[E|[]]].
      - intros E. eapply find_none in I; eauto.
      - exfalso. apply Dm. now rewrite <- E. }
    apply bind_inr in H as (gd1 & _ & H).
    apply bind_inr in H as (gd2 & _ & H).
    apply bind_inr in H as (gkey & _ & H).
    apply bind_inr in H as (gdice & _ & H).
    apply bind_inr in H as (games1 & Eg & H).
    apply emplace_inr in Eg as [_ ->].
    apply bind_inr in H as (offers2 & E2 & H).
    apply modify_inr in E2 as (i & cur & new & Ei & Ec & En & ->).
    inversion Ei; subst i; clear Ei.
    pose proof (find_unique _ U1 Im) as Fm.
    rewrite Fm in Ec. inversion Ec; subst cur; clear Ec.
    apply ok_inr in En. subst new.
    apply bind_inr in H as (offers3 & E3 & H).
    apply modify_inr in E3 as (i & cur & new & Ei & Ec & En & ->).
    inversion Ei; subst i; clear Ei.
    assert (find (primary_key new_row) (offers s ++ [new_row]) = Some new_row) as Fn.
    { apply find_unique; auto. apply in_or_app. right. now left. }
    pose proof Ec as Ec'.
    rewrite find_replace_other in Ec;
      [|reflexivity|intros E; apply Did; symmetry; exact E].
    rewrite Fn in Ec. inversion Ec; subst cur; clear Ec.
    apply ok_inr in En. subst new.
    apply bind_inr in H as (accounts1 & E4 & H).
    apply modify_find_inr in E4 as (ma & ma' & Fma & Em & ->).
    apply ok_inr in Em. subst ma'.
    pose proof (find_some _ _ Fma) as [_ Kma].
    apply bind_inr in H as (accounts2 & E5 & H).
    rewrite Hpa in E5.
    apply modify_inr in E5 as (i & cur & pa' & Ep & Ec & En & ->).
    inversion Ep; subst i; clear Ep.
    unfold debit_open_game in En.
    apply bind_inr in En as (b & Eb & En). apply ok_inr in En.
    apply token_sub_inr in Eb as [_ ->].
    apply ok_inr in H. subst s' pa'.
    unfold holdings. cbn [offers games accounts]. fold bal stake pot.
    rewrite (total_replace_row bal _ _ cur _
               (unique_keys_replace_row (offer_to_game ma)
                  (Kma : primary_key (offer_to_game ma) = _) Ua) Ec).
    rewrite (total_replace_row bal _ _ ma _ Ua Fma).
    rewrite (total_replace_row stake _ _ new_row _
               (unique_keys_replace_row (enter_game _ matched) eq_refl U1) Ec').
    rewrite (total_replace_row stake _ _ matched _ U1 Fm).
    rewrite (total_app pot), total_one, T1.
    subst bal stake pot. cbv beta.
    cbn [offer_to_game enter_game account_eos_balance offer_bet amount game_bet].
    change (offer_bet new_row) with (offerbet_bet new_offer).
    unfold token_type. lia.
  - apply bind_inr in H as (accounts1 & E5 & H).
    rewrite Hpa in E5.
    apply modify_inr in E5 as (i & cur & pa' & Ep & Ec & En & ->).
    inversion Ep; subst i; clear Ep.
    unfold debit_open_offer in En.
    apply bind_inr in En as (b & Eb & En). apply ok_inr in En.
    apply token_sub_inr in Eb as [_ ->].
    apply ok_inr in H. subst s' pa'.
    unfold holdings. cbn [offers games accounts]. fold bal stake pot.
    rewrite (total_replace_row bal _ _ cur _ Ua Ec), T1.
    subst bal stake pot. cbv beta. cbn [account_eos_balance amount].
    unfold token_type. lia.
Qed.

Lemma holdings_canceloffer (ctx : context) (c : canceloffer) (s s' : state) :
  unique_keys (offers s) -> ledger_ok s ->
  on_canceloffer ctx c s = inr s' ->
  exists q, holdings s' = holdings s + q * 2 ^ 64.
Proof.
  intros U [Ua Ug] H.
  apply on_canceloffer_inr in H as (o & acnt & Fo & _ & Fa & ->).
  apply find_key256_some in Fo as [Io _].
  destruct (wrap_int64_shift
              (amount (account_eos_balance acnt) + amount (offer_bet o)))
    as [q E].
  exists q. unfold holdings. cbn [offers games accounts].
  rewrite (total_replace_row _ _ _ acnt _ Ua Fa).
  rewrite (total_erase _ _ o _ U (find_unique _ U Io)).
  cbn [refund account_eos_balance amount]. rewrite E. lia.
Qed.

Lemma holdings_reveal (sha256 : list byte -> checksum256) (ctx : context)
    (r : reveal) (n : nat) (s s' : state) :
  integrity n s -> ledger_ok s ->
  on_reveal sha256 ctx r s = inr s' ->
  exists q, holdings s' = holdings s + q * 2 ^ 64.
Proof.
  intros Inv L H. pose proof (offers_unique (book Inv)) as U.
  apply on_reveal_inr in H as (co & g & Fc & Pos & Fg & [(po & Fp & P)|[cr ->]]).
  - pose proof (find_some _ _ Fg) as [Ig Kg].
    change (primary_key g) with (game_id g) in Kg. rewrite <- Kg in Fg.
    apply find_key256_offer in Fc as [Ic _].
    assert (offer_gameid co <> 0) as Nz by lia.
    pose proof (proj1 (offer_has_game Inv co Ic Nz)) as Zc.
    assert (In po (offers s) /\ amount (offer_bet po) = 0) as [Ip Zp].
    { eapply slot_stake_zero; [exact Inv|exact Ig| |exact Fp].
      destruct (is_equal _ _); auto. }
    destruct P as [P|P].
    + exact (holdings_settle _ _ _ _ _ U L Fg Ic Ip Zc Zp P).
    + exact (holdings_settle _ _ _ _ _ U L Fg Ip Ic Zp Zc P).
  - exists 0. pose proof L as [Ua Ug].
    pose proof (find_some _ _ Fg) as [_ Kg].
    change (primary_key g) with (game_id g) in Kg. rewrite <- Kg in Fg.
    unfold holdings. cbn [offers games accounts].
    rewrite (total_replace_row _ _ _ g _ Ug Fg).
    cbn [record_reveal game_bet]. lia.
Qed.

Lemma holdings_claimexpired (ctx : context) (c : claimexpired) (n : nat)
    (s s' : state) :
  integrity n s -> ledger_ok s ->
  on_claimexpired ctx c s = inr s' ->
  exists q, holdings s' = holdings s + q * 2 ^ 64.
Proof.
  intros Inv L H. pose proof (offers_unique (book Inv)) as U.
  apply on_claimexpired_inr in H as (g & o1 & o2 & Fg & F1 & F2 & P).
  pose proof (find_some _ _ Fg) as [Ig Kg].
  change (primary_key g) with (game_id g) in Kg. rewrite <- Kg in Fg.
  assert (In o1 (offers s) /\ amount (offer_bet o1) = 0) as [I1 Z1]
    by (eapply slot_stake_zero; [exact Inv|exact Ig| |exact F1]; auto).
  assert (In o2 (offers s) /\ amount (offer_bet o2) = 0) as [I2 Z2]
    by (eapply slot_stake_zero; [exact Inv|exact Ig| |exact F2]; auto).
  destruct P as [P|P].
  - exact (holdings_settle _ _ _ _ _ U L Fg I1 I2 Z1 Z2 P).
  - exact (holdings_settle _ _ _ _ _ U L Fg I2 I1 Z2 Z1 P).
Qed.

Lemma holdings_deposit (D : account_name) (ctx : context) (d : deposit)
    (s s' : state) :
  ledger_ok s -> on_deposit D ctx d s = inr s' ->
  holdings s' = holdings s + amount (deposit_amount d).
Proof.
  intros [Ua Ug] H. apply on_deposit_effect in H. subst s'.
  unfold holdings. cbn [offers games accounts].
  destruct (find (deposit_from d) (accounts s)) as [a|] eqn:Fa.
  - rewrite (total_replace_row _ _ _ a _ Ua Fa).
    cbn [account_eos_balance amount]. lia.
  - rewrite total_app, total_one. cbn [account_eos_balance amount]. lia.
Qed.

Lemma holdings_withdraw (D : account_name) (ctx : context) (w : withdraw)
    (s s' : state) :
  ledger_ok s -> on_withdraw D ctx w s = inr s' ->
  holdings s' = holdings s - amount (withdraw_amount w).
Proof.
  intros [Ua Ug] H. apply on_withdraw_effect in H as (a & Fa & _ & ->).
  pose proof (find_some _ _ Fa) as [_ K].
  set (left := {| account_owner := account_owner a;
                  account_eos_balance :=
                    {| amount := amount (account_eos_balance a)
                                 - amount (withdraw_amount w) |};
                  account_open_offers := account_open_offers a;
                  account_open_games := account_open_games a |}).
  unfold holdings. cbn [offers games accounts].
  assert (total (fun x => amount (account_eos_balance x))
            (replace_row (withdraw_to w) left (accounts s))
          = total (fun x => amount (account_eos_balance x)) (accounts s)
            - amount (withdraw_amount w)) as T1.
  { rewrite (total_replace_row _ _ _ a _ Ua Fa).
    unfold left. cbn [account_eos_balance amount]. lia. }
  destruct (is_empty left) eqn:Em.
  - apply is_empty_spec in Em as (Z0 & _).
    assert (find (withdraw_to w) (replace_row (withdraw_to w) left (accounts s))
            = Some left) as Fl
      by (eapply find_replace_same; [exact K|exact Fa]).
    rewrite (total_erase _ _ left _
               (unique_keys_replace_row left (K : primary_key left = _) Ua) Fl).
    rewrite T1, Z0. lia.
  - rewrite T1. lia.
Qed.

(** X23.  Money is neither made nor lost inside the contract.  In a
    state reached by fewer than [2^32] calls, a successful call changes
    the holdings (the account balances, the stakes of the waiting
    offers, and twice the bet of every game) by what it moves in or out:
    a deposit adds its amount, a withdrawal takes its amount, and every
    other call leaves the sum as it is, up to the [2^64] wrap-around of
    the [int64_t] additions in the refund and in the payout. *)
Theorem funds_conserved (D : account_name) (sha256 : list byte -> checksum256)
    (n : nat) (s s' : state) (ctx : context) (a : action) :
  reachable_in D sha256 n s -> Z.of_nat n < 2 ^ 32 ->
  apply D sha256 ctx a s = inr s' ->
  holdings s' mod 2 ^ 64 = (holdings s + inflow a) mod 2 ^ 64.
Proof.
  intros R Bound H.
  pose proof (integrity_reachable _ _ _ _ R Bound) as Inv.
  pose proof (ledger_ok_reachable _ _ _ _ R) as L.
  pose proof (offers_unique (book Inv)) as U.
  assert (forall q, holdings s' = holdings s + q * 2 ^ 64 ->
            holdings s' mod 2 ^ 64 = (holdings s + 0) mod 2 ^ 64) as Shift.
  { intros q ->. rewrite Z.add_0_r. apply Z_mod_plus_full. }
  destruct a as [x|x|x|x|x|x]; cbn [apply inflow] in *.
  - apply (Shift 0). rewrite (holdings_offerbet _ _ _ _ U L H). lia.
  - destruct (holdings_canceloffer _ _ _ _ U L H) as [q E]. exact (Shift q E).
  - destruct (holdings_reveal _ _ _ _ _ _ Inv L H) as [q E]. exact (Shift q E).
  - destruct (holdings_claimexpired _ _ _ _ _ Inv L H) as [q E]. exact (Shift q E).
  - now rewrite (holdings_deposit _ _ _ _ _ L H).
  - rewrite (holdings_withdraw _ _ _ _ _ L H). f_equal.
Qed.

Lemma funds_conserved_witness :
  holdings (st_playing (game1 zero256 zero256 0)) mod 2 ^ 64
  = (holdings st_waiting + inflow (place bob 100 secret_b)) mod 2 ^ 64.
Proof.
  apply (funds_conserved dice SHA256.sha256 3 st_waiting
           (st_playing (game1 zero256 zero256 0)) (host 40)
           (place bob 100 secret_b)).
  - apply (@run_reachable dice SHA256.sha256
             [(host 10, fund alice 1000); (host 20, fund bob 1000);
              (host 30, place alice 100 secret_a)] 0 initial_state st_waiting).
    + constructor.
    + vm_compute. reflexivity.
  - vm_compute. reflexivity.
  - vm_compute. reflexivity.
Defined.
